(** * The retrieval pipeline of backend/rag.py

    A shallow embedding of the chunker, the index store, the retriever and
    the answer composer of [backend/rag.py], with the properties of the
    specification stated over it, followed by the log of
    [backend/db_logging.py] and the handlers of [backend/main.py] that
    call the pipeline.

    Conventions of the model.
    - A Python [float] is an IEEE 754 binary64 number: [spec_float] with
      precision 53 and maximal exponent 1024, and the operations of
      [SpecFloat], which compute.
    - A Python [str] is a [string]; one character stands for one code
      point below 256.
    - A Python [int] is a [Z].
    - A Python exception is a value of [exn]; code that can raise returns a
      [result], and code that also reads or writes the process state (the
      cache, the two files, the remote services) runs in the monad [M].
    - What the code prints is left out, and so are the failures of the
      file system other than a missing file.
    - The database of the log is the table [interactions]: its rows, and
      the largest id given so far.  No other program writes to it.
    - A handler of the server runs from its start to its end before the
      next one starts. *)

From Stdlib Require Import ZArith Lia Bool List String Ascii Sorted Permutation.
From Stdlib Require Import Floats.SpecFloat.
From stdpp Require Import base option list gmap strings sorting.

Local Open Scope string_scope.
Local Open Scope list_scope.
Local Open Scope Z_scope.

(** ** Exceptions and results *)

Inductive exn : Type :=
  | FileNotFoundError
  | ZeroDivisionError
  | ValueError
  | TypeError
  | KeyError
  | AttributeError
  | JSONDecodeError
  | IndexError
  | ProviderError (code : nat).

Inductive result (A : Type) : Type :=
  | Ok (a : A)
  | Raise (e : exn).
Arguments Ok {A} a.
Arguments Raise {A} e.

Definition rbind {A B : Type} (r : result A) (k : A -> result B) : result B :=
  match r with
  | Ok a => k a
  | Raise e => Raise e
  end.

Fixpoint rmapM {A B : Type} (f : A -> result B) (l : list A) : result (list B) :=
  match l with
  | [] => Ok []
  | x :: l' =>
      rbind (f x) (fun y => rbind (rmapM f l') (fun ys => Ok (y :: ys)))
  end.

(** ** Floats *)

Module Float.

Definition prec : Z := 53.
Definition emax : Z := 1024.

Definition add : spec_float -> spec_float -> spec_float := SFadd prec emax.
Definition mul : spec_float -> spec_float -> spec_float := SFmul prec emax.
Definition div : spec_float -> spec_float -> spec_float := SFdiv prec emax.
Definition sqrt : spec_float -> spec_float := SFsqrt prec emax.

Definition eqb : spec_float -> spec_float -> bool := SFeqb.
Definition ltb : spec_float -> spec_float -> bool := SFltb.
Definition leb : spec_float -> spec_float -> bool := SFleb.

(** The literal [0.0]. *)
Definition zero : spec_float := S754_zero false.

(** [2.0 ** e] for [-1022 <= e <= 1023], and its opposite. *)
Definition pow2 (e : Z) : spec_float :=
  S754_finite false 4503599627370496 (e - 52).
Definition neg_pow2 (e : Z) : spec_float :=
  S754_finite true 4503599627370496 (e - 52).

Definition is_nan (x : spec_float) : bool :=
  match x with S754_nan => true | _ => false end.

Definition is_zero (x : spec_float) : bool :=
  match x with S754_zero _ => true | _ => false end.

End Float.

Abbreviation float := spec_float.

(** [x / y] on floats: Python raises on a zero divisor. *)
Definition py_truediv (x y : float) : result float :=
  if Float.eqb y Float.zero then Raise ZeroDivisionError
  else Ok (Float.div x y).

(** [math.sqrt]: a NaN result of a non-NaN argument is a domain error. *)
Definition math_sqrt (x : float) : result float :=
  let r := Float.sqrt x in
  if Float.is_nan r && negb (Float.is_nan x) then Raise ValueError
  else Ok r.

(** [sum] over floats: the additions run left to right from the start
    value 0.  (CPython from 3.12 on also carries a correction term for the
    rounding errors and adds it at the end; the model is the plain sum of
    the earlier versions.) *)
Definition py_sum (l : list float) : float :=
  fold_left Float.add l Float.zero.

(** [zip] stops at the shorter list. *)
Fixpoint zip_mul (a b : list float) : list float :=
  match a, b with
  | x :: a', y :: b' => Float.mul x y :: zip_mul a' b'
  | _, _ => []
  end.

Definition norm (a : list float) : result float :=
  math_sqrt (py_sum (map (fun x => Float.mul x x) a)).

Definition _cosine_similarity (a b : list float) : result float :=
  let dot := py_sum (zip_mul a b) in
  rbind (norm a) (fun norm_a =>
  rbind (norm b) (fun norm_b =>
  if Float.eqb norm_a Float.zero || Float.eqb norm_b Float.zero
  then Ok Float.zero
  else py_truediv dot (Float.mul norm_a norm_b))).

(** ** Strings *)

(** [str.isspace] on the code points below 256: the controls 9 to 13 and
    28 to 31, the space, NEXT LINE (133) and NO-BREAK SPACE (160). *)
Definition isspace (c : ascii) : bool :=
  let n := N_of_ascii c in
  ((9 <=? n) && (n <=? 13) || (28 <=? n) && (n <=? 31)
   || (n =? 32) || (n =? 133) || (n =? 160))%N.

Definition is_empty (s : string) : bool :=
  match s with EmptyString => true | String _ _ => false end.

(** [len(s)] *)
Definition len (s : string) : Z := Z.of_nat (String.length s).

(** [s.split()]: the maximal runs of characters that are not whitespace.
    [word] holds the characters of the run being read. *)
Fixpoint split_from (s word : string) : list string :=
  match s with
  | EmptyString => if is_empty word then [] else [word]
  | String c s' =>
      if isspace c
      then (if is_empty word then split_from s' "" else word :: split_from s' "")
      else split_from s' (word +:+ String c "")
  end.

Definition str_split (s : string) : list string := split_from s "".

(** [sep.join(l)] *)
Fixpoint str_join (sep : string) (l : list string) : string :=
  match l with
  | [] => ""
  | [w] => w
  | w :: l' => w +:+ sep +:+ str_join sep l'
  end.

Fixpoint lstrip (s : string) : string :=
  match s with
  | EmptyString => ""
  | String c s' => if isspace c then lstrip s' else s
  end.

Fixpoint rstrip (s : string) : string :=
  match s with
  | EmptyString => ""
  | String c s' =>
      let r := rstrip s' in
      if is_empty r && isspace c then "" else String c r
  end.

(** [s.strip()] *)
Definition str_strip (s : string) : string := rstrip (lstrip s).

(** ** The chunker *)

(** [sum(len(w) + 1 for w in ws)] *)
Definition overlap_len (ws : list string) : Z :=
  fold_left Z.add (map (fun w => len w + 1) ws) 0.

(** The [while] loop that seeds the next buffer.  [rev_current] is
    [current] read from its end, so that its head is what [current.pop()]
    returns; the loop ends when [current] is empty or the words taken so
    far reach [overlap]. *)
Fixpoint take_overlap (overlap : Z) (rev_current overlap_words : list string)
  : list string :=
  match rev_current with
  | [] => overlap_words
  | w :: rest =>
      if overlap_len overlap_words <? overlap
      then take_overlap overlap rest (w :: overlap_words)
      else overlap_words
  end.

Definition overlap_seed (overlap : Z) (current : list string) : list string :=
  take_overlap overlap (rev current) [].

Record chunker_state : Type := {
  chunks : list string;
  current : list string;
  current_len : Z
}.

Definition nonempty {A : Type} (l : list A) : bool :=
  match l with [] => false | _ :: _ => true end.

(** [add_len] of the loop body. *)
Definition add_len (st : chunker_state) (word : string) : Z :=
  len word + (if nonempty (current st) then 1 else 0).

(** The test that closes the current chunk before [word] is added. *)
Definition closes (max_chars : Z) (st : chunker_state) (word : string) : bool :=
  (current_len st + add_len st word >? max_chars) && nonempty (current st).

(** The state after the chunk is closed and the next buffer is seeded. *)
Definition close_chunk (overlap : Z) (st : chunker_state) : chunker_state :=
  let chunk := str_strip (str_join " " (current st)) in
  if overlap >? 0 then
    let overlap_words := overlap_seed overlap (current st) in
    {| chunks := chunks st ++ [chunk];
       current := overlap_words;
       current_len := overlap_len overlap_words |}
  else
    {| chunks := chunks st ++ [chunk]; current := []; current_len := 0 |}.

(** One iteration of [for word in words]. *)
Definition chunker_step (max_chars overlap : Z) (st : chunker_state) (word : string)
  : chunker_state :=
  let add := add_len st word in
  let st' := if closes max_chars st word then close_chunk overlap st else st in
  {| chunks := chunks st';
     current := current st' ++ [word];
     current_len := current_len st' + add |}.

Definition chunker_init : chunker_state :=
  {| chunks := []; current := []; current_len := 0 |}.

Definition chunker_run (max_chars overlap : Z) (words : list string) : chunker_state :=
  fold_left (chunker_step max_chars overlap) words chunker_init.

Definition chunker_finish (st : chunker_state) : list string :=
  if nonempty (current st)
  then chunks st ++ [str_strip (str_join " " (current st))]
  else chunks st.

Definition _split_text_into_chunks (text : string) (max_chars overlap : Z)
  : list string :=
  chunker_finish (chunker_run max_chars overlap (str_split text)).

(** ** Chunks and the persisted index *)

Record Chunk : Type := {
  id : Z;
  text : string;
  embedding : list float
}.

(** A JSON document, as [json.loads] returns it and [json.dumps] takes it.
    An object is a [dict] with [str] keys. *)
#[warnings="-register-all"]
Inductive json : Type :=
  | JNull
  | JBool (b : bool)
  | JInt (n : Z)
  | JFloat (x : float)
  | JStr (s : string)
  | JList (l : list json)
  | JObj (m : gmap string json).

(** The text of a file that is read as JSON.  The model does not go below
    the document: a text either spells one document, which [json.loads]
    returns and which is the one [json.dumps] was given, or it is not
    JSON. *)
Inductive json_text : Type :=
  | Malformed
  | Dumps (doc : json).

Definition json_dumps (doc : json) : json_text := Dumps doc.

Definition json_loads (t : json_text) : result json :=
  match t with
  | Malformed => Raise JSONDecodeError
  | Dumps doc => Ok doc
  end.

(** [{"id": c.id, "text": c.text, "embedding": c.embedding}] *)
Definition chunk_to_json (c : Chunk) : json :=
  JObj (<["embedding" := JList (JFloat <$> embedding c)]>
       (<["text" := JStr (text c)]>
       (<["id" := JInt (id c)]> ∅))).

Definition serializable (index : list Chunk) : json :=
  JList (chunk_to_json <$> index).

(** [for item in raw]: a list gives its elements, a dict its keys, a string
    its characters; the other documents are not iterable. *)
Definition json_iter (raw : json) : result (list json) :=
  match raw with
  | JList l => Ok l
  | JObj m => Ok (JStr <$> (map_to_list m).*1)
  | JStr s => Ok ((fun c => JStr (String c "")) <$> list_ascii_of_string s)
  | _ => Raise TypeError
  end.

(** [item[key]] for a [str] key. *)
Definition getitem (item : json) (key : string) : result json :=
  match item with
  | JObj m =>
      match m !! key with
      | Some v => Ok v
      | None => Raise KeyError
      end
  | _ => Raise TypeError
  end.

(** The fields of [Chunk] are typed as the dataclass annotates them.  The
    dataclass itself checks nothing: a loaded value of another type would
    be stored as it is and raise [TypeError] where it is first used as a
    number, a string or a list.  The model raises that error earlier,
    when it loads the file.  The two agree on the files whose fields have
    these types, which are the files that a build writes; a statement
    that depends on where the error is raised assumes
    [no_type_error_at_load]. *)
Definition as_int (v : json) : result Z :=
  match v with JInt n => Ok n | _ => Raise TypeError end.

Definition as_str (v : json) : result string :=
  match v with JStr s => Ok s | _ => Raise TypeError end.

Definition as_float (v : json) : result float :=
  match v with JFloat x => Ok x | _ => Raise TypeError end.

Definition as_float_list (v : json) : result (list float) :=
  match v with JList l => rmapM as_float l | _ => Raise TypeError end.

(** [Chunk(id=item["id"], text=item["text"], embedding=item["embedding"])] *)
Definition chunk_of_json (item : json) : result Chunk :=
  rbind (getitem item "id") (fun v_id =>
  rbind (getitem item "text") (fun v_text =>
  rbind (getitem item "embedding") (fun v_emb =>
  rbind (as_int v_id) (fun i =>
  rbind (as_str v_text) (fun t =>
  rbind (as_float_list v_emb) (fun e =>
  Ok {| id := i; text := t; embedding := e |})))))).

Definition load_chunks (raw : json) : result (list Chunk) :=
  rbind (json_iter raw) (rmapM chunk_of_json).

(** ** The remote services *)

Record Message : Type := { content : option string }.
Record Choice : Type := { message : Message }.
Record Usage : Type := {
  prompt_tokens : option Z;
  completion_tokens : option Z;
  total_tokens : option Z
}.
Record Completion : Type := {
  choices : list Choice;
  usage : option Usage
}.

Record ChatRequest : Type := {
  chat_model : string;
  chat_messages : list (string * string);
  chat_temperature : float
}.

(** ** The process state *)

(** The module variable [_index_cache], the two files and the remote
    services.  A service is what it answers to the n-th request of the
    process: the vectors of [resp.data], or the completion, or the
    exception that the client raises. *)
Record world : Type := {
  _index_cache : option (list Chunk);
  knowledge_file : option string;
  index_file : option json_text;
  embeddings_create : nat -> string -> string -> result (list (list float));
  chat_completions_create : nat -> ChatRequest -> result Completion;
  requests : nat
}.

Definition M (A : Type) : Type := world -> result A * world.

Definition ret {A : Type} (a : A) : M A := fun w => (Ok a, w).

Definition raise {A : Type} (e : exn) : M A := fun w => (Raise e, w).

Definition lift {A : Type} (r : result A) : M A := fun w => (r, w).

Definition bind {A B : Type} (m : M A) (k : A -> M B) : M B :=
  fun w =>
    match m w with
    | (Ok a, w') => k a w'
    | (Raise e, w') => (Raise e, w')
    end.

Notation "'let*' x ':=' m 'in' k" := (bind m (fun x => k))
  (at level 10, x name, m at level 100, k at level 200).

Definition set_index_cache (index : list Chunk) : M unit :=
  fun w =>
    (Ok tt,
     {| _index_cache := Some index;
        knowledge_file := knowledge_file w;
        index_file := index_file w;
        embeddings_create := embeddings_create w;
        chat_completions_create := chat_completions_create w;
        requests := requests w |}).

(** [INDEX_PATH.write_text(t)] *)
Definition write_index_file (t : json_text) : M unit :=
  fun w =>
    (Ok tt,
     {| _index_cache := _index_cache w;
        knowledge_file := knowledge_file w;
        index_file := Some t;
        embeddings_create := embeddings_create w;
        chat_completions_create := chat_completions_create w;
        requests := requests w |}).

Definition next_request (w : world) : world :=
  {| _index_cache := _index_cache w;
     knowledge_file := knowledge_file w;
     index_file := index_file w;
     embeddings_create := embeddings_create w;
     chat_completions_create := chat_completions_create w;
     requests := S (requests w) |}.

Definition EMBEDDING_MODEL : string := "text-embedding-3-small".
Definition CHAT_MODEL : string := "gpt-4o-mini".

Definition _load_knowledge_text : M string :=
  fun w =>
    match knowledge_file w with
    | None => raise FileNotFoundError w
    | Some t => ret t w
    end.

(** [resp.data[0].embedding] *)
Definition first_embedding (resp : result (list (list float))) : result (list float) :=
  match resp with
  | Ok (e :: _) => Ok e
  | Ok [] => Raise IndexError
  | Raise e => Raise e
  end.

(** What [_embed_text(text)] returns when it is the n-th request. *)
Definition embed_reply (w : world) (n : nat) (text : string) : result (list float) :=
  first_embedding (embeddings_create w n EMBEDDING_MODEL text).

Definition _embed_text (text : string) : M (list float) :=
  fun w => (embed_reply w (requests w) text, next_request w).

(** ** The index store *)

(** The loop [for i, chunk_text in enumerate(chunks_text)], from position
    [i] on, with the list [index] built so far. *)
Fixpoint embed_chunks (i : Z) (chunks_text : list string) (index : list Chunk)
  : M (list Chunk) :=
  match chunks_text with
  | [] => ret index
  | chunk_text :: rest =>
      let* emb := _embed_text chunk_text in
      embed_chunks (i + 1) rest
        (index ++ [{| id := i; text := chunk_text; embedding := emb |}])
  end.

(** The branch that loads the persisted index. *)
Definition load_index (t : json_text) : M (list Chunk) :=
  let* raw := lift (json_loads t) in
  let* index := lift (load_chunks raw) in
  let* _ := set_index_cache index in
  ret index.

(** The branch that builds the index from the knowledge text. *)
Definition build_index : M (list Chunk) :=
  let* text := _load_knowledge_text in
  let chunks_text := _split_text_into_chunks text 800 100 in
  let* index := embed_chunks 0 chunks_text [] in
  let* _ := write_index_file (json_dumps (serializable index)) in
  let* _ := set_index_cache index in
  ret index.

Definition build_or_load_index (force_rebuild : bool) : M (list Chunk) :=
  fun w =>
    match _index_cache w, force_rebuild with
    | Some index, false => (Ok index, w)
    | _, _ =>
        match index_file w, force_rebuild with
        | Some t, false => load_index t w
        | _, _ => build_index w
        end
    end.

(** ** The retriever *)

(** The list in descending order of its keys, equal keys in the order of
    the list: an element moves to the right of the elements that come
    after it and have a strictly greater key.  This is what
    [list.sort(key=key, reverse=True)] promises, and what it returns when
    no key is NaN, see [list_sort_reverse_sorted]. *)
Section Sort.
Context {A : Type} (key : A -> float).

Fixpoint insert_desc (x : A) (l : list A) : list A :=
  match l with
  | [] => [x]
  | y :: l' =>
      if Float.ltb (key x) (key y) then y :: insert_desc x l' else x :: l
  end.

Definition sort_reverse (l : list A) : list A := foldr insert_desc [] l.
End Sort.

(** [list.sort(key=key, reverse=True)] as CPython 3.11 runs it.  The
    sort compares keys with [<] only.  With [reverse], the list is turned
    round, sorted so that equal keys keep their order, and turned round
    again.  The sort takes the run at the start of the list, which either
    never descends or descends strictly and is then turned round, and
    puts each element after the run in its place in the sorted part, which
    a binary search finds.  This is the whole algorithm on fewer than 64
    elements, with or without NaN among the keys.  From 64 elements on,
    the interpreter sorts pieces of the list in this way and merges them;
    on keys without NaN the merges give the list that the model gives, and
    on such lists with a NaN among the keys the model does not follow
    them. *)
Section ListSort.
Context {A : Type} (key : A -> float).

(** [ISLT(x, y)]: the one comparison of the sort, [key(x) < key(y)]. *)
Definition islt (x y : A) : bool := Float.ltb (key x) (key y).

(** The loop of [count_run] from the third element on: the elements that
    go on with the run, which is strictly descending or never
    descending. *)
Fixpoint run_length (descending : bool) (prev : A) (l : list A) : nat :=
  match l with
  | [] => 0
  | x :: l' =>
      if Bool.eqb (islt x prev) descending
      then S (run_length descending x l')
      else 0
  end.

(** [count_run]: the length of the run at the start of [l], and whether
    it is descending. *)
Definition count_run (l : list A) : nat * bool :=
  match l with
  | [] => (0%nat, false)
  | [x] => (1%nat, false)
  | x :: y :: l' =>
      let descending := islt y x in
      (S (S (run_length descending y l')), descending)
  end.

(** The binary search of [binarysort] for the place of [pivot] in
    [sorted], between the positions [l] and [r].  The distance of [l] and
    [r] is at least halved at each step: [fuel] steps are enough when
    [fuel] is that distance, see [bisect_fuel]. *)
Fixpoint bisect (fuel : nat) (pivot : A) (sorted : list A) (l r : nat) : nat :=
  match fuel with
  | O => l
  | S fuel' =>
      if (l <? r)%nat then
        let p := (l + (r - l) / 2)%nat in
        match sorted !! p with
        | Some y =>
            if islt pivot y
            then bisect fuel' pivot sorted l p
            else bisect fuel' pivot sorted (S p) r
        | None => l
        end
      else l
  end.

Definition insert_at (i : nat) (x : A) (l : list A) : list A :=
  take i l ++ x :: drop i l.

(** One step of [binarysort]: [pivot] goes where the search ends. *)
Definition binary_insert (sorted : list A) (pivot : A) : list A :=
  insert_at (bisect (length sorted) pivot sorted 0 (length sorted)) pivot sorted.

Definition binarysort (run rest : list A) : list A :=
  fold_left binary_insert rest run.

(** The sort of a list without [reverse]. *)
Definition list_sort_forward (l : list A) : list A :=
  match l with
  | [] | [_] => l
  | _ =>
      let (n, descending) := count_run l in
      let run := take n l in
      binarysort (if descending then rev run else run) (drop n l)
  end.

(** [l.sort(key=key, reverse=True)] *)
Definition list_sort_reverse (l : list A) : list A :=
  rev (list_sort_forward (rev l)).

End ListSort.

(** [l[:k]] *)
Definition slice_to {A : Type} (k : Z) (l : list A) : list A :=
  if k <? 0 then take (length l - Z.to_nat (- k)) l else take (Z.to_nat k) l.

(** [(c, _cosine_similarity(query_emb, c.embedding))] *)
Definition score_chunk (query_emb : list float) (c : Chunk) : result (Chunk * float) :=
  rbind (_cosine_similarity query_emb (embedding c)) (fun s => Ok (c, s)).

Definition rank_chunks (query_emb : list float) (index : list Chunk) (k : Z)
  : result (list Chunk) :=
  rbind (rmapM (score_chunk query_emb) index) (fun scored =>
  Ok ((slice_to k (list_sort_reverse snd scored)).*1)).

Definition _retrieve_relevant_chunks (question : string) (k : Z) : M (list Chunk) :=
  let* index := build_or_load_index false in
  let* query_emb := _embed_text question in
  lift (rank_chunks query_emb index k).

(** ** The answer composer *)

Record AnswerResult : Type := {
  answer : string;
  retrieved_chunks : list string;
  source_files : list string;
  model_name : string;
  temperature : float;
  usage_tokens : gmap string (option Z)
}.

(** The character of code point [n]. *)
Definition chr (n : nat) : string := String (ascii_of_nat n) "".

Definition nl : string := chr 10.

(** The literal [0.2]. *)
Definition temperature_0_2 : float := S754_finite false 7205759403792794 (-55).

Definition system_prompt : string :=
  "Eres un asistente virtual de tr" +:+ chr 225 +:+ "mites consulares del Ministerio de Relaciones Exteriores del Per" +:+ chr 250 +:+ ". "
  +:+ "Responde siempre en espa" +:+ chr 241 +:+ "ol claro y breve. "
  +:+ "Usa " +:+ chr 250 +:+ "nicamente la informaci" +:+ chr 243 +:+ "n proporcionada en el CONTEXTO para responder. "
  +:+ "Si la informaci" +:+ chr 243 +:+ "n no est" +:+ chr 225 +:+ " en el contexto o no es suficiente, indica amablemente "
  +:+ "que no puedes responder con certeza y sugiere contactar al consulado.".

Definition user_prompt (context_text question : string) : string :=
  "CONTEXTO:" +:+ nl +:+ context_text +:+ nl +:+ nl
  +:+ "PREGUNTA DEL CIUDADANO:" +:+ nl +:+ question +:+ nl +:+ nl
  +:+ "Responde de forma estructurada y f" +:+ chr 225 +:+ "cil de entender.".

Definition chat (req : ChatRequest) : M Completion :=
  fun w => (chat_completions_create w (requests w) req, next_request w).

(** [completion.choices[0].message.content.strip() if completion.choices
    else ""]; a [content] that is [None] has no [strip]. *)
Definition answer_text_of (completion : Completion) : result string :=
  match choices completion with
  | [] => Ok ""
  | choice :: _ =>
      match content (message choice) with
      | Some s => Ok (str_strip s)
      | None => Raise AttributeError
      end
  end.

Definition usage_of (completion : Completion) : gmap string (option Z) :=
  match usage completion with
  | Some u =>
      <["total_tokens" := total_tokens u]>
      (<["output_tokens" := completion_tokens u]>
      (<["input_tokens" := prompt_tokens u]> ∅))
  | None => ∅
  end.

Definition context_text (top_chunks : list Chunk) : string :=
  str_join (nl +:+ nl +:+ "---" +:+ nl +:+ nl) (text <$> top_chunks).

Definition chat_request (question : string) (top_chunks : list Chunk) : ChatRequest :=
  {| chat_model := CHAT_MODEL;
     chat_messages :=
       [("system", system_prompt);
        ("user", user_prompt (context_text top_chunks) question)];
     chat_temperature := temperature_0_2 |}.

Definition answer_question (question : string) (k : Z) : M AnswerResult :=
  let* top_chunks := _retrieve_relevant_chunks question k in
  let* completion := chat (chat_request question top_chunks) in
  let* answer_text := lift (answer_text_of completion) in
  ret {| answer := answer_text;
         retrieved_chunks := text <$> top_chunks;
         source_files := (fun _ => "knowledge.txt") <$> top_chunks;
         model_name := CHAT_MODEL;
         temperature := temperature_0_2;
         usage_tokens := usage_of completion |}.

(** ** The exceptions of the server *)

(** What the code of [backend/db_logging.py] and [backend/main.py] can
    raise: the exceptions of the retrieval pipeline, and the two that the
    log adds.  [sqlite3] raises [OperationalError] on a table that is not
    there and on a table that has run out of ids, and [OverflowError] on
    an [int] that does not fit its 64 bits; [int] raises [OverflowError]
    on an infinite float. *)
Inductive Exception : Type :=
  | PyError (e : exn)
  | OverflowError
  | OperationalError.

Inductive outcome (A : Type) : Type :=
  | Returns (a : A)
  | Raises (e : Exception).
Arguments Returns {A} a.
Arguments Raises {A} e.

(** ** The interaction log of backend/db_logging.py *)

(** [json.dumps(l, ensure_ascii=False)] on a list of strings, character by
    character.  In a string, the quote and the backslash get a backslash,
    the controls 8, 9, 10, 12 and 13 their letter, the other code points
    below 32 the form [\u00xy] with two lower-case hexadecimal digits,
    and every other character stands for itself.  (A backslash in a
    string of this file is one character.) *)
Definition hex_digit (n : N) : ascii :=
  match String.get (N.to_nat n) "0123456789abcdef" with
  | Some c => c
  | None => "0"%char
  end.

Definition escape_char (c : ascii) : string :=
  let n := N_of_ascii c in
  if (n =? 34)%N then "\" +:+ chr 34
  else if (n =? 92)%N then "\\"
  else if (n =? 8)%N then "\b"
  else if (n =? 9)%N then "\t"
  else if (n =? 10)%N then "\n"
  else if (n =? 12)%N then "\f"
  else if (n =? 13)%N then "\r"
  else if (n <? 32)%N
  then "\u00" +:+ String (hex_digit (n / 16)) (String (hex_digit (n mod 16)) "")
  else String c "".

Fixpoint escape_string (s : string) : string :=
  match s with
  | EmptyString => ""
  | String c s' => escape_char c +:+ escape_string s'
  end.

Definition encode_string (s : string) : string :=
  chr 34 +:+ escape_string s +:+ chr 34.

Definition dumps_strings (l : list string) : string :=
  "[" +:+ str_join ", " (encode_string <$> l) +:+ "]".

(** What [_to_json] is given: [None], a string, or a list, whose elements
    are strings in every call of the server. *)
Inductive Value : Type :=
  | VNone
  | VStr (s : string)
  | VList (l : list string).

Module db_logging.

(** A row of the table [interactions], with the types of its columns; a
    column that may be [NULL] is an [option]. *)
Record Row : Type := {
  id : Z;
  timestamp : string;
  session_id : option string;
  ip : option string;
  user_agent : option string;
  question : string;
  answer : string;
  latency_ms : option Z;
  retrieved_chunks : option string;
  source_files : option string;
  model_name : option string;
  temperature : option float;
  input_tokens : option Z;
  output_tokens : option Z;
  total_tokens : option Z
}.

(** The table: its rows in the order of their ids, and the largest id
    that it has ever given, which [AUTOINCREMENT] keeps in
    [sqlite_sequence]. *)
Record Table : Type := {
  rows : list Row;
  sqlite_sequence : Z
}.

(** The database file: the table [interactions], once it is created.
    The two indexes of [init_db] hold no data of their own and are left
    out, and so are the failures of the file system. *)
Definition Database : Type := option Table.

Definition DB (A : Type) : Type := Database -> outcome A * Database.

(** [CREATE TABLE IF NOT EXISTS] *)
Definition init_db : DB unit :=
  fun d =>
    match d with
    | Some t => (Returns tt, Some t)
    | None => (Returns tt, Some {| rows := []; sqlite_sequence := 0 |})
    end.

Definition _to_json (value : Value) : string :=
  match value with
  | VNone => "[]"
  | VStr s => s
  | VList l => dumps_strings l
  end.

Definition INT64_MIN : Z := -9223372036854775808.
Definition INT64_MAX : Z := 9223372036854775807.

(** An [int] bound to a statement. *)
Definition bind_int (v : option Z) : outcome (option Z) :=
  match v with
  | None => Returns None
  | Some n =>
      if (INT64_MIN <=? n) && (n <=? INT64_MAX) then Returns (Some n)
      else Raises OverflowError
  end.

(** A [float] in a [REAL] column: NaN is stored as [NULL], and a zero
    comes back as [0.0] whatever its sign. *)
Definition store_real (v : option float) : option float :=
  match v with
  | Some S754_nan => None
  | Some (S754_zero _) => Some (S754_zero false)
  | _ => v
  end.

(** The statement is compiled, which fails without the table; then the
    integers are bound; then the row gets the id after the largest one
    given so far, if there is one left.  A call that raises has not
    committed. *)
Definition save_interaction
    (timestamp : string) (session_id ip user_agent : option string)
    (question answer : string) (latency_ms : option Z)
    (retrieved_chunks source_files : Value) (model_name : option string)
    (temperature : option float)
    (input_tokens output_tokens total_tokens : option Z) : DB unit :=
  fun d =>
    match d with
    | None => (Raises OperationalError, d)
    | Some t =>
        match bind_int latency_ms, bind_int input_tokens,
              bind_int output_tokens, bind_int total_tokens with
        | Returns latency, Returns input, Returns output, Returns total =>
            if sqlite_sequence t <? INT64_MAX then
              let row :=
                {| id := sqlite_sequence t + 1;
                   timestamp := timestamp;
                   session_id := session_id;
                   ip := ip;
                   user_agent := user_agent;
                   question := question;
                   answer := answer;
                   latency_ms := latency;
                   retrieved_chunks := Some (_to_json retrieved_chunks);
                   source_files := Some (_to_json source_files);
                   model_name := model_name;
                   temperature := store_real temperature;
                   input_tokens := input;
                   output_tokens := output;
                   total_tokens := total |} in
              (Returns tt,
               Some {| rows := rows t ++ [row];
                       sqlite_sequence := sqlite_sequence t + 1 |})
            else (Raises OperationalError, d)
        | _, _, _, _ => (Raises OverflowError, d)
        end
    end.

(** [ORDER BY id DESC], with [LIMIT ?] when [limit] is not [None]: a
    negative limit is no limit. *)
Definition get_interactions (limit : option Z) : DB (list Row) :=
  fun d =>
    match d with
    | None => (Raises OperationalError, d)
    | Some t =>
        match limit with
        | None => (Returns (rev (rows t)), d)
        | Some n =>
            if (INT64_MIN <=? n) && (n <=? INT64_MAX) then
              (Returns (if n <? 0 then rev (rows t)
                        else take (Z.to_nat n) (rev (rows t))), d)
            else (Raises OverflowError, d)
        end
    end.

End db_logging.

(** ** The server of backend/main.py *)

Module main.

Record QuestionRequest : Type := {
  question : string;
  session_id : option string
}.

(** What the handler reads of the request: [request.client.host], if
    there is a client, and the header [user-agent], if it was sent. *)
Record Request : Type := {
  client_host : option string;
  user_agent : option string
}.

Inductive Response : Type :=
  | AnswerResponse (answer : string)
  | HTTPException (status_code : Z) (detail : string).

(** What the clocks show during one call of [ask]: the two readings of
    [time.perf_counter] and the text of
    [datetime.now(timezone.utc).isoformat()]. *)
Record Clock : Type := {
  start_time : float;
  end_time : float;
  utc_now : string
}.

(** The state of the server: the process state of the pipeline and the
    database of the log. *)
Record Server : Type := {
  rag : world;
  log : db_logging.Database
}.

(** The float [1000.0]. *)
Definition thousand : float := S754_finite false 8796093022208000 (-43).

(** [int(x)] on a float: towards zero. *)
Definition py_int (x : float) : outcome Z :=
  match x with
  | S754_nan => Raises (PyError ValueError)
  | S754_infinity _ => Raises OverflowError
  | S754_zero _ => Returns 0
  | S754_finite s m e =>
      let a := Z.shiftl (Z.pos m) e in
      Returns (if s then - a else a)
  end.

(** [int((end_time - start_time) * 1000)] *)
Definition latency_of (clock : Clock) : outcome Z :=
  py_int (Float.mul (SFsub Float.prec Float.emax (end_time clock) (start_time clock))
                    thousand).

Definition detail_400 : string :=
  "La pregunta no puede estar vac" +:+ chr 237 +:+ "a.".

Definition detail_500 : string :=
  "Ocurri" +:+ chr 243 +:+ " un error al procesar la consulta en el asistente.".

(** [startup_event]: each of the two steps is tried, and what it raises is
    printed and dropped. *)
Definition startup_event (s : Server) : Server :=
  {| rag := snd (build_or_load_index false (rag s));
     log := snd (db_logging.init_db (log s)) |}.

(** The body of the [try] of [ask].  [answer_question] returns a [dict],
    so the branch for a result that is a [str] is never taken. *)
Definition ask_body (clock : Clock) (req : QuestionRequest) (request : Request)
  : Server -> outcome string * Server :=
  fun s =>
    match answer_question (question req) 3 (rag s) with
    | (Raise e, w) => (Raises (PyError e), {| rag := w; log := log s |})
    | (Ok result, w) =>
        let usage := usage_tokens result in
        match latency_of clock with
        | Raises e => (Raises e, {| rag := w; log := log s |})
        | Returns latency_ms =>
            match db_logging.save_interaction
                    (utc_now clock) (session_id req)
                    (client_host request) (user_agent request)
                    (question req) (answer result) (Some latency_ms)
                    (VList (retrieved_chunks result))
                    (VList (source_files result))
                    (Some (model_name result)) (Some (temperature result))
                    (mjoin (usage !! "input_tokens"))
                    (mjoin (usage !! "output_tokens"))
                    (mjoin (usage !! "total_tokens"))
                    (log s) with
            | (Raises e, d) => (Raises e, {| rag := w; log := d |})
            | (Returns _, d) => (Returns (answer result), {| rag := w; log := d |})
            end
        end
    end.

Definition ask (clock : Clock) (req : QuestionRequest) (request : Request)
  : Server -> Response * Server :=
  fun s =>
    if is_empty (str_strip (question req))
    then (HTTPException 400 detail_400, s)
    else
      match ask_body clock req request s with
      | (Returns answer_text, s') => (AnswerResponse answer_text, s')
      | (Raises _, s') => (HTTPException 500 detail_500, s')
      end.

(** [s.replace(old, new)] for an [old] of one character. *)
Fixpoint replace_char (old : ascii) (new s : string) : string :=
  match s with
  | EmptyString => ""
  | String c s' =>
      (if Ascii.eqb c old then new else String c "") +:+ replace_char old new s'
  end.

Definition _html_escape (text : string) : string :=
  replace_char ">" "&gt;" (replace_char "<" "&lt;" (replace_char "&" "&amp;" text)).

End main.

(** ** Predicates of the statements *)

(** What the rounding of [SpecFloat] can return for the sign [sx]: the
    exponent is never below [emin]. *)
Definition rounded (sx : bool) (r : float) : Prop :=
  match r with
  | S754_finite s m e => s = sx /\ emin Float.prec Float.emax <= e
  | S754_infinity s => s = sx
  | S754_zero s => s = sx
  | S754_nan => True
  end.

(** A number of sign [sx] and of magnitude at least [2^L]. *)
Definition at_least (L : Z) (sx : bool) (r : float) : Prop :=
  match r with
  | S754_finite s m e => s = sx /\ L <= Z.log2 (Z.pos m) + e
  | S754_infinity s => s = sx
  | _ => False
  end.

(** Squares and their sums: never negative. *)
Definition nonneg (x : float) : Prop :=
  match x with
  | S754_finite s m e => s = false /\ emin Float.prec Float.emax <= e
  | S754_infinity s => s = false
  | _ => True
  end.

(** What [math.sqrt] returns on a sum of squares. *)
Definition norm_value (r : float) : Prop :=
  match r with
  | S754_finite s m e => s = false /\ -537 <= Z.log2 (Z.pos m) + e
  | S754_infinity s => s = false
  | _ => True
  end.

Fixpoint no_space (s : string) : bool :=
  match s with
  | EmptyString => true
  | String c s' => negb (isspace c) && no_space s'
  end.

(** A word of [split]: not empty, no whitespace. *)
Definition is_word (w : string) : bool := negb (is_empty w) && no_space w.

(** The seeded buffer stays below [overlap], at every chunk that the
    chunker closes on [text]. *)
Definition seed_below_overlap (text : string) (max_chars overlap : Z) : Prop :=
  forall pre word post,
    str_split text = pre ++ word :: post ->
    closes max_chars (chunker_run max_chars overlap pre) word = true ->
    overlap_len (overlap_seed overlap (current (chunker_run max_chars overlap pre)))
    < overlap.

(** No word of a chunk is a word of the next chunk. *)
Definition no_shared_word (l : list string) : Prop :=
  forall (i : nat) c1 c2 w,
    l !! i = Some c1 -> l !! S i = Some c2 ->
    w ∈ str_split c1 -> w ∉ str_split c2.

(** The two worlds differ at most in the number of requests sent. *)
Definition same_store (w w' : world) : Prop :=
  _index_cache w' = _index_cache w /\
  index_file w' = index_file w /\
  knowledge_file w' = knowledge_file w /\
  embeddings_create w' = embeddings_create w /\
  chat_completions_create w' = chat_completions_create w.

(** The similarity of a chunk to the query; [_cosine_similarity] never
    raises, see [cosine_similarity_value]. *)
Definition similarity (q : list float) (c : Chunk) : float :=
  match _cosine_similarity q (embedding c) with
  | Ok s => s
  | Raise _ => S754_nan
  end.

(** [x] comes before [y] in a descending order of the keys. *)
Definition desc {A : Type} (key : A -> float) (x y : A) : Prop :=
  Float.leb (key y) (key x) = true.

Definition non_increasing (l : list float) : Prop :=
  forall (i j : nat) x y,
    (i < j)%nat -> l !! i = Some x -> l !! j = Some y -> Float.leb y x = true.

(** Every chunk has its position in the index as [id]: what the build
    assigns, and what a file written by the build gives back. *)
Definition ids_are_positions (index : list Chunk) : Prop :=
  id <$> index = Z.of_nat <$> seq 0 (length index).

(** The cached index and the index in the file, if they are there, number
    their chunks by position. *)
Definition store_numbered (w : world) : Prop :=
  (forall index, _index_cache w = Some index -> ids_are_positions index) /\
  (forall t index,
     index_file w = Some t ->
     rbind (json_loads t) load_chunks = Ok index -> ids_are_positions index).

(** No similarity to the query is NaN. *)
Definition no_nan_scores (q : list float) (index : list Chunk) : bool :=
  forallb (fun c => negb (Float.is_nan (similarity q c))) index.

(** Retrieval returns chunks in non-increasing order of similarity. *)
Definition retrieval_sorted (w : world) (question : string) (k : Z) : Prop :=
  forall index w1 q w2 top,
    build_or_load_index false w = (Ok index, w1) ->
    _embed_text question w1 = (Ok q, w2) ->
    _retrieve_relevant_chunks question k w = (Ok top, w2) ->
    non_increasing (similarity q <$> top).

(** Retrieval returns chunks of equal similarity in ascending order of
    [id]. *)
Definition ties_by_id (w : world) (question : string) (k : Z) : Prop :=
  forall index w1 q w2 top,
    build_or_load_index false w = (Ok index, w1) ->
    _embed_text question w1 = (Ok q, w2) ->
    _retrieve_relevant_chunks question k w = (Ok top, w2) ->
    forall (i j : nat) c1 c2,
      (i < j)%nat -> top !! i = Some c1 -> top !! j = Some c2 ->
      Float.eqb (similarity q c1) (similarity q c2) = true ->
      id c1 < id c2.


Fixpoint all_space (s : string) : bool :=
  match s with
  | EmptyString => true
  | String c s' => isspace c && all_space s'
  end.

Definition starts_with_space (s : string) : bool :=
  match s with
  | EmptyString => false
  | String c _ => isspace c
  end.

Fixpoint ends_with_space (s : string) : bool :=
  match s with
  | EmptyString => false
  | String c EmptyString => isspace c
  | String _ s' => ends_with_space s'
  end.

(** An index of three chunks and a query whose similarities are -1, NaN
    and 1, all vectors being finite: the NaN is an overflow of the dot
    product and of the norm. *)
Definition nan_index : list Chunk :=
  [ {| id := 0; text := "a"; embedding := [Float.neg_pow2 0] |};
    {| id := 1; text := "b"; embedding := [Float.pow2 600] |};
    {| id := 2; text := "c"; embedding := [Float.pow2 0] |} ].

Definition nan_world : world :=
  {| _index_cache := Some nan_index;
     knowledge_file := None;
     index_file := None;
     embeddings_create := fun _ _ _ => Ok [[Float.pow2 500]];
     chat_completions_create := fun _ _ => Raise (ProviderError 0);
     requests := 0 |}.

(** An index of seven chunks, numbered by position, and a query whose
    similarities are -1, -1, NaN, -1, -1, -1 and 0. *)
Definition tie_index : list Chunk :=
  [ {| id := 0; text := "a"; embedding := [Float.neg_pow2 0] |};
    {| id := 1; text := "b"; embedding := [Float.neg_pow2 0] |};
    {| id := 2; text := "c"; embedding := [Float.pow2 600] |};
    {| id := 3; text := "d"; embedding := [Float.neg_pow2 0] |};
    {| id := 4; text := "e"; embedding := [Float.neg_pow2 0] |};
    {| id := 5; text := "f"; embedding := [Float.neg_pow2 0] |};
    {| id := 6; text := "g"; embedding := [Float.zero] |} ].

Definition tie_world : world :=
  {| _index_cache := Some tie_index;
     knowledge_file := None;
     index_file := None;
     embeddings_create := fun _ _ _ => Ok [[Float.pow2 500]];
     chat_completions_create := fun _ _ => Raise (ProviderError 0);
     requests := 0 |}.

(** [c] is a chunk cut out of the words [ws]: some words of [ws] that
    follow each other, joined by single spaces. *)
Definition chunk_of_words (ws : list string) (c : string) : Prop :=
  str_split c <> [] /\
  c = str_join " " (str_split c) /\
  exists pre post, ws = pre ++ str_split c ++ post.

(** The chunk [c2] starts with the last words of the chunk [c1]: with all
    of them, or with enough of them to reach [overlap], each counted with
    one space. *)
Definition overlaps (overlap : Z) (c1 c2 : string) : Prop :=
  exists seed rest,
    seed <> [] /\ rest <> [] /\
    seed `suffix_of` str_split c1 /\
    str_split c2 = seed ++ rest /\
    (seed = str_split c1 \/ overlap <= overlap_len seed).

(** [part] occurs in [s]. *)
Definition occurs_in (part s : string) : Prop :=
  exists before after, s = before +:+ part +:+ after.

(** The characters of a string, one after the other, each replaced by
    what [f] gives for it. *)
Fixpoint map_chars (f : ascii -> string) (s : string) : string :=
  match s with
  | EmptyString => ""
  | String c s' => f c +:+ map_chars f s'
  end.

(** What [_html_escape] writes for one character. *)
Definition html_entity (c : ascii) : string :=
  if Ascii.eqb c "&" then "&amp;"
  else if Ascii.eqb c "<" then "&lt;"
  else if Ascii.eqb c ">" then "&gt;"
  else String c "".

(** A character that [_html_escape] rewrites. *)
Definition is_markup (c : ascii) : bool :=
  Ascii.eqb c "&" || Ascii.eqb c "<" || Ascii.eqb c ">".

Fixpoint has_markup (s : string) : bool :=
  match s with
  | EmptyString => false
  | String c s' => is_markup c || has_markup s'
  end.

(** The character that a JSON string starts with, read back from its
    escaped form, and what follows it. *)
Definition hex_value (c : ascii) : option N :=
  let n := N_of_ascii c in
  if (48 <=? n)%N && (n <=? 57)%N then Some (n - 48)%N
  else if (97 <=? n)%N && (n <=? 102)%N then Some (n - 87)%N
  else None.

Definition unescape_head (s : string) : option (ascii * string) :=
  match s with
  | EmptyString => None
  | String c rest =>
      if Ascii.eqb c "\" then
        match rest with
        | String "b" rest' => Some (ascii_of_nat 8, rest')
        | String "t" rest' => Some (ascii_of_nat 9, rest')
        | String "n" rest' => Some (ascii_of_nat 10, rest')
        | String "f" rest' => Some (ascii_of_nat 12, rest')
        | String "r" rest' => Some (ascii_of_nat 13, rest')
        | String "u" (String "0" (String "0" (String h (String l rest')))) =>
            match hex_value h, hex_value l with
            | Some a, Some b => Some (ascii_of_N (16 * a + b), rest')
            | _, _ => None
            end
        | String d rest' => Some (d, rest')
        | EmptyString => None
        end
      else Some (c, rest)
  end.

(** The rows of the table are in the order of their ids, and no id is
    above the largest one given. *)
Definition table_ok (t : db_logging.Table) : Prop :=
  StronglySorted Z.lt (db_logging.id <$> db_logging.rows t) /\
  Forall (fun r => db_logging.id r <= db_logging.sqlite_sequence t)
         (db_logging.rows t).

Definition db_ok (d : db_logging.Database) : Prop :=
  match d with
  | Some t => table_ok t
  | None => True
  end.

Definition in_int64 (n : Z) : bool :=
  (db_logging.INT64_MIN <=? n) && (n <=? db_logging.INT64_MAX).

(** ** Worlds of the examples *)

Definition one : float := Float.pow2 0.

(** Three chunks; the first and the third have the same vector. *)
Definition demo_index : list Chunk :=
  [ {| id := 0; text := "pasaporte"; embedding := [one; Float.zero] |};
    {| id := 1; text := "horario"; embedding := [Float.zero; one] |};
    {| id := 2; text := "cita"; embedding := [one; Float.zero] |} ].

Definition demo_completion : Completion :=
  {| choices := [ {| message := {| content := Some "  De 9 a 5. " |} |} ];
     usage := Some {| prompt_tokens := Some 40;
                      completion_tokens := Some 6;
                      total_tokens := Some 46 |} |}.

(** A process with the index in its cache. *)
Definition demo_world : world :=
  {| _index_cache := Some demo_index;
     knowledge_file := None;
     index_file := None;
     embeddings_create := fun _ _ _ => Ok [[one; Float.zero]];
     chat_completions_create := fun _ _ => Ok demo_completion;
     requests := 0 |}.

(** A knowledge text of 300 words, which makes four chunks. *)
Definition long_text : string := str_join " " (replicate 300 "palabra").

(** A fresh process whose provider answers the first request and refuses
    the following ones. *)
Definition failing_world : world :=
  {| _index_cache := None;
     knowledge_file := Some long_text;
     index_file := None;
     embeddings_create :=
       fun n _ _ => match n with O => Ok [[one]] | S _ => Raise (ProviderError 429) end;
     chat_completions_create := fun _ _ => Raise (ProviderError 429);
     requests := 0 |}.

(** A fresh process without the knowledge file. *)
Definition empty_world : world :=
  {| _index_cache := None;
     knowledge_file := None;
     index_file := None;
     embeddings_create := fun _ _ _ => Ok [[one]];
     chat_completions_create := fun _ _ => Ok demo_completion;
     requests := 0 |}.

(** A fresh process with a short knowledge file, and the process after
    the build. *)
Definition knowledge_world : world :=
  {| _index_cache := None;
     knowledge_file := Some "hola que tal";
     index_file := None;
     embeddings_create := fun _ _ _ => Ok [[one]];
     chat_completions_create := fun _ _ => Ok demo_completion;
     requests := 0 |}.

Definition built_world : world :=
  snd (build_or_load_index true knowledge_world).

(** A fresh process whose index file is not JSON, beside a knowledge file
    that is there. *)
Definition corrupt_world : world :=
  {| _index_cache := None;
     knowledge_file := Some "hola que tal";
     index_file := Some Malformed;
     embeddings_create := fun _ _ _ => Ok [[one]];
     chat_completions_create := fun _ _ => Ok demo_completion;
     requests := 0 |}.

(** A process with the index in its cache, whose provider refuses every
    request. *)
Definition offline_world : world :=
  {| _index_cache := Some demo_index;
     knowledge_file := None;
     index_file := None;
     embeddings_create := fun _ _ _ => Raise (ProviderError 503);
     chat_completions_create := fun _ _ => Raise (ProviderError 503);
     requests := 0 |}.

(** A process with the index in its cache, whose chat answers without a
    text. *)
Definition silent_completion : Completion :=
  {| choices := [ {| message := {| content := None |} |} ]; usage := None |}.

Definition silent_world : world :=
  {| _index_cache := Some demo_index;
     knowledge_file := None;
     index_file := None;
     embeddings_create := fun _ _ _ => Ok [[one; Float.zero]];
     chat_completions_create := fun _ _ => Ok silent_completion;
     requests := 0 |}.


(** A server with the index in its cache and an empty log; a call of
    [ask] with its clock and its request. *)
Definition demo_server : main.Server :=
  {| main.rag := demo_world;
     main.log := Some {| db_logging.rows := []; db_logging.sqlite_sequence := 0 |} |}.

(** A table of three rows; the row of id 3 has been deleted, or was
    never written. *)
Definition demo_row (n : Z) (asked : string) : db_logging.Row :=
  {| db_logging.id := n;
     db_logging.timestamp := "2025-01-01T00:00:00+00:00";
     db_logging.session_id := None;
     db_logging.ip := None;
     db_logging.user_agent := None;
     db_logging.question := asked;
     db_logging.answer := "De 9 a 5.";
     db_logging.latency_ms := Some 12;
     db_logging.retrieved_chunks := Some "[]";
     db_logging.source_files := Some "[]";
     db_logging.model_name := Some CHAT_MODEL;
     db_logging.temperature := Some temperature_0_2;
     db_logging.input_tokens := None;
     db_logging.output_tokens := None;
     db_logging.total_tokens := None |}.

Definition demo_table : db_logging.Table :=
  {| db_logging.rows := [demo_row 1 "uno"; demo_row 2 "dos"; demo_row 4 "cuatro"];
     db_logging.sqlite_sequence := 4 |}.

Definition demo_clock : main.Clock :=
  {| main.start_time := Float.pow2 0;
     main.end_time := Float.pow2 1;
     main.utc_now := "2025-01-01T00:00:00+00:00" |}.

Definition demo_question : main.QuestionRequest :=
  {| main.question := "horario"; main.session_id := Some "s1" |}.

Definition demo_request : main.Request :=
  {| main.client_host := Some "127.0.0.1"; main.user_agent := None |}.

(** * Properties *)

(** ** Rounding and magnitudes *)

Section Rounding.

Local Abbreviation prec := Float.prec.
Local Abbreviation emax := Float.emax.

Lemma digits2_pos_log2 (p : positive) :
  Z.pos (digits2_pos p) = Z.log2 (Z.pos p) + 1.
Proof.
  assert (H : forall q, digits2_pos q = Pos.size q).
  { induction q as [q IH|q IH|]; simpl; congruence. }
  destruct p as [p|p|]; simpl; rewrite ?H; lia.
Qed.

Lemma shr_1_m (mrs : shr_record) :
  0 <= shr_m mrs -> shr_m (shr_1 mrs) = Z.div2 (shr_m mrs).
Proof.
  destruct mrs as [m r s]; simpl.
  destruct m as [|[p|p|]|p]; simpl; intros H; try reflexivity; lia.
Qed.

Lemma iter_shr_1_m (p : positive) (mrs : shr_record) :
  0 <= shr_m mrs ->
  shr_m (SpecFloat.iter_pos shr_1 p mrs) = Z.shiftr (shr_m mrs) (Z.pos p).
Proof.
  revert mrs.
  assert (Hnn : forall a n, 0 <= a -> 0 <= Z.shiftr a n)
    by (intros; now apply Z.shiftr_nonneg).
  induction p as [p IH|p IH|]; intros mrs Hm; simpl.
  - assert (H1 : 0 <= shr_m (shr_1 mrs))
      by (rewrite shr_1_m, Z.div2_spec by assumption; auto).
    rewrite IH by (rewrite IH by assumption; auto).
    rewrite IH, shr_1_m, Z.div2_spec by assumption.
    rewrite !Z.shiftr_shiftr by lia. f_equal; lia.
  - rewrite IH by (rewrite IH by assumption; auto).
    rewrite IH by assumption.
    rewrite Z.shiftr_shiftr by lia. f_equal; lia.
  - rewrite shr_1_m, Z.div2_spec by assumption. reflexivity.
Qed.

Lemma shr_record_of_loc_m (m : Z) (l : location) :
  shr_m (shr_record_of_loc m l) = m.
Proof. destruct l as [|[]]; reflexivity. Qed.

(** The first component of [shr_fexp] keeps a positive mantissa positive
    and the magnitude [log2 m + e] unchanged, as long as the value is not
    below the smallest subnormal. *)
Lemma shr_fexp_magnitude (m e : Z) (l : location) :
  0 < m -> emin prec emax <= Z.log2 m + e ->
  0 < shr_m (fst (shr_fexp prec emax m e l)) /\
  Z.log2 (shr_m (fst (shr_fexp prec emax m e l))) + snd (shr_fexp prec emax m e l)
  = Z.log2 m + e.
Proof.
  intros Hm Hlow. unfold shr_fexp, shr.
  assert (Hd : Zdigits2 m = Z.log2 m + 1).
  { destruct m as [|p|p]; try lia. apply digits2_pos_log2. }
  rewrite Hd.
  pose proof (Z.log2_nonneg m) as Hl.
  destruct (fexp prec emax (Z.log2 m + 1 + e) - e) as [|n|n] eqn:En; simpl;
    rewrite ?shr_record_of_loc_m; try (split; [assumption | reflexivity]).
  rewrite iter_shr_1_m by (rewrite shr_record_of_loc_m; lia).
  rewrite shr_record_of_loc_m.
  assert (Hn : Z.pos n <= Z.log2 m).
  { unfold fexp, emin, Float.prec, Float.emax in *. lia. }
  split.
  - assert (H0 : Z.shiftr m (Z.pos n) <> 0).
    { rewrite Z.shiftr_eq_0_iff. lia. }
    pose proof (Z.shiftr_nonneg m (Z.pos n)). lia.
  - rewrite Z.log2_shiftr by assumption. lia.
Qed.

Lemma shr_fexp_exponent (m e : Z) (l : location) :
  emin prec emax <= snd (shr_fexp prec emax m e l).
Proof.
  unfold shr_fexp, shr.
  destruct (fexp prec emax (Zdigits2 m + e) - e) as [|n|n] eqn:En; simpl;
    unfold fexp in *; lia.
Qed.

Lemma round_nearest_even_bounds (m : Z) (l : location) :
  m <= round_nearest_even m l <= m + 1.
Proof.
  destruct l as [|[]]; simpl; try lia. destruct (Z.even m); lia.
Qed.

Lemma binary_round_aux_rounded (sx : bool) (mx ex : Z) (lx : location) :
  rounded sx (binary_round_aux prec emax sx mx ex lx).
Proof.
  unfold binary_round_aux.
  destruct (shr_fexp prec emax mx ex lx) as [mrs' e'] eqn:E1.
  pose proof (shr_fexp_exponent
    (round_nearest_even (shr_m mrs') (loc_of_shr_record mrs')) e' loc_Exact) as H2.
  destruct (shr_fexp prec emax _ e' loc_Exact) as [mrs'' e''] eqn:E2.
  simpl in H2.
  destruct (shr_m mrs'') as [|m|m]; simpl; auto.
  destruct (e'' <=? emax - prec); simpl; auto.
Qed.

Lemma binary_round_aux_at_least (L : Z) (sx : bool) (mx ex : Z) (lx : location) :
  0 < mx -> emin prec emax <= L -> L <= Z.log2 mx + ex ->
  at_least L sx (binary_round_aux prec emax sx mx ex lx).
Proof.
  intros Hm HL Hlow. unfold binary_round_aux.
  destruct (shr_fexp_magnitude mx ex lx Hm) as [P1 M1]; [lia|].
  destruct (shr_fexp prec emax mx ex lx) as [mrs' e']. simpl in P1, M1.
  set (m2 := round_nearest_even (shr_m mrs') (loc_of_shr_record mrs')).
  pose proof (round_nearest_even_bounds (shr_m mrs') (loc_of_shr_record mrs')) as Hr.
  fold m2 in Hr. clearbody m2.
  assert (Hlog : Z.log2 (shr_m mrs') <= Z.log2 m2) by (apply Z.log2_le_mono; lia).
  destruct (shr_fexp_magnitude m2 e' loc_Exact) as [P2 M2]; [lia|lia|].
  destruct (shr_fexp prec emax m2 e' loc_Exact) as [mrs'' e''].
  simpl in P2, M2. revert P2 M2.
  destruct (shr_m mrs'') as [|m|m]; try lia.
  destruct (e'' <=? emax - prec); simpl; [|reflexivity].
  split; [reflexivity | lia].
Qed.

Lemma rounded_nonneg (r : float) : rounded false r -> nonneg r.
Proof. destruct r; simpl; auto. Qed.

Lemma mul_self_nonneg (x : float) : nonneg (Float.mul x x).
Proof.
  destruct x as [s|s| |s m e]; simpl; auto.
  - now destruct s.
  - apply rounded_nonneg.
    replace false with (xorb s s) by (now destruct s).
    apply binary_round_aux_rounded.
Qed.

Lemma binary_round_nonneg (m : positive) (e : Z) :
  nonneg (binary_round prec emax false m e).
Proof.
  unfold binary_round.
  destruct (shl_align m e _) as [mz ez].
  apply rounded_nonneg, binary_round_aux_rounded.
Qed.

Lemma add_nonneg (x y : float) :
  nonneg x -> nonneg y -> nonneg (Float.add x y).
Proof.
  destruct x as [sx|sx| |sx mx ex], y as [sy|sy| |sy my ey];
    simpl; intros Hx Hy; auto.
  - now destruct sx, sy.
  - subst. reflexivity.
  - destruct Hx as [-> _], Hy as [-> _]. simpl.
    apply binary_round_nonneg.
Qed.

Lemma py_sum_nonneg (l : list float) :
  Forall nonneg l -> nonneg (py_sum l).
Proof.
  unfold py_sum. generalize Float.zero, (I : nonneg Float.zero).
  induction l as [|x l IH]; intros acc Hacc Hl; simpl; [assumption|].
  inversion Hl; subst. apply IH; [apply add_nonneg|]; assumption.
Qed.

Lemma squares_nonneg (a : list float) :
  Forall nonneg (map (fun x => Float.mul x x) a).
Proof. induction a; simpl; constructor; auto using mul_self_nonneg. Qed.

(** The integer square root keeps half of the binary logarithm. *)
Lemma log2_sqrt_half (a : Z) : 0 < a -> Z.log2 a / 2 <= Z.log2 (Z.sqrt a).
Proof.
  intros Ha. set (h := Z.log2 a / 2).
  pose proof (Z.log2_nonneg a) as Hl.
  assert (Hh : 0 <= h) by (apply Z.div_pos; lia).
  assert (H2h : 2 * h <= Z.log2 a) by (apply Z.mul_div_le; lia).
  assert (Hsq : 2 ^ h * 2 ^ h <= a).
  { rewrite <- Z.pow_add_r by assumption.
    transitivity (2 ^ Z.log2 a).
    - apply Z.pow_le_mono_r; lia.
    - apply Z.log2_spec; assumption. }
  apply Z.sqrt_le_square in Hsq; [|lia|apply Z.pow_nonneg; lia].
  rewrite <- (Z.log2_pow2 h) by assumption.
  apply Z.log2_le_mono; assumption.
Qed.

Lemma sqrt_core_magnitude (m : positive) (e : Z) :
  emin prec emax <= e ->
  let '(q, e', l) := SFsqrt_core_binary prec emax (Z.pos m) e in
  0 < q /\ -537 <= Z.log2 q + e'.
Proof.
  intros He. unfold SFsqrt_core_binary.
  change (Zdigits2 (Z.pos m)) with (Z.pos (digits2_pos m)).
  rewrite digits2_pos_log2.
  set (e' := Z.min (fexp prec emax (Z.div2 (Z.log2 (Z.pos m) + 1 + e + 1))) (Z.div2 e)).
  pose proof (Z.log2_nonneg (Z.pos m)) as Hl.
  assert (He' : 2 * e' <= e).
  { assert (e' <= Z.div2 e) by apply Z.le_min_r.
    rewrite Z.div2_div in *. pose proof (Z.mul_div_le e 2). lia. }
  set (s := e - 2 * e').
  set (m' := match s with Z.pos _ => Z.shiftl (Z.pos m) s | 0 => Z.pos m | Z.neg _ => 0 end).
  assert (Hm' : m' = Z.pos m * 2 ^ s).
  { unfold m'. destruct s as [|p|p] eqn:Es; try lia.
    rewrite Z.shiftl_mul_pow2; lia. }
  assert (Hpos : 0 < m').
  { rewrite Hm'. apply Z.mul_pos_pos; [lia|]. apply Z.pow_pos_nonneg; lia. }
  assert (Hlog : Z.log2 m' = s + Z.log2 (Z.pos m)).
  { rewrite Hm'. apply Z.log2_mul_pow2; lia. }
  pose proof (Z.sqrtrem_sqrt m') as Hq.
  destruct (Z.sqrtrem m') as [q r]. simpl in Hq. subst q.
  pose proof (log2_sqrt_half m' Hpos) as Hhalf.
  split.
  - apply Z.sqrt_pos; assumption.
  - rewrite Hlog in Hhalf. unfold s in Hhalf.
    replace (e - 2 * e' + Z.log2 (Z.pos m)) with (Z.log2 (Z.pos m) + e + (- e') * 2)
      in Hhalf by lia.
    rewrite Z.div_add in Hhalf by lia.
    assert (-537 <= (Z.log2 (Z.pos m) + e) / 2).
    { apply Z.div_le_lower_bound; unfold emin, Float.prec, Float.emax in He; lia. }
    lia.
Qed.

Lemma math_sqrt_nonneg (x : float) :
  nonneg x -> exists r, math_sqrt x = Ok r /\ norm_value r.
Proof.
  unfold math_sqrt, Float.sqrt.
  destruct x as [s|s| |s m e]; simpl; intros Hx;
    [| subst; simpl | |];
    try (eexists; split; [reflexivity | exact I || reflexivity]).
  destruct Hx as [-> He]; simpl.
  pose proof (sqrt_core_magnitude m e He) as Hcore.
  destruct (SFsqrt_core_binary prec emax (Z.pos m) e) as [[q e'] l].
  destruct Hcore as [Hq Hmag].
  pose proof (binary_round_aux_at_least (-537) false q e' l Hq) as Hr.
  destruct (binary_round_aux prec emax false q e' l) as [s|s| |s m2 e2];
    simpl in *; try (exfalso; apply Hr; unfold emin, Float.prec, Float.emax; lia);
    eexists; (split; [reflexivity|]); simpl; apply Hr;
    unfold emin, Float.prec, Float.emax; lia.
Qed.

Lemma norm_returns (a : list float) :
  exists r, norm a = Ok r /\ norm_value r.
Proof. apply math_sqrt_nonneg, py_sum_nonneg, squares_nonneg. Qed.

Lemma eqb_zero (r : float) : Float.eqb r Float.zero = Float.is_zero r.
Proof. destruct r as [s|s| |s m e]; try reflexivity; now destruct s. Qed.

(** The product of two non-zero norms is not zero: both are at least
    [2^-537], so the product is at least the smallest subnormal. *)
Lemma mul_norms_nonzero (x y : float) :
  norm_value x -> norm_value y ->
  Float.is_zero x = false -> Float.is_zero y = false ->
  Float.is_zero (Float.mul x y) = false.
Proof.
  destruct x as [sx|sx| |sx mx ex], y as [sy|sy| |sy my ey];
    cbn [norm_value Float.is_zero]; intros Hx Hy Zx Zy;
    try discriminate; try reflexivity.
  destruct Hx as [-> Hx], Hy as [-> Hy].
  unfold Float.mul; cbn [SFmul xorb].
  assert (Hlog : Z.log2 (Z.pos mx) + Z.log2 (Z.pos my) <= Z.log2 (Z.pos (mx * my))).
  { rewrite Pos2Z.inj_mul. apply Z.log2_mul_below; lia. }
  pose proof (binary_round_aux_at_least (emin prec emax) false
                (Z.pos (mx * my)) (ex + ey) loc_Exact) as Hr.
  destruct (binary_round_aux prec emax false (Z.pos (mx * my)) (ex + ey) loc_Exact);
    try reflexivity.
  exfalso. apply Hr; unfold emin, Float.prec, Float.emax; lia.
Qed.

End Rounding.

(** The value of [_cosine_similarity], given the two norms. *)
Lemma cosine_similarity_value (a b : list float) :
  exists norm_a norm_b,
    norm a = Ok norm_a /\ norm b = Ok norm_b /\
    _cosine_similarity a b =
      Ok (if Float.is_zero norm_a || Float.is_zero norm_b then Float.zero
          else Float.div (py_sum (zip_mul a b)) (Float.mul norm_a norm_b)).
Proof.
  destruct (norm_returns a) as (na & Ha & Va).
  destruct (norm_returns b) as (nb & Hb & Vb).
  exists na, nb. split; [exact Ha|]. split; [exact Hb|].
  unfold _cosine_similarity. rewrite Ha, Hb. cbv beta iota zeta delta [rbind].
  rewrite !eqb_zero.
  destruct (Float.is_zero na) eqn:Za; [reflexivity|].
  destruct (Float.is_zero nb) eqn:Zb; [reflexivity|].
  cbn [orb]. unfold py_truediv.
  now rewrite eqb_zero, (mul_norms_nonzero na nb Va Vb Za Zb).
Qed.

Lemma cosine_similarity_is_similarity (q : list float) (c : Chunk) :
  _cosine_similarity q (embedding c) = Ok (similarity q c).
Proof.
  unfold similarity.
  destruct (cosine_similarity_value q (embedding c)) as (na & nb & _ & _ & ->).
  reflexivity.
Qed.


Example cosine_same_direction :
  _cosine_similarity [Float.pow2 0; Float.zero] [Float.pow2 1; Float.zero]
  = Ok (Float.pow2 0).
Proof. vm_compute. reflexivity. Qed.

Example cosine_opposite :
  _cosine_similarity [Float.pow2 0] [Float.neg_pow2 3] = Ok (Float.neg_pow2 0).
Proof. vm_compute. reflexivity. Qed.

Example cosine_zero_vector :
  _cosine_similarity [Float.zero; Float.zero] [Float.pow2 0; Float.pow2 0]
  = Ok Float.zero.
Proof. vm_compute. reflexivity. Qed.

Example cosine_empty : _cosine_similarity [] [] = Ok Float.zero.
Proof. vm_compute. reflexivity. Qed.

(** The squares of [2^-600] underflow to zero: the norm is zero. *)
Example cosine_underflow :
  _cosine_similarity [Float.pow2 (-600)] [Float.pow2 0] = Ok Float.zero.
Proof. vm_compute. reflexivity. Qed.

(** The smallest norms that are not zero: their product is the smallest
    subnormal, and the division goes through. *)
Example cosine_smallest_norms :
  _cosine_similarity [Float.pow2 (-537)] [Float.pow2 (-537)] = Ok (Float.pow2 0).
Proof. vm_compute. reflexivity. Qed.

(** The dot product and one norm overflow: infinity over infinity. *)
Example cosine_overflow :
  _cosine_similarity [Float.pow2 500] [Float.pow2 600] = Ok S754_nan.
Proof. vm_compute. reflexivity. Qed.

(** ** The order of the floats *)

Section Order.

Ltac compare_cases :=
  repeat match goal with
    | H : context [Z.compare ?a ?b] |- _ => destruct (Z.compare_spec a b)
    | |- context [Z.compare ?a ?b] => destruct (Z.compare_spec a b)
    | H : context [Pos.compare_cont Eq ?a ?b] |- _ =>
        change (Pos.compare_cont Eq a b) with (Pos.compare a b) in *;
        destruct (Pos.compare_spec a b)
    | |- context [Pos.compare_cont Eq ?a ?b] =>
        change (Pos.compare_cont Eq a b) with (Pos.compare a b) in *;
        destruct (Pos.compare_spec a b)
    end;
  cbn in *; subst; try discriminate; try reflexivity; try lia.

Ltac by_cases x :=
  destruct x as [[]|[]| |[] ? ?]; cbn in *; try discriminate; try reflexivity.

Lemma leb_trans (x y z : float) :
  Float.leb x y = true -> Float.leb y z = true -> Float.leb x z = true.
Proof.
  unfold Float.leb, SFleb, SFcompare.
  by_cases x; by_cases y; by_cases z; intros H1 H2; compare_cases.
Qed.

Lemma ltb_false_leb (x y : float) :
  Float.is_nan x = false -> Float.is_nan y = false ->
  Float.ltb x y = false -> Float.leb y x = true.
Proof.
  unfold Float.ltb, Float.leb, SFltb, SFleb, SFcompare.
  by_cases x; by_cases y; intros _ _ H; compare_cases.
Qed.

Lemma ltb_leb (x y : float) : Float.ltb x y = true -> Float.leb x y = true.
Proof.
  unfold Float.ltb, Float.leb, SFltb, SFleb.
  destruct (SFcompare x y) as [[]|]; auto.
Qed.

Lemma eqb_not_ltb (x y v : float) :
  Float.eqb x v = true -> Float.eqb y v = true -> Float.ltb x y = false.
Proof.
  unfold Float.ltb, Float.eqb, SFltb, SFeqb, SFcompare.
  by_cases x; by_cases v; by_cases y; intros H1 H2; compare_cases.
Qed.

Lemma eqb_refl_r (x y : float) : Float.eqb x y = true -> Float.eqb y y = true.
Proof.
  unfold Float.eqb, SFeqb, SFcompare.
  by_cases x; by_cases y; intros H; compare_cases.
Qed.

Lemma ltb_trans (x y z : float) :
  Float.ltb x y = true -> Float.ltb y z = true -> Float.ltb x z = true.
Proof.
  unfold Float.ltb, SFltb, SFcompare.
  by_cases x; by_cases y; by_cases z; intros H1 H2; compare_cases.
Qed.

Lemma ltb_asym (x y : float) : Float.ltb x y = true -> Float.ltb y x = false.
Proof.
  unfold Float.ltb, SFltb, SFcompare.
  by_cases x; by_cases y; intros H; compare_cases.
Qed.

(** [x <= y] and [y <= z] give [x <= z], when [y] is a number. *)
Lemma not_ltb_trans (x y z : float) :
  Float.is_nan y = false ->
  Float.ltb y x = false -> Float.ltb z y = false -> Float.ltb z x = false.
Proof.
  unfold Float.ltb, SFltb, SFcompare.
  by_cases x; by_cases y; by_cases z; intros _ H1 H2; compare_cases.
Qed.

(** [x < y] and [y <= z] give [x < z], when [z] is a number. *)
Lemma ltb_not_ltb_trans (x y z : float) :
  Float.is_nan z = false ->
  Float.ltb x y = true -> Float.ltb z y = false -> Float.ltb x z = true.
Proof.
  unfold Float.ltb, SFltb, SFcompare.
  by_cases x; by_cases y; by_cases z; intros _ H1 H2; compare_cases.
Qed.

End Order.

(** ** The chunker *)

Example chunks_of_scenario :
  _split_text_into_chunks
    ("Para renovar el pasaporte debe agendar una cita. El horario de atenci"
     +:+ chr 243 +:+ "n es de 9 a 5.") 40 5
  = [ "Para renovar el pasaporte debe agendar";
      "agendar una cita. El horario de";
      "horario de atenci" +:+ chr 243 +:+ "n es de 9 a 5." ].
Proof. vm_compute. reflexivity. Qed.

Example chunks_without_overlap :
  _split_text_into_chunks "  hola  que tal   amigo mio " 8 0
  = ["hola que"; "tal"; "amigo"; "mio"].
Proof. vm_compute. reflexivity. Qed.

Example chunks_of_nothing : _split_text_into_chunks "   " 800 100 = [].
Proof. reflexivity. Qed.

(** A word longer than [max_chars] makes a chunk of its own. *)
Example chunk_of_long_word :
  _split_text_into_chunks "a abcdefghij b" 5 0 = ["a"; "abcdefghij"; "b"].
Proof. vm_compute. reflexivity. Qed.

Section Chunker.

Lemma overlap_len_cons (w : string) (ws : list string) :
  overlap_len (w :: ws) = len w + 1 + overlap_len ws.
Proof.
  unfold overlap_len. simpl.
  assert (H : forall l a, fold_left Z.add l a = a + fold_left Z.add l 0).
  { induction l as [|x l IH]; intros a; simpl; [lia|].
    rewrite (IH (a + x)), (IH (0 + x)). lia. }
  rewrite H. lia.
Qed.

Lemma overlap_len_nonneg (ws : list string) : 0 <= overlap_len ws.
Proof.
  induction ws as [|w ws IH]; [reflexivity|].
  rewrite overlap_len_cons. unfold len. lia.
Qed.

(** The loop invariant of [take_overlap]: the words taken are moved, in
    order, in front of the words taken before. *)
Lemma take_overlap_spec (overlap : Z) (rc ow : list string) :
  exists taken left,
    rev rc = left ++ taken /\
    take_overlap overlap rc ow = taken ++ ow /\
    (left = [] \/ overlap <= overlap_len (taken ++ ow)) /\
    (forall w rest, taken = w :: rest -> overlap_len (rest ++ ow) < overlap).
Proof.
  revert ow. induction rc as [|w rc IH]; intros ow; simpl.
  - exists [], []. repeat split; auto. intros; discriminate.
  - destruct (overlap_len ow <? overlap) eqn:E.
    + destruct (IH (w :: ow)) as (taken & left & Hrev & Hres & Hstop & Hlast).
      exists (taken ++ [w]), left. rewrite <- !app_assoc. simpl.
      repeat split; auto.
      * rewrite Hrev, <- app_assoc. reflexivity.
      * intros w0 rest Heq. destruct taken as [|t taken].
        -- simpl in Heq. injection Heq as <- <-. simpl. lia.
        -- simpl in Heq. injection Heq as <- <-.
           rewrite <- app_assoc. simpl. eapply Hlast. reflexivity.
    + exists [], (rev rc ++ [w]). rewrite app_nil_r. simpl.
      repeat split; auto.
      * right. lia.
      * intros; discriminate.
Qed.

Lemma overlap_seed_spec (overlap : Z) (cur : list string) :
  exists dropped,
    cur = dropped ++ overlap_seed overlap cur /\
    (dropped = [] \/ overlap <= overlap_len (overlap_seed overlap cur)) /\
    (forall w rest, overlap_seed overlap cur = w :: rest -> overlap_len rest < overlap).
Proof.
  unfold overlap_seed.
  destruct (take_overlap_spec overlap (rev cur) []) as (taken & left & Hrev & Hres & Hstop & Hlast).
  rewrite rev_involutive in Hrev. rewrite app_nil_r in *. rewrite Hres.
  exists left. repeat split; auto.
  intros w rest Heq. specialize (Hlast w rest Heq). now rewrite app_nil_r in Hlast.
Qed.

Lemma overlap_seed_nonempty (overlap : Z) (cur : list string) :
  0 < overlap -> cur <> [] -> overlap_seed overlap cur <> [].
Proof.
  intros Ho Hc. unfold overlap_seed.
  destruct (rev cur) as [|w rc] eqn:E.
  - apply (f_equal (@rev string)) in E. rewrite rev_involutive in E. contradiction.
  - simpl. change (overlap_len []) with 0.
    destruct (0 <? overlap) eqn:E0; [|lia].
    destruct (take_overlap_spec overlap rc [w]) as (taken & left & _ & Hres & _).
    rewrite Hres. destruct taken; discriminate.
Qed.

End Chunker.

(** C2, amended.  When a chunk is closed with [overlap > 0], the next buffer
    starts with a suffix [seed] of the closed buffer, in the same order,
    followed by the word being added.  The words are taken from the end
    backward until their combined length (length plus 1 for each) reaches
    [overlap] or the closed buffer is used up: [seed] is not empty, its
    combined length is at least [overlap] unless it is the whole closed
    buffer, and without its first word it is below [overlap]. *)
Theorem seeded_buffer_reaches_overlap
    (text : string) (max_chars overlap : Z) (pre post : list string) (word : string) :
  0 < overlap ->
  str_split text = pre ++ word :: post ->
  closes max_chars (chunker_run max_chars overlap pre) word = true ->
  let st := chunker_run max_chars overlap pre in
  let st' := chunker_run max_chars overlap (pre ++ [word]) in
  exists dropped seed,
    current st = dropped ++ seed /\
    current st' = seed ++ [word] /\
    seed <> [] /\
    (dropped = [] \/ overlap <= overlap_len seed) /\
    (forall w rest, seed = w :: rest -> overlap_len rest < overlap).
Proof.
  intros Ho Hsplit Hclose st st'.
  destruct (overlap_seed_spec overlap (current st)) as (dropped & Hcur & Hstop & Hlast).
  exists dropped, (overlap_seed overlap (current st)).
  assert (Hne : current st <> []).
  { unfold closes in Hclose. apply andb_prop in Hclose as [_ Hn].
    fold st in Hn. destruct (current st); discriminate. }
  repeat split; auto.
  - unfold st', chunker_run. rewrite fold_left_app. simpl.
    fold (chunker_run max_chars overlap pre). fold st.
    unfold chunker_step. fold st in Hclose. rewrite Hclose.
    unfold close_chunk. destruct (overlap >? 0) eqn:E; [reflexivity | lia].
  - apply overlap_seed_nonempty; assumption.
Qed.

Lemma seeded_buffer_reaches_overlap_witness :
  0 < 5 /\
  str_split "aaa bbb ccc" = ["aaa"; "bbb"] ++ "ccc" :: [] /\
  closes 7 (chunker_run 7 5 ["aaa"; "bbb"]) "ccc" = true /\
  exists dropped seed,
    current (chunker_run 7 5 ["aaa"; "bbb"]) = dropped ++ seed /\
    current (chunker_run 7 5 (["aaa"; "bbb"] ++ ["ccc"])) = seed ++ ["ccc"] /\
    seed <> [] /\
    (dropped = [] \/ 5 <= overlap_len seed) /\
    (forall w rest, seed = w :: rest -> overlap_len rest < 5).
Proof.
  split; [lia|]. split; [reflexivity|]. split; [reflexivity|].
  apply (seeded_buffer_reaches_overlap "aaa bbb ccc" 7 5 ["aaa"; "bbb"] [] "ccc").
  - lia.
  - reflexivity.
  - reflexivity.
Defined.

(** On "aaa bbb ccc" with [max_chars = 7] and [overlap = 5] the chunk
    "aaa bbb" is closed and both of its words are carried over: their
    combined length is 8. *)
Lemma seed_below_overlap_fails : ~ seed_below_overlap "aaa bbb ccc" 7 5.
Proof.
  intros H. specialize (H ["aaa"; "bbb"] "ccc" [] eq_refl eq_refl).
  vm_compute in H. discriminate.
Qed.

Section Words.

Lemma str_app_cons (c : ascii) (a b : string) :
  String c a +:+ b = String c (a +:+ b).
Proof. reflexivity. Qed.

Lemma str_app_assoc (a b c : string) : (a +:+ b) +:+ c = a +:+ (b +:+ c).
Proof.
  induction a as [|x a IH]; [reflexivity|].
  now rewrite !str_app_cons, IH.
Qed.

Lemma str_app_nil_r (a : string) : a +:+ "" = a.
Proof.
  induction a as [|x a IH]; [reflexivity|]. now rewrite str_app_cons, IH.
Qed.

Lemma is_empty_append (a b : string) :
  is_empty (a +:+ b) = is_empty a && is_empty b.
Proof. destruct a; reflexivity. Qed.

Lemma no_space_append (a b : string) :
  no_space (a +:+ b) = no_space a && no_space b.
Proof.
  induction a as [|x a IH]; [reflexivity|].
  rewrite str_app_cons. simpl. rewrite IH. now rewrite andb_assoc.
Qed.

(** Every word that [split] returns is non-empty and free of whitespace. *)
Lemma split_from_words (s word : string) :
  no_space word = true -> Forall (fun w => is_word w = true) (split_from s word).
Proof.
  revert word. induction s as [|c s IH]; intros word Hw; simpl.
  - destruct (is_empty word) eqn:E; constructor; [|constructor].
    unfold is_word. now rewrite E, Hw.
  - destruct (isspace c) eqn:Ec.
    + destruct (is_empty word) eqn:E.
      * now apply IH.
      * constructor; [unfold is_word; now rewrite E, Hw | now apply IH].
    + apply IH. rewrite no_space_append, Hw. simpl. now rewrite Ec.
Qed.

Lemma str_split_words (s : string) :
  Forall (fun w => is_word w = true) (str_split s).
Proof. now apply split_from_words. Qed.

Lemma split_from_word (w rest word : string) :
  no_space w = true -> split_from (w +:+ rest) word = split_from rest (word +:+ w).
Proof.
  revert word. induction w as [|c w IH]; intros word Hw.
  - now rewrite str_app_nil_r.
  - simpl in Hw. apply andb_prop in Hw as [Hc Hw].
    apply negb_true_iff in Hc. rewrite str_app_cons. simpl.
    rewrite Hc, IH by assumption.
    now rewrite str_app_assoc.
Qed.

(** Splitting the joined words gives the words back. *)
Lemma split_join (ws : list string) :
  Forall (fun w => is_word w = true) ws -> str_split (str_join " " ws) = ws.
Proof.
  unfold str_split. induction ws as [|w ws IH]; intros Hws; [reflexivity|].
  inversion Hws as [|? ? Hw Hrest]; subst.
  unfold is_word in Hw. apply andb_prop in Hw as [Hne Hns].
  destruct ws as [|w2 ws].
  - simpl. rewrite <- (str_app_nil_r w) at 1.
    rewrite split_from_word by assumption. simpl.
    destruct w; [discriminate | reflexivity].
  - change (str_join " " (w :: w2 :: ws))
      with (w +:+ " " +:+ str_join " " (w2 :: ws)).
    rewrite split_from_word by assumption.
    change (" " +:+ str_join " " (w2 :: ws))
      with (String " " (str_join " " (w2 :: ws))).
    cbn [split_from]. change (isspace " ") with true. cbv iota.
    destruct w; [discriminate|]. cbn [is_empty]. f_equal. now apply IH.
Qed.

Lemma rstrip_no_space (s : string) : no_space s = true -> rstrip s = s.
Proof.
  induction s as [|c s IH]; simpl; [reflexivity|]. intros H.
  apply andb_prop in H as [Hc Hs]. apply negb_true_iff in Hc.
  rewrite IH, Hc, andb_false_r by assumption. reflexivity.
Qed.

Lemma rstrip_append (a b : string) :
  rstrip b = b -> is_empty b = false -> rstrip (a +:+ b) = a +:+ b.
Proof.
  intros Hb Hne. induction a as [|c a IH]; [assumption|].
  rewrite str_app_cons. simpl.
  rewrite IH, is_empty_append, Hne, andb_false_r. reflexivity.
Qed.

Lemma join_words (ws : list string) :
  Forall (fun w => is_word w = true) ws -> ws <> [] ->
  is_empty (str_join " " ws) = false /\
  rstrip (str_join " " ws) = str_join " " ws /\
  lstrip (str_join " " ws) = str_join " " ws.
Proof.
  induction ws as [|w ws IH]; intros Hws Hne; [contradiction|].
  inversion Hws as [|? ? Hw Hrest]; subst.
  unfold is_word in Hw. apply andb_prop in Hw as [Hnew Hns].
  assert (Hl : forall r, lstrip (w +:+ r) = w +:+ r).
  { intros r. destruct w as [|c w]; [discriminate|].
    rewrite str_app_cons. simpl in *.
    apply andb_prop in Hns as [Hc _]. apply negb_true_iff in Hc. now rewrite Hc. }
  destruct ws as [|w2 ws].
  - simpl. repeat split.
    + now apply negb_true_iff.
    + now apply rstrip_no_space.
    + rewrite <- (str_app_nil_r w). apply Hl.
  - change (str_join " " (w :: w2 :: ws))
      with (w +:+ " " +:+ str_join " " (w2 :: ws)).
    destruct IH as (He & Hr & _); [assumption | discriminate |].
    repeat split.
    + rewrite is_empty_append. apply negb_true_iff in Hnew. now rewrite Hnew.
    + apply rstrip_append.
      * apply (rstrip_append " "); assumption.
      * reflexivity.
    + apply Hl.
Qed.

(** A chunk is its words joined by single spaces: stripping changes
    nothing and splitting gives the words back. *)
Lemma split_chunk (ws : list string) :
  Forall (fun w => is_word w = true) ws ->
  str_split (str_strip (str_join " " ws)) = ws.
Proof.
  intros Hws. destruct ws as [|w ws]; [reflexivity|].
  destruct (join_words (w :: ws) Hws) as (_ & Hr & Hl); [discriminate|].
  unfold str_strip. rewrite Hl, Hr. now apply split_join.
Qed.

End Words.

Section Partition.

Variable max_chars : Z.

Lemma chunker_run_snoc (overlap : Z) (ws : list string) (w : string) :
  chunker_run max_chars overlap (ws ++ [w])
  = chunker_step max_chars overlap (chunker_run max_chars overlap ws) w.
Proof. unfold chunker_run. now rewrite fold_left_app. Qed.

(** Without overlap, the closed chunks followed by the buffer are the
    words read so far. *)
Lemma chunker_run_partition (overlap : Z) (ws : list string) :
  overlap <= 0 ->
  Forall (fun w => is_word w = true) ws ->
  let st := chunker_run max_chars overlap ws in
  concat (str_split <$> chunks st) ++ current st = ws.
Proof.
  intros Ho. induction ws as [|w ws IH] using rev_ind; intros Hws; [reflexivity|].
  apply Forall_app in Hws as [Hws Hw]. specialize (IH Hws). simpl in IH.
  rewrite chunker_run_snoc. set (st := chunker_run max_chars overlap ws) in *.
  unfold chunker_step. destruct (closes max_chars st w).
  - unfold close_chunk. destruct (overlap >? 0) eqn:E; [lia|]. simpl.
    rewrite fmap_app, concat_app. simpl. rewrite app_nil_r.
    rewrite split_chunk.
    + now rewrite IH.
    + rewrite <- IH in Hws. now apply Forall_app in Hws as [_ ?].
  - simpl. now rewrite app_assoc, IH.
Qed.

End Partition.

(** C6, amended.  With [overlap = 0] the chunks cut the sequence of words
    of the text into consecutive pieces: the words of the chunks, one chunk
    after the other, are the words of the text, each occurrence in one
    chunk only. *)
Theorem chunks_partition_words (text : string) (max_chars : Z) :
  concat (str_split <$> _split_text_into_chunks text max_chars 0) = str_split text.
Proof.
  pose proof (str_split_words text) as Hws.
  pose proof (chunker_run_partition max_chars 0 (str_split text) ltac:(lia) Hws) as Hp.
  simpl in Hp. unfold _split_text_into_chunks, chunker_finish.
  set (st := chunker_run max_chars 0 (str_split text)) in *.
  destruct (current st) as [|w cur] eqn:Ec; cbn [nonempty].
  - now rewrite app_nil_r in Hp.
  - rewrite fmap_app, concat_app. cbn [fmap list_fmap concat]. rewrite app_nil_r.
    rewrite split_chunk; [assumption|].
    rewrite <- Hp in Hws. now apply Forall_app in Hws as [_ ?].
Qed.

(** On "a a" with [max_chars = 1] the two chunks are "a" and "a". *)
Lemma repeated_word_is_shared : ~ no_shared_word (_split_text_into_chunks "a a" 1 0).
Proof.
  intros H. apply (H 0%nat "a" "a" "a"); try reflexivity; vm_compute; left.
Qed.

(** ** Sorting *)

Section SortFacts.
Context {A : Type} (key : A -> float).

Lemma insert_desc_perm (x : A) (l : list A) : insert_desc key x l ≡ₚ x :: l.
Proof.
  induction l as [|y l IH]; simpl; [reflexivity|].
  destruct (Float.ltb (key x) (key y)); [|reflexivity].
  rewrite IH. apply Permutation_swap.
Qed.

Lemma sort_reverse_perm (l : list A) : sort_reverse key l ≡ₚ l.
Proof.
  induction l as [|x l IH]; simpl; [reflexivity|].
  now rewrite insert_desc_perm, IH.
Qed.

Lemma sort_reverse_length (l : list A) : length (sort_reverse key l) = length l.
Proof. apply Permutation_length, sort_reverse_perm. Qed.

Lemma insert_desc_sorted (x : A) (l : list A) :
  Float.is_nan (key x) = false ->
  Forall (fun y => Float.is_nan (key y) = false) l ->
  StronglySorted (desc key) l -> StronglySorted (desc key) (insert_desc key x l).
Proof.
  intros Hx Hl Hs. induction Hs as [|y l Hs IH Hy]; simpl.
  - repeat constructor.
  - inversion Hl as [|? ? Hny Hl']; subst.
    destruct (Float.ltb (key x) (key y)) eqn:E.
    + constructor; [now apply IH|].
      rewrite insert_desc_perm. constructor; [|assumption].
      now apply ltb_leb.
    + assert (Hyx : desc key x y) by (now apply ltb_false_leb).
      constructor; [now constructor|].
      constructor; [assumption|].
      eapply Forall_impl; [exact Hy|]. intros z Hz. unfold desc in *.
      eapply leb_trans; eassumption.
Qed.

(** On keys that are numbers the result is in descending order. *)
Lemma sort_reverse_sorted (l : list A) :
  Forall (fun y => Float.is_nan (key y) = false) l ->
  StronglySorted (desc key) (sort_reverse key l).
Proof.
  induction l as [|x l IH]; intros Hl; simpl; [constructor|].
  inversion Hl; subst. apply insert_desc_sorted; auto.
  now rewrite sort_reverse_perm.
Qed.

(** Stability: the elements whose keys equal [v] keep their order. *)
Lemma insert_desc_stable (v : float) (x : A) (l : list A) :
  List.filter (fun y => Float.eqb (key y) v) (insert_desc key x l)
  = List.filter (fun y => Float.eqb (key y) v) (x :: l).
Proof.
  induction l as [|y l IH]; [reflexivity|].
  cbn [insert_desc]. destruct (Float.ltb (key x) (key y)) eqn:E; [|reflexivity].
  cbn [List.filter] in *. rewrite IH.
  destruct (Float.eqb (key x) v) eqn:Ex, (Float.eqb (key y) v) eqn:Ey; try reflexivity.
  rewrite (eqb_not_ltb _ _ _ Ex Ey) in E. discriminate.
Qed.

Lemma sort_reverse_stable (v : float) (l : list A) :
  List.filter (fun y => Float.eqb (key y) v) (sort_reverse key l)
  = List.filter (fun y => Float.eqb (key y) v) l.
Proof.
  induction l as [|x l IH]; [reflexivity|].
  cbn [sort_reverse foldr]. rewrite insert_desc_stable.
  cbn [List.filter]. fold (sort_reverse key l). now rewrite IH.
Qed.

Lemma sorted_lookup (l : list A) (i j : nat) (x y : A) :
  StronglySorted (desc key) l -> (i < j)%nat ->
  l !! i = Some x -> l !! j = Some y -> desc key x y.
Proof.
  intros Hs. revert i j. induction Hs as [|z l Hs IH Hz]; intros i j Hij Hi Hj.
  - discriminate.
  - destruct j as [|j]; [lia|]. destruct i as [|i]; simpl in *.
    + injection Hi as <-. rewrite Forall_forall in Hz.
      apply Hz. eapply list_elem_of_lookup_2; eassumption.
    + eapply IH; [|eassumption..]. lia.
Qed.

End SortFacts.

Section Ties.
Context {A : Type} (key : A -> float) (rank : A -> Z).

(** Two elements of a list, the first before the second. *)
Lemma lookup_split (l : list A) (i j : nat) (x y : A) :
  (i < j)%nat -> l !! i = Some x -> l !! j = Some y ->
  exists l1 l2 l3, l = l1 ++ x :: l2 ++ y :: l3.
Proof.
  intros Hij Hi Hj.
  apply list_elem_of_split_length in Hi as (l1 & r & -> & Hlen).
  rewrite lookup_app_r in Hj by lia.
  replace (j - length l1)%nat with (S (j - length l1 - 1)) in Hj by lia.
  simpl in Hj. apply list_elem_of_split_length in Hj as (l2 & l3 & -> & _).
  eauto.
Qed.

Lemma ties_keep_rank_order (l sorted : list A) (i j : nat) (x y : A) :
  StronglySorted (fun a b => rank a < rank b) l ->
  (forall v, List.filter (fun a => Float.eqb (key a) v) sorted
             = List.filter (fun a => Float.eqb (key a) v) l) ->
  (i < j)%nat -> sorted !! i = Some x -> sorted !! j = Some y ->
  Float.eqb (key x) (key y) = true ->
  rank x < rank y.
Proof.
  intros Hl Hf Hij Hi Hj Heq.
  destruct (lookup_split sorted i j x y Hij Hi Hj) as (l1 & l2 & l3 & ->).
  specialize (Hf (key y)).
  assert (Hs : StronglySorted (fun a b => rank a < rank b)
                 (List.filter (fun a => Float.eqb (key a) (key y)) l)).
  { clear -Hl. induction Hl as [|a l Hl IH Ha]; simpl; [constructor|].
    destruct (Float.eqb (key a) (key y)); [|assumption].
    constructor; [assumption|].
    rewrite Forall_forall in *. intros b Hb. apply Ha.
    apply list_elem_of_In, List.filter_In in Hb as [Hb _]. now apply list_elem_of_In. }
  rewrite <- Hf in Hs.
  rewrite List.filter_app in Hs. cbn [List.filter] in Hs. rewrite Heq in Hs.
  rewrite List.filter_app in Hs. cbn [List.filter] in Hs.
  rewrite (eqb_refl_r _ _ Heq) in Hs.
  apply StronglySorted_app_1_r in Hs.
  apply StronglySorted_cons in Hs as [Hs _].
  rewrite Forall_forall in Hs. apply Hs. set_solver.
Qed.

End Ties.

(** ** The sort of the interpreter *)

Section ListSortFacts.
Context {A : Type} (key : A -> float).

Lemma insert_at_perm (i : nat) (x : A) (l : list A) : insert_at i x l ≡ₚ x :: l.
Proof.
  unfold insert_at. rewrite <- Permutation_middle. now rewrite take_drop.
Qed.

Lemma binarysort_perm (run rest : list A) : binarysort key run rest ≡ₚ run ++ rest.
Proof.
  unfold binarysort. revert run. induction rest as [|x rest IH]; intros run.
  - now rewrite app_nil_r.
  - cbn [fold_left]. rewrite IH. unfold binary_insert. rewrite insert_at_perm.
    now rewrite <- Permutation_middle.
Qed.

Lemma list_sort_forward_perm (l : list A) : list_sort_forward key l ≡ₚ l.
Proof.
  unfold list_sort_forward. destruct l as [|x [|y l]]; try reflexivity.
  destruct (count_run key (x :: y :: l)) as [n descending].
  rewrite binarysort_perm.
  transitivity (take n (x :: y :: l) ++ drop n (x :: y :: l));
    [|now rewrite take_drop].
  apply Permutation_app_tail. destruct descending; [|reflexivity].
  symmetry. apply Permutation_rev.
Qed.

(** Whatever the keys are, the sort returns the elements of the list. *)
Lemma list_sort_reverse_perm (l : list A) : list_sort_reverse key l ≡ₚ l.
Proof.
  unfold list_sort_reverse.
  rewrite <- Permutation_rev, list_sort_forward_perm. symmetry. apply Permutation_rev.
Qed.

Lemma list_sort_reverse_length (l : list A) :
  length (list_sort_reverse key l) = length l.
Proof. apply Permutation_length, list_sort_reverse_perm. Qed.

(** The search needs no more steps than the distance of its bounds. *)
Lemma bisect_fuel (fuel fuel' : nat) (pivot : A) (sorted : list A) (l r : nat) :
  (r - l <= fuel)%nat -> (r - l <= fuel')%nat ->
  bisect key fuel pivot sorted l r = bisect key fuel' pivot sorted l r.
Proof.
  revert fuel' l r. induction fuel as [|fuel IH]; intros fuel' l r H1 H2.
  - destruct fuel' as [|fuel']; [reflexivity|]. cbn [bisect].
    destruct (Nat.ltb_spec l r); [lia | reflexivity].
  - destruct fuel' as [|fuel'].
    + cbn [bisect]. destruct (Nat.ltb_spec l r); [lia | reflexivity].
    + cbn [bisect]. destruct (Nat.ltb_spec l r) as [Hlt|]; [|reflexivity].
      assert (Hhalf : ((r - l) / 2 < r - l)%nat)
        by (apply Nat.div_lt; lia).
      destruct (sorted !! (l + (r - l) / 2)%nat) as [y|]; [|reflexivity].
      destruct (islt key pivot y); apply IH; lia.
Qed.

(** In a list made of a part where the test of the search fails and a
    part where it holds, the search ends between the two. *)
Lemma bisect_partition (pivot : A) (a b : list A) (fuel l r : nat) :
  Forall (fun y => islt key pivot y = false) a ->
  Forall (fun y => islt key pivot y = true) b ->
  (l <= length a <= r)%nat -> (r <= length (a ++ b))%nat -> (r - l <= fuel)%nat ->
  bisect key fuel pivot (a ++ b) l r = length a.
Proof.
  intros Ha Hb. revert l r. induction fuel as [|fuel IH]; intros l r Hlr Hr Hf.
  - cbn [bisect]. lia.
  - cbn [bisect]. destruct (Nat.ltb_spec l r) as [Hlt|]; [|lia].
    assert (Hhalf : ((r - l) / 2 < r - l)%nat) by (apply Nat.div_lt; lia).
    remember (l + (r - l) / 2)%nat as p eqn:Ep.
    destruct (lookup_lt_is_Some_2 (a ++ b) p ltac:(lia)) as [y Hy]. rewrite Hy.
    destruct (Nat.lt_ge_cases p (length a)) as [Hp|Hp].
    + rewrite lookup_app_l in Hy by lia.
      rewrite Forall_forall in Ha.
      rewrite (Ha y (list_elem_of_lookup_2 _ _ _ Hy)). apply IH; lia.
    + rewrite lookup_app_r in Hy by lia.
      rewrite Forall_forall in Hb.
      rewrite (Hb y (list_elem_of_lookup_2 _ _ _ Hy)). apply IH; lia.
Qed.

Lemma binary_insert_partition (pivot : A) (a b : list A) :
  Forall (fun y => islt key pivot y = false) a ->
  Forall (fun y => islt key pivot y = true) b ->
  binary_insert key (a ++ b) pivot = a ++ pivot :: b.
Proof.
  intros Ha Hb. unfold binary_insert, insert_at.
  rewrite (bisect_partition pivot a b _ 0 _ Ha Hb) by (rewrite ?length_app; lia).
  now rewrite take_app_length, drop_app_length.
Qed.

Lemma insert_desc_partition (x : A) (a b : list A) :
  Forall (fun y => islt key x y = false) a ->
  Forall (fun y => islt key x y = true) b ->
  insert_desc key x (rev b ++ rev a) = rev b ++ x :: rev a.
Proof.
  intros Ha Hb. apply Forall_rev in Hb. apply Forall_rev in Ha.
  induction Hb as [|y b' Hy Hb IH]; cbn [app insert_desc].
  - destruct Ha as [|y a' Hy Ha]; [reflexivity|]. cbn [insert_desc].
    unfold islt in Hy. now rewrite Hy.
  - unfold islt in Hy. rewrite Hy. now rewrite IH.
Qed.

(** Sorted in ascending order: no element is below one that comes before
    it. *)
Local Abbreviation asc := (StronglySorted (fun y z => islt key z y = false)).
Local Abbreviation numbers := (Forall (fun y => Float.is_nan (key y) = false)).

Lemma sorted_partition (x : A) (s : list A) :
  asc s -> numbers s ->
  exists a b,
    s = a ++ b /\
    Forall (fun y => islt key x y = false) a /\
    Forall (fun y => islt key x y = true) b.
Proof.
  intros Hs Hn. induction Hs as [|y s Hs IH Hy].
  - exists [], []. repeat split; constructor.
  - apply Forall_cons in Hn as [_ Hn].
    destruct (islt key x y) eqn:E.
    + exists [], (y :: s). split; [reflexivity|]. split; [constructor|].
      constructor; [exact E|].
      rewrite Forall_forall in *. intros z Hz. unfold islt in *.
      eapply ltb_not_ltb_trans; [now apply Hn | exact E | now apply Hy].
    + destruct (IH Hn) as (a & b & -> & Ha & Hb).
      exists (y :: a), b. split; [reflexivity|]. split; [|exact Hb].
      now constructor.
Qed.

(** One step of the binary insertion on a sorted list of numbers: the
    list stays sorted, and read from its end the step is the step of the
    insertion in descending order. *)
Lemma binary_insert_sorted (x : A) (s : list A) :
  asc s -> numbers s ->
  asc (binary_insert key s x) /\
  rev (binary_insert key s x) = insert_desc key x (rev s).
Proof.
  intros Hs Hn. destruct (sorted_partition x s Hs Hn) as (a & b & -> & Ha & Hb).
  rewrite (binary_insert_partition x a b Ha Hb). split.
  - apply StronglySorted_app in Hs as (Hab & Hsa & Hsb).
    apply StronglySorted_app_2; [|exact Hsa|].
    + intros y z Hy Hz. apply elem_of_cons in Hz as [->|Hz]; [|now apply Hab].
      rewrite Forall_forall in Ha. now apply Ha.
    + constructor; [exact Hsb|].
      eapply Forall_impl; [exact Hb|]. cbn. intros z Hz. unfold islt in *.
      now apply ltb_asym.
  - rewrite rev_app_distr. cbn [rev]. rewrite rev_app_distr, <- app_assoc. cbn [app].
    symmetry. now apply insert_desc_partition.
Qed.

Lemma binarysort_sorted (run rest : list A) :
  asc run -> numbers run -> numbers rest ->
  rev (binarysort key run rest) = foldr (insert_desc key) (rev run) (rev rest).
Proof.
  unfold binarysort. revert run. induction rest as [|x rest IH]; intros run Hs Hn Hr.
  - reflexivity.
  - apply Forall_cons in Hr as [Hx Hr]. cbn [fold_left rev].
    destruct (binary_insert_sorted x run Hs Hn) as [Hs' Hrev].
    rewrite IH; [| exact Hs' | | exact Hr].
    + rewrite Hrev, foldr_app. reflexivity.
    + unfold binary_insert. rewrite (insert_at_perm _ x run). now constructor.
Qed.

(** The run that [count_run] finds. *)
Lemma run_length_le (descending : bool) (prev : A) (l : list A) :
  (run_length key descending prev l <= length l)%nat.
Proof.
  revert prev. induction l as [|x l IH]; intros prev; cbn; [lia|].
  destruct (Bool.eqb _ _); [specialize (IH x)|]; lia.
Qed.

Lemma run_ascending (prev : A) (l : list A) :
  Sorted (fun y z => islt key z y = false)
         (prev :: take (run_length key false prev l) l).
Proof.
  revert prev. induction l as [|x l IH]; intros prev; cbn [run_length].
  - repeat constructor.
  - destruct (islt key x prev) eqn:E; cbn [Bool.eqb take].
    + repeat constructor.
    + constructor; [apply IH | now constructor].
Qed.

Lemma run_descending (prev : A) (l : list A) :
  Sorted (fun y z => islt key z y = true)
         (prev :: take (run_length key true prev l) l).
Proof.
  revert prev. induction l as [|x l IH]; intros prev; cbn [run_length].
  - repeat constructor.
  - destruct (islt key x prev) eqn:E; cbn [Bool.eqb take].
    + constructor; [apply IH | now constructor].
    + repeat constructor.
Qed.

Lemma strongly_sorted_rev (R : relation A) (l : list A) :
  StronglySorted R l -> StronglySorted (flip R) (rev l).
Proof.
  induction 1 as [|x l Hl IH Hx]; [constructor|]. cbn [rev].
  apply StronglySorted_app_2; [| exact IH | repeat constructor].
  intros a b Ha Hb. apply list_elem_of_singleton in Hb as ->.
  rewrite Forall_forall in Hx. apply Hx.
  now apply list_elem_of_In, in_rev, list_elem_of_In in Ha.
Qed.

Lemma strongly_sorted_impl (R R' : relation A) (l : list A) :
  (forall x y, R x y -> R' x y) -> StronglySorted R l -> StronglySorted R' l.
Proof.
  intros HR. induction 1 as [|x l Hl IH Hx]; constructor; [exact IH|].
  eapply Forall_impl; [exact Hx | exact (HR x)].
Qed.

(** A run that never descends, of numbers, is sorted. *)
Lemma ascending_run_sorted (l : list A) :
  numbers l -> Sorted (fun y z => islt key z y = false) l -> asc l.
Proof.
  intros Hn Hs. induction Hs as [|x l Hs IH Hx]; [constructor|].
  apply Forall_cons in Hn as [_ Hn]. specialize (IH Hn).
  constructor; [exact IH|].
  destruct Hx as [|y l Hxy]; [constructor|].
  apply Forall_cons in Hn as [Hy _].
  apply StronglySorted_cons in IH as [Hyl _].
  constructor; [exact Hxy|].
  eapply Forall_impl; [exact Hyl|]. cbn. intros z Hz. unfold islt in *.
  exact (not_ltb_trans _ _ _ Hy Hxy Hz).
Qed.

(** A strictly descending run is strictly descending throughout. *)
Lemma descending_run_sorted (l : list A) :
  Sorted (fun y z => islt key z y = true) l ->
  StronglySorted (fun y z => islt key z y = true) l.
Proof.
  apply Sorted_StronglySorted. intros x y z Hxy Hyz. unfold islt in *.
  exact (ltb_trans _ _ _ Hyz Hxy).
Qed.

(** The sort in descending order leaves a list in descending order as it
    is, and turns a list in strictly ascending order round. *)
Lemma sort_reverse_of_sorted (d : list A) :
  StronglySorted (fun a b => islt key a b = false) d -> sort_reverse key d = d.
Proof.
  induction 1 as [|x d Hd IH Hx]; [reflexivity|].
  cbn [sort_reverse foldr]. fold (sort_reverse key d). rewrite IH.
  destruct Hx as [|y d Hxy]; [reflexivity|]. cbn [insert_desc].
  unfold islt in Hxy. now rewrite Hxy.
Qed.

Lemma sort_reverse_of_increasing (d : list A) :
  StronglySorted (fun a b => islt key a b = true) d -> sort_reverse key d = rev d.
Proof.
  induction 1 as [|x d Hd IH Hx]; [reflexivity|].
  cbn [sort_reverse foldr]. fold (sort_reverse key d). rewrite IH.
  pose proof (insert_desc_partition x [] d (Forall_nil_2 _) Hx) as H.
  cbn [rev] in H. now rewrite app_nil_r in H.
Qed.

(** The run at the start of a list of numbers, as the binary insertion
    gets it: sorted, and read from its end it is its own sort in
    descending order. *)
Lemma first_run_sorted (l : list A) :
  numbers l ->
  let run := take (fst (count_run key l)) l in
  let run' := if snd (count_run key l) then rev run else run in
  asc run' /\ rev run' = sort_reverse key (rev run).
Proof.
  intros Hn. destruct l as [|x [|y l]].
  - cbn. split; [constructor | reflexivity].
  - cbn. split; [repeat constructor | reflexivity].
  - cbn [count_run fst snd take].
    assert (Hrun : numbers (x :: y :: take (run_length key (islt key y x) y l) l)).
    { apply Forall_cons in Hn as [Hx Hn]. apply Forall_cons in Hn as [Hy Hn].
      repeat (constructor; [assumption|]). now apply Forall_take. }
    destruct (islt key y x) eqn:E; cbn zeta.
    + assert (Hs : StronglySorted (fun y z => islt key z y = true)
                     (x :: y :: take (run_length key true y l) l)).
      { apply descending_run_sorted. constructor; [apply run_descending|].
        now constructor. }
      apply strongly_sorted_rev in Hs. split.
      * eapply strongly_sorted_impl; [|exact Hs]. unfold flip, islt. cbn.
        intros a b Hab. now apply ltb_asym.
      * rewrite rev_involutive. symmetry.
        rewrite (sort_reverse_of_increasing _ Hs). apply rev_involutive.
    + assert (Hs : asc (x :: y :: take (run_length key false y l) l)).
      { apply ascending_run_sorted; [exact Hrun|].
        constructor; [apply run_ascending | now constructor]. }
      split; [exact Hs|]. symmetry. apply sort_reverse_of_sorted.
      exact (strongly_sorted_rev _ _ Hs).
Qed.

Lemma list_sort_forward_sorted (l : list A) :
  numbers l -> rev (list_sort_forward key l) = sort_reverse key (rev l).
Proof.
  intros Hn. pose proof (first_run_sorted l Hn) as Hrun.
  unfold list_sort_forward. destruct l as [|x [|y l]]; try reflexivity.
  destruct (count_run key (x :: y :: l)) as [n descending]. cbn [fst snd] in Hrun.
  cbn zeta in Hrun. destruct Hrun as [Hasc Hrev].
  set (L := x :: y :: l) in *.
  assert (Hparts : numbers (take n L) /\ numbers (drop n L)).
  { split; [now apply Forall_take | now apply Forall_drop]. }
  destruct Hparts as [Htake Hdrop].
  rewrite binarysort_sorted; [| exact Hasc | | exact Hdrop].
  - rewrite Hrev. unfold sort_reverse. rewrite <- foldr_app, <- rev_app_distr.
    now rewrite take_drop.
  - destruct descending; [now apply Forall_rev | exact Htake].
Qed.

(** On keys that are numbers, the sort of the interpreter returns the list
    in descending order of the keys, equal keys in the order of the
    list. *)
Lemma list_sort_reverse_sorted (l : list A) :
  numbers l -> list_sort_reverse key l = sort_reverse key l.
Proof.
  intros Hn. unfold list_sort_reverse.
  rewrite list_sort_forward_sorted by (now apply Forall_rev).
  now rewrite rev_involutive.
Qed.

End ListSortFacts.

Section ListSortMap.
Context {A B : Type} (key : A -> float) (g : B -> A).

Lemma run_length_fmap (descending : bool) (prev : B) (l : list B) :
  run_length key descending (g prev) (g <$> l)
  = run_length (key ∘ g) descending prev l.
Proof.
  revert prev. induction l as [|x l IH]; intros prev; [reflexivity|].
  cbn [fmap list_fmap run_length]. fold (fmap g l). now rewrite IH.
Qed.

Lemma count_run_fmap (l : list B) :
  count_run key (g <$> l) = count_run (key ∘ g) l.
Proof.
  destruct l as [|x [|y l]]; try reflexivity.
  cbn [fmap list_fmap count_run]. fold (fmap g l). now rewrite run_length_fmap.
Qed.

Lemma bisect_fmap (fuel : nat) (pivot : B) (sorted : list B) (l r : nat) :
  bisect key fuel (g pivot) (g <$> sorted) l r
  = bisect (key ∘ g) fuel pivot sorted l r.
Proof.
  revert l r. induction fuel as [|fuel IH]; intros l r; [reflexivity|].
  cbn [bisect]. rewrite list_lookup_fmap.
  destruct (sorted !! (l + (r - l) / 2)%nat) as [y|]; cbn [fmap option_fmap option_map];
    [|reflexivity].
  now rewrite !IH.
Qed.

Lemma binarysort_fmap (run rest : list B) :
  binarysort key (g <$> run) (g <$> rest) = g <$> binarysort (key ∘ g) run rest.
Proof.
  unfold binarysort. revert run. induction rest as [|x rest IH]; intros run;
    [reflexivity|].
  cbn [fmap list_fmap fold_left]. fold (fmap g rest). rewrite <- IH. f_equal.
  unfold binary_insert, insert_at.
  now rewrite length_fmap, bisect_fmap, fmap_app, fmap_cons, fmap_take, fmap_drop.
Qed.

Lemma rev_fmap (l : list B) : rev (g <$> l) = g <$> rev l.
Proof.
  induction l as [|x l IH]; [reflexivity|].
  cbn [fmap list_fmap rev]. fold (fmap g l). now rewrite IH, fmap_app.
Qed.

(** Sorting the images under [g] is sorting the elements by the key of
    their images. *)
Lemma list_sort_reverse_fmap (l : list B) :
  list_sort_reverse key (g <$> l) = g <$> list_sort_reverse (key ∘ g) l.
Proof.
  unfold list_sort_reverse. rewrite (rev_fmap l).
  rewrite <- (rev_fmap (list_sort_forward (key ∘ g) (rev l))). f_equal.
  generalize (rev l). clear l. intros l.
  unfold list_sort_forward. destruct l as [|x [|y l]]; try reflexivity.
  change (g <$> x :: y :: l) with (g x :: g y :: (g <$> l)) at 1.
  change (g x :: g y :: (g <$> l)) with (g <$> x :: y :: l).
  rewrite count_run_fmap.
  destruct (count_run (key ∘ g) (x :: y :: l)) as [n descending].
  rewrite <- fmap_take, <- fmap_drop, <- binarysort_fmap.
  destruct descending; [now rewrite rev_fmap | reflexivity].
Qed.

End ListSortMap.

(** ** The index store *)

Section Store.

Lemma same_store_refl (w : world) : same_store w w.
Proof. repeat split. Qed.

Lemma embed_text_run (t : string) (w : world) :
  _embed_text t w = (embed_reply w (requests w) t, next_request w).
Proof. reflexivity. Qed.

Lemma next_request_store (w : world) : same_store w (next_request w).
Proof. repeat split. Qed.

Lemma embed_reply_next (w : world) (n : nat) (t : string) :
  embed_reply (next_request w) n t = embed_reply w n t.
Proof. reflexivity. Qed.

(** The loop stops at the first request that fails; until then it only
    counts requests. *)
Lemma embed_chunks_fails (ok : list string) (failing : string) (rest : list string)
    (e : exn) (i : Z) (index : list Chunk) (w : world) :
  (forall (n : nat) t, ok !! n = Some t ->
     exists v, embed_reply w (requests w + n) t = Ok v) ->
  embed_reply w (requests w + length ok) failing = Raise e ->
  exists w',
    embed_chunks i (ok ++ failing :: rest) index w = (Raise e, w') /\
    same_store w w' /\
    requests w' = (requests w + length ok + 1)%nat.
Proof.
  revert i index w. induction ok as [|t ok IH]; intros i index w Hok Hfail.
  - simpl in *. unfold bind. rewrite embed_text_run.
    rewrite Nat.add_0_r in Hfail. rewrite Hfail.
    exists (next_request w). split; [reflexivity|]. split.
    + apply next_request_store.
    + simpl. lia.
  - simpl. unfold bind. rewrite embed_text_run.
    destruct (Hok 0%nat t eq_refl) as [v Hv]. rewrite Nat.add_0_r in Hv. rewrite Hv.
    destruct (IH (i + 1) (index ++ [{| id := i; text := t; embedding := v |}])
                (next_request w)) as (w' & Hrun & Hst & Hreq).
    + intros n t' Hn. rewrite embed_reply_next.
      change (requests (next_request w)) with (S (requests w)).
      replace (S (requests w) + n)%nat with (requests w + S n)%nat by lia.
      apply Hok. exact Hn.
    + rewrite embed_reply_next.
      change (requests (next_request w)) with (S (requests w)).
      replace (S (requests w) + length ok)%nat
        with (requests w + length (t :: ok))%nat by (simpl; lia).
      exact Hfail.
    + exists w'. split; [exact Hrun|]. split.
      * destruct Hst as (? & ? & ? & ? & ?). repeat split; assumption.
      * rewrite Hreq. change (requests (next_request w)) with (S (requests w)).
        simpl. lia.
Qed.

Lemma embed_chunks_store (ts : list string) (i : Z) (index : list Chunk) (w : world)
    r w' :
  embed_chunks i ts index w = (r, w') -> same_store w w'.
Proof.
  revert i index w. induction ts as [|t ts IH]; intros i index w H.
  - injection H as _ <-. apply same_store_refl.
  - simpl in H. unfold bind in H. rewrite embed_text_run in H.
    destruct (embed_reply w (requests w) t).
    + apply IH in H. destruct H as (? & ? & ? & ? & ?). repeat split; assumption.
    + injection H as _ <-. apply next_request_store.
Qed.

(** The branch that a call takes. *)
Lemma build_branch (force : bool) (w : world) :
  (_index_cache w = None \/ force = true) ->
  (index_file w = None \/ force = true) ->
  build_or_load_index force w = build_index w.
Proof.
  unfold build_or_load_index.
  intros [Hc|Hc] [Hf|Hf]; rewrite ?Hc, ?Hf;
    destruct (_index_cache w), (index_file w), force; try reflexivity; discriminate.
Qed.

(** A call that raises has written nothing and cached nothing. *)
Lemma failure_keeps_store (force : bool) (w w' : world) (e : exn) :
  build_or_load_index force w = (Raise e, w') -> same_store w w'.
Proof.
  assert (Hbuild : build_index w = (Raise e, w') -> same_store w w').
  { unfold build_index, bind, _load_knowledge_text, raise, ret.
    destruct (knowledge_file w) as [t|].
    - destruct (embed_chunks 0 _ [] w) as [[index|e'] w1] eqn:E.
      + discriminate.
      + intros H. injection H as _ <-. eapply embed_chunks_store, E.
    - intros H. injection H as _ <-. apply same_store_refl. }
  assert (Hload : forall t, load_index t w = (Raise e, w') -> same_store w w').
  { intros t. unfold load_index, bind, lift.
    destruct (json_loads t) as [raw|e1].
    - destruct (load_chunks raw) as [index|e2].
      + discriminate.
      + intros H. injection H as _ <-. apply same_store_refl.
    - intros H. injection H as _ <-. apply same_store_refl. }
  unfold build_or_load_index.
  destruct (_index_cache w), force, (index_file w); cbv iota; eauto; discriminate.
Qed.

End Store.

(** C3.  A build whose provider fails on a chunk, after it has answered for
    the chunks before, raises the error of the provider: the index file,
    the cache and the knowledge file are as before the call, and no request
    follows the one that failed. *)
Theorem build_aborts_on_provider_failure
    (w : world) (force : bool) (text : string)
    (embedded : list string) (failing : string) (rest : list string) (e : exn) :
  (_index_cache w = None \/ force = true) ->
  (index_file w = None \/ force = true) ->
  knowledge_file w = Some text ->
  _split_text_into_chunks text 800 100 = embedded ++ failing :: rest ->
  (forall (n : nat) t, embedded !! n = Some t ->
     exists v, embed_reply w (requests w + n) t = Ok v) ->
  embed_reply w (requests w + length embedded) failing = Raise e ->
  exists w',
    build_or_load_index force w = (Raise e, w') /\
    index_file w' = index_file w /\
    _index_cache w' = _index_cache w /\
    knowledge_file w' = knowledge_file w /\
    requests w' = (requests w + length embedded + 1)%nat.
Proof.
  intros Hc Hf Hk Hsplit Hok Hfail.
  rewrite build_branch by assumption.
  destruct (embed_chunks_fails embedded failing rest e 0 [] w Hok Hfail)
    as (w' & Hrun & (H1 & H2 & H3 & _) & Hreq).
  exists w'. repeat split; try assumption.
  unfold build_index, bind, _load_knowledge_text, raise, ret. rewrite Hk, Hsplit, Hrun.
  reflexivity.
Qed.

Lemma build_aborts_on_provider_failure_witness :
  let cs := _split_text_into_chunks long_text 800 100 in
  (_index_cache failing_world = None \/ false = true) /\
  (index_file failing_world = None \/ false = true) /\
  knowledge_file failing_world = Some long_text /\
  cs = take 1 cs ++ nth 1 cs "" :: drop 2 cs /\
  exists w',
    build_or_load_index false failing_world = (Raise (ProviderError 429), w') /\
    index_file w' = index_file failing_world /\
    _index_cache w' = _index_cache failing_world /\
    knowledge_file w' = knowledge_file failing_world /\
    requests w' = (requests failing_world + length (take 1 cs) + 1)%nat.
Proof.
  intros cs.
  split; [left; reflexivity|]. split; [left; reflexivity|].
  split; [reflexivity|]. split; [vm_compute; reflexivity|].
  apply (build_aborts_on_provider_failure failing_world false long_text
           (take 1 cs) (nth 1 cs "") (drop 2 cs) (ProviderError 429)).
  - left; reflexivity.
  - left; reflexivity.
  - reflexivity.
  - vm_compute; reflexivity.
  - intros [|n] t H; [eexists; reflexivity | vm_compute in H; discriminate].
  - reflexivity.
Defined.

(** C5.  A call that has to build (nothing cached and no index file, or a
    forced rebuild) while the knowledge file is missing raises
    [FileNotFoundError] and changes nothing: no index file is written.  The
    retriever and the answer composer pass the error on. *)
Theorem build_without_knowledge_file (w : world) (force : bool) :
  (_index_cache w = None \/ force = true) ->
  (index_file w = None \/ force = true) ->
  knowledge_file w = None ->
  build_or_load_index force w = (Raise FileNotFoundError, w) /\
  (force = false ->
   forall question k,
     _retrieve_relevant_chunks question k w = (Raise FileNotFoundError, w) /\
     answer_question question k w = (Raise FileNotFoundError, w)).
Proof.
  intros Hc Hf Hk.
  assert (H : build_or_load_index force w = (Raise FileNotFoundError, w)).
  { rewrite build_branch by assumption.
    unfold build_index, bind, _load_knowledge_text, raise, ret. now rewrite Hk. }
  split; [exact H|]. intros -> question k.
  unfold answer_question, _retrieve_relevant_chunks, bind. now rewrite H.
Qed.

Lemma build_without_knowledge_file_witness :
  (_index_cache empty_world = None \/ false = true) /\
  (index_file empty_world = None \/ false = true) /\
  knowledge_file empty_world = None /\
  build_or_load_index false empty_world = (Raise FileNotFoundError, empty_world) /\
  (false = false ->
   forall question k,
     _retrieve_relevant_chunks question k empty_world
     = (Raise FileNotFoundError, empty_world) /\
     answer_question question k empty_world
     = (Raise FileNotFoundError, empty_world)).
Proof.
  split; [left; reflexivity|]. split; [left; reflexivity|]. split; [reflexivity|].
  apply (build_without_knowledge_file empty_world false).
  - left; reflexivity.
  - left; reflexivity.
  - reflexivity.
Defined.

(** An index file that is there but is not JSON is not rebuilt: the call
    raises the error of the parser. *)
Lemma malformed_index_file_raises (w : world) :
  _index_cache w = None -> index_file w = Some Malformed ->
  build_or_load_index false w = (Raise JSONDecodeError, w).
Proof.
  intros Hc Hf. unfold build_or_load_index. rewrite Hc, Hf. reflexivity.
Qed.

Section RoundTrip.

Lemma as_float_list_floats (e : list float) :
  as_float_list (JList (JFloat <$> e)) = Ok e.
Proof.
  simpl. induction e as [|x e IH]; [reflexivity|].
  simpl. unfold fmap in IH. now rewrite IH.
Qed.

Lemma chunk_of_json_to_json (c : Chunk) : chunk_of_json (chunk_to_json c) = Ok c.
Proof.
  unfold chunk_of_json, chunk_to_json, getitem.
  rewrite lookup_insert_ne, lookup_insert_ne, lookup_insert_eq by discriminate.
  rewrite lookup_insert_ne, lookup_insert_eq by discriminate.
  rewrite lookup_insert_eq.
  cbn [rbind as_int as_str]. rewrite as_float_list_floats. cbn [rbind].
  now destruct c.
Qed.

Lemma load_chunks_serializable (index : list Chunk) :
  load_chunks (serializable index) = Ok index.
Proof.
  unfold load_chunks, serializable. cbn [json_iter rbind].
  induction index as [|c index IH]; [reflexivity|].
  cbn [fmap list_fmap rmapM]. fold (fmap chunk_to_json index).
  rewrite chunk_of_json_to_json. cbn [rbind]. now rewrite IH.
Qed.

End RoundTrip.

Lemma embed_chunks_ok (ts : list string) (i : Z) (index : list Chunk) (w : world)
    r w' :
  embed_chunks i ts index w = (Ok r, w') ->
  exists new, r = index ++ new /\ text <$> new = ts /\
    id <$> new = (fun n => i + Z.of_nat n) <$> seq 0 (length ts).
Proof.
  revert i index w. induction ts as [|t ts IH]; intros i index w H.
  - injection H as <- <-. exists []. now rewrite app_nil_r.
  - cbn [embed_chunks] in H. unfold bind in H. rewrite embed_text_run in H.
    destruct (embed_reply w (requests w) t) as [v|]; [|discriminate].
    apply IH in H as (new & -> & Ht & Hid).
    exists ({| id := i; text := t; embedding := v |} :: new).
    rewrite <- app_assoc. split; [reflexivity|]. cbn [fmap list_fmap length seq].
    fold (fmap text new). fold (fmap id new). rewrite Ht, Hid. split; [reflexivity|].
    f_equal; [simpl; lia|].
    rewrite <- seq_shift, <- list_fmap_compose. apply list_fmap_ext.
    intros _ n _. simpl. lia.
Qed.

(** The index that a call returns is the cached one afterwards. *)
Lemma returned_index_is_cached (force : bool) (w w1 : world) (index : list Chunk) :
  build_or_load_index force w = (Ok index, w1) -> _index_cache w1 = Some index.
Proof.
  assert (Hbuild : build_index w = (Ok index, w1) -> _index_cache w1 = Some index).
  { unfold build_index, bind, _load_knowledge_text, raise, ret.
    destruct (knowledge_file w) as [t|]; [|discriminate].
    destruct (embed_chunks 0 _ [] w) as [[built|e'] w'] eqn:E; [|discriminate].
    cbn. intros H. injection H as <- <-. reflexivity. }
  assert (Hload : forall t, load_index t w = (Ok index, w1) -> _index_cache w1 = Some index).
  { intros t. unfold load_index, bind, lift.
    destruct (json_loads t) as [raw|e1]; [|discriminate].
    destruct (load_chunks raw) as [loaded|e2]; [|discriminate].
    cbn. intros H. injection H as <- <-. reflexivity. }
  unfold build_or_load_index.
  destruct (_index_cache w) eqn:Ec, force, (index_file w); cbv iota; eauto.
  - intros H. injection H as <- <-. exact Ec.
  - intros H. injection H as <- <-. exact Ec.
Qed.

(** An index that the build returns numbers its chunks by position. *)
Lemma built_index_ids (w w' : world) (index : list Chunk) :
  build_index w = (Ok index, w') -> ids_are_positions index.
Proof.
  unfold build_index, bind, _load_knowledge_text, raise, ret.
  destruct (knowledge_file w) as [t|]; [|discriminate].
  destruct (embed_chunks 0 _ [] w) as [[built|e'] w1] eqn:E; [|discriminate].
  cbn. intros H. injection H as <- _.
  apply embed_chunks_ok in E as (new & -> & Ht & Hid).
  unfold ids_are_positions. cbn [app]. rewrite Hid, <- Ht, length_fmap.
  apply list_fmap_ext. intros _ n _. lia.
Qed.

(** A build leaves its index in the cache and in the file. *)
Lemma build_index_world (w w' : world) (index : list Chunk) :
  build_index w = (Ok index, w') ->
  _index_cache w' = Some index /\
  index_file w' = Some (json_dumps (serializable index)).
Proof.
  unfold build_index, bind, _load_knowledge_text, raise, ret.
  destruct (knowledge_file w) as [t|]; [|discriminate].
  destruct (embed_chunks 0 _ [] w) as [[built|e'] w1] eqn:E; [|discriminate].
  cbn. intros H. injection H as <- <-. split; reflexivity.
Qed.

(** A process that starts on the file of a build loads the index that was
    built. *)
Lemma fresh_process_loads_built_index (w w' w2 : world) (index : list Chunk) :
  build_index w = (Ok index, w') ->
  _index_cache w2 = None -> index_file w2 = index_file w' ->
  fst (build_or_load_index false w2) = Ok index.
Proof.
  intros Hb Hc Hf. apply build_index_world in Hb as [_ Hfile].
  unfold build_or_load_index. rewrite Hc, Hf, Hfile.
  unfold load_index, bind, lift. cbn [json_dumps json_loads].
  now rewrite load_chunks_serializable.
Qed.

(** C4.  The index that a build returns is the one that its file gives
    back: the document written, read as the load reads it, has the same
    chunks in the same order, each with the same [id], [text] and
    [embedding]; a process that starts on the file gets that index. *)
Theorem persisted_index_round_trip (w w' : world) (index : list Chunk) :
  build_or_load_index true w = (Ok index, w') ->
  exists t,
    index_file w' = Some t /\
    t = json_dumps (serializable index) /\
    rbind (json_loads t) load_chunks = Ok index /\
    forall w2,
      _index_cache w2 = None -> index_file w2 = Some t ->
      fst (build_or_load_index false w2) = Ok index.
Proof.
  rewrite build_branch by (right; reflexivity).
  intros Hb. destruct (build_index_world w w' index Hb) as [_ Hfile].
  exists (json_dumps (serializable index)).
  split; [exact Hfile|]. split; [reflexivity|]. split.
  - cbn [json_dumps json_loads rbind]. apply load_chunks_serializable.
  - intros w2 Hc Hf. rewrite <- Hfile in Hf.
    exact (fresh_process_loads_built_index w w' w2 index Hb Hc Hf).
Qed.

Lemma persisted_index_round_trip_witness :
  let index := [ {| id := 0; text := "hola que tal"; embedding := [one] |} ] in
  build_or_load_index true knowledge_world
  = (Ok index, built_world) /\
  exists t,
    index_file built_world = Some t /\
    t = json_dumps (serializable index) /\
    rbind (json_loads t) load_chunks = Ok index /\
    forall w2,
      _index_cache w2 = None -> index_file w2 = Some t ->
      fst (build_or_load_index false w2) = Ok index.
Proof.
  intros index. split; [reflexivity|].
  apply (persisted_index_round_trip knowledge_world built_world index).
  reflexivity.
Defined.

(** Indexes numbered by position stay so: whatever call returns an index
    returns one that is numbered by position. *)
Lemma returned_index_numbered (force : bool) (w w1 : world) (index : list Chunk) :
  store_numbered w ->
  build_or_load_index force w = (Ok index, w1) ->
  ids_are_positions index /\ store_numbered w1.
Proof.
  intros Hw. pose proof Hw as [Hcache Hfile].
  assert (Hbuild : build_index w = (Ok index, w1) ->
                   ids_are_positions index /\ store_numbered w1).
  { intros H. pose proof (built_index_ids w w1 index H) as Hids.
    apply build_index_world in H as [Hc Hf].
    split; [exact Hids|]. split.
    - intros i Hi. rewrite Hc in Hi. now injection Hi as <-.
    - intros t i Ht Hl. rewrite Hf in Ht. injection Ht as <-.
      cbn [json_dumps json_loads rbind] in Hl.
      rewrite load_chunks_serializable in Hl. now injection Hl as <-. }
  assert (Hload : forall t, index_file w = Some t ->
            load_index t w = (Ok index, w1) ->
            ids_are_positions index /\ store_numbered w1).
  { intros t Ht. unfold load_index, bind, lift.
    destruct (json_loads t) as [raw|e1] eqn:E1; [|discriminate].
    destruct (load_chunks raw) as [loaded|e2] eqn:E2; [|discriminate].
    cbn. intros H. injection H as <- <-.
    assert (Hids : ids_are_positions loaded).
    { apply (Hfile t loaded Ht). now rewrite E1. }
    split; [exact Hids|]. split; cbn.
    - intros i Hi. now injection Hi as <-.
    - exact Hfile. }
  assert (Hhit : forall cached, _index_cache w = Some cached ->
            (Ok cached, w) = (Ok index, w1) ->
            ids_are_positions index /\ store_numbered w1).
  { intros cached Hc H. injection H as <- <-. split; [now apply Hcache | exact Hw]. }
  clear Hcache Hfile. unfold build_or_load_index.
  destruct (_index_cache w) as [cached|] eqn:Ec, force, (index_file w) as [t|] eqn:Ef;
    cbv iota; eauto.
Qed.

(** ** The retriever *)

Section Retrieval.

Lemma score_all (q : list float) (index : list Chunk) :
  rmapM (score_chunk q) index = Ok ((fun c => (c, similarity q c)) <$> index).
Proof.
  induction index as [|c index IH]; [reflexivity|].
  cbn [rmapM]. unfold score_chunk at 1.
  rewrite cosine_similarity_is_similarity. cbn [rbind]. now rewrite IH.
Qed.

Lemma slice_to_fmap {A B : Type} (g : A -> B) (k : Z) (l : list A) :
  slice_to k (g <$> l) = g <$> slice_to k l.
Proof.
  unfold slice_to. rewrite length_fmap.
  destruct (k <? 0); symmetry; apply fmap_take.
Qed.

(** Sorting the scored pairs by the score is sorting the chunks by their
    similarity. *)
Lemma rank_chunks_value (q : list float) (index : list Chunk) (k : Z) :
  rank_chunks q index k = Ok (slice_to k (list_sort_reverse (similarity q) index)).
Proof.
  unfold rank_chunks. rewrite score_all. cbn [rbind].
  rewrite (list_sort_reverse_fmap snd (fun c => (c, similarity q c)) index).
  rewrite slice_to_fmap, <- list_fmap_compose.
  f_equal. apply list_fmap_id.
Qed.

(** What retrieval returns once the index and the query vector are
    there. *)
Lemma retrieve_value (w : world) (question : string) (k : Z)
    (index : list Chunk) (w1 : world) (q : list float) (w2 : world) :
  build_or_load_index false w = (Ok index, w1) ->
  _embed_text question w1 = (Ok q, w2) ->
  _retrieve_relevant_chunks question k w
  = (Ok (slice_to k (list_sort_reverse (similarity q) index)), w2).
Proof.
  intros Hindex Hq. unfold _retrieve_relevant_chunks, bind, lift.
  now rewrite Hindex, Hq, rank_chunks_value.
Qed.

Lemma no_nan_scores_Forall (q : list float) (index : list Chunk) :
  no_nan_scores q index = true ->
  Forall (fun c => Float.is_nan (similarity q c) = false) index.
Proof.
  unfold no_nan_scores. rewrite forallb_forall, Forall_forall.
  intros H c Hc. apply negb_true_iff, H. now apply list_elem_of_In.
Qed.

(** When no similarity is NaN, the ranking is the index in descending
    order of similarity, equal similarities in the order of the index. *)
Lemma ranking_without_nan (q : list float) (index : list Chunk) :
  no_nan_scores q index = true ->
  list_sort_reverse (similarity q) index = sort_reverse (similarity q) index.
Proof.
  intros Hnan. apply list_sort_reverse_sorted. now apply no_nan_scores_Forall.
Qed.

Lemma slice_to_prefix {A : Type} (k : Z) (l : list A) :
  exists n, slice_to k l = take n l /\ (0 <= k -> n = Z.to_nat k).
Proof.
  unfold slice_to. destruct (k <? 0) eqn:E; eexists; split; try reflexivity; lia.
Qed.

Lemma ids_positions_sorted (index : list Chunk) :
  ids_are_positions index -> StronglySorted (fun a b => id a < id b) index.
Proof.
  unfold ids_are_positions. generalize 0%nat as n.
  induction index as [|c index IH]; intros n H; [constructor|].
  cbn [fmap list_fmap length seq] in H. injection H as Hc H.
  fold (fmap id index) in H. fold (fmap Z.of_nat (seq (S n) (length index))) in H.
  constructor; [eapply IH, H|].
  rewrite Forall_forall. intros d Hd.
  apply (list_elem_of_fmap_2 id) in Hd. rewrite H in Hd.
  apply list_elem_of_fmap in Hd as (m & -> & Hm).
  apply elem_of_seq in Hm. lia.
Qed.

End Retrieval.

(** C1, amended.  Once the index is there and the question is embedded,
    retrieval returns the first [k] chunks of the sorted index: [min k n]
    chunks of an index of [n], drawn from the index that is cached
    afterwards, each at most as often as it occurs there.  If no similarity
    is NaN, the chunks returned are in non-increasing order of similarity
    and no chunk left out is more similar than a chunk returned. *)
Theorem retrieve_top_k
    (w : world) (question : string) (k : Z)
    (index : list Chunk) (w1 : world) (q : list float) (w2 : world) :
  0 < k ->
  build_or_load_index false w = (Ok index, w1) ->
  _embed_text question w1 = (Ok q, w2) ->
  exists top rest,
    _retrieve_relevant_chunks question k w = (Ok top, w2) /\
    _index_cache w2 = Some index /\
    length top = Nat.min (Z.to_nat k) (length index) /\
    top ++ rest ≡ₚ index /\
    (forall c, c ∈ top -> c ∈ index) /\
    (no_nan_scores q index = true ->
     non_increasing (similarity q <$> top) /\
     forall c c', c ∈ top -> c' ∈ rest ->
       Float.leb (similarity q c') (similarity q c) = true).
Proof.
  intros Hk Hindex Hq.
  set (sorted := list_sort_reverse (similarity q) index).
  exists (take (Z.to_nat k) sorted), (drop (Z.to_nat k) sorted).
  assert (Hperm : take (Z.to_nat k) sorted ++ drop (Z.to_nat k) sorted ≡ₚ index).
  { rewrite take_drop. apply list_sort_reverse_perm. }
  split; [|split; [|split; [|split; [|split]]]].
  - rewrite (retrieve_value w question k index w1 q w2 Hindex Hq).
    unfold slice_to. destruct (k <? 0) eqn:E; [lia | reflexivity].
  - rewrite embed_text_run in Hq. injection Hq as _ <-.
    exact (returned_index_is_cached false w w1 index Hindex).
  - rewrite length_take. unfold sorted. now rewrite list_sort_reverse_length.
  - exact Hperm.
  - intros c Hc. rewrite <- Hperm. apply elem_of_app. now left.
  - intros Hnan. pose proof (ranking_without_nan q index Hnan) as Hrank.
    apply no_nan_scores_Forall in Hnan.
    pose proof (sort_reverse_sorted (similarity q) index Hnan) as Hs.
    rewrite <- Hrank in Hs.
    fold sorted in Hs. rewrite <- (take_drop (Z.to_nat k) sorted) in Hs.
    split.
    + intros i j x y Hij Hi Hj.
      apply list_lookup_fmap_Some in Hi as (c1 & -> & Hi).
      apply list_lookup_fmap_Some in Hj as (c2 & -> & Hj).
      apply StronglySorted_app_1_l in Hs.
      exact (sorted_lookup (similarity q) _ i j c1 c2 Hs Hij Hi Hj).
    + intros c c' Hc Hc'.
      exact (StronglySorted_app_1_elem_of _ _ _ c c' Hs Hc Hc').
Qed.

Lemma retrieve_top_k_witness :
  0 < 2 /\
  build_or_load_index false demo_world = (Ok demo_index, demo_world) /\
  _embed_text "horario" demo_world = (Ok [one; Float.zero], next_request demo_world) /\
  exists top rest,
    _retrieve_relevant_chunks "horario" 2 demo_world = (Ok top, next_request demo_world) /\
    _index_cache (next_request demo_world) = Some demo_index /\
    length top = Nat.min (Z.to_nat 2) (length demo_index) /\
    top ++ rest ≡ₚ demo_index /\
    (forall c, c ∈ top -> c ∈ demo_index) /\
    (no_nan_scores [one; Float.zero] demo_index = true ->
     non_increasing (similarity [one; Float.zero] <$> top) /\
     forall c c', c ∈ top -> c' ∈ rest ->
       Float.leb (similarity [one; Float.zero] c') (similarity [one; Float.zero] c) = true).
Proof.
  split; [lia|]. split; [reflexivity|]. split; [reflexivity|].
  apply (retrieve_top_k demo_world "horario" 2 demo_index demo_world
           [one; Float.zero] (next_request demo_world)).
  - lia.
  - reflexivity.
  - reflexivity.
Defined.

(** The index of [nan_world] comes back as it is: the chunk of similarity
    -1 first, the chunk of similarity 1 last. *)
Lemma nan_score_breaks_order : ~ retrieval_sorted nan_world "q" 3.
Proof.
  intros H.
  specialize (H nan_index nan_world [Float.pow2 500] (next_request nan_world)
                nan_index eq_refl eq_refl eq_refl).
  specialize (H 0%nat 2%nat _ _ ltac:(lia) eq_refl eq_refl).
  vm_compute in H. discriminate.
Qed.

(** Whatever the order in which the three chunks of [nan_index] come back,
    it is not a non-increasing order of similarity: NaN compares with
    nothing. *)
Lemma nan_index_has_no_order (l : list Chunk) :
  l ≡ₚ nan_index -> ~ non_increasing (similarity [Float.pow2 500] <$> l).
Proof.
  intros Hperm Hsorted.
  pose proof (Permutation_length Hperm) as Hlen.
  assert (Hnan : {| id := 1; text := "b"; embedding := [Float.pow2 600] |} ∈ l).
  { rewrite Hperm. unfold nan_index. set_solver. }
  apply list_elem_of_lookup in Hnan as [p Hp].
  assert (Hcmp : forall x, Float.leb x S754_nan = false /\ Float.leb S754_nan x = false).
  { intros x. destruct x as [?|?| |? ? ?]; split; reflexivity. }
  assert (Hother : exists p' c', p' <> p /\ l !! p' = Some c').
  { destruct l as [|a [|b l]]; try discriminate.
    destruct p as [|p]; [exists 1%nat, b | exists 0%nat, a]; split; auto. }
  destruct Hother as (p' & c' & Hne & Hp').
  assert (Hs : (similarity [Float.pow2 500] <$> l) !! p = Some S754_nan).
  { rewrite list_lookup_fmap, Hp. reflexivity. }
  assert (Hs' : (similarity [Float.pow2 500] <$> l) !! p'
                = Some (similarity [Float.pow2 500] c')).
  { rewrite list_lookup_fmap, Hp'. reflexivity. }
  destruct (Nat.lt_total p p') as [Hlt|[Heq|Hlt]]; [|subst; contradiction|].
  - specialize (Hsorted p p' _ _ Hlt Hs Hs').
    destruct (Hcmp (similarity [Float.pow2 500] c')) as [H _]. congruence.
  - specialize (Hsorted p' p _ _ Hlt Hs' Hs).
    destruct (Hcmp (similarity [Float.pow2 500] c')) as [_ H]. congruence.
Qed.

(** C9, amended.  On an index whose chunks are numbered by position, and
    for similarities none of which is NaN, the chunks come back in
    descending order of similarity, and two chunks of equal similarity in
    ascending order of [id]: the sort keeps the index order of equal
    keys.  What is returned is then the start of the index sorted in this
    way: a function of the index, the query vector and [k]. *)
Theorem ties_in_index_order
    (w : world) (question : string) (k : Z)
    (index : list Chunk) (w1 : world) (q : list float) (w2 : world) :
  build_or_load_index false w = (Ok index, w1) ->
  _embed_text question w1 = (Ok q, w2) ->
  ids_are_positions index ->
  no_nan_scores q index = true ->
  exists top,
    _retrieve_relevant_chunks question k w = (Ok top, w2) /\
    top = slice_to k (sort_reverse (similarity q) index) /\
    forall (i j : nat) c1 c2,
      (i < j)%nat -> top !! i = Some c1 -> top !! j = Some c2 ->
      Float.leb (similarity q c2) (similarity q c1) = true /\
      (Float.eqb (similarity q c1) (similarity q c2) = true -> id c1 < id c2).
Proof.
  intros Hindex Hq Hids Hnan.
  eexists. split; [exact (retrieve_value w question k index w1 q w2 Hindex Hq)|].
  rewrite (ranking_without_nan q index Hnan).
  split; [reflexivity|].
  intros i j c1 c2 Hij Hi Hj.
  destruct (slice_to_prefix k (sort_reverse (similarity q) index)) as (n & Hn & _).
  rewrite Hn in Hi, Hj.
  apply lookup_take_Some in Hi as [Hi _]. apply lookup_take_Some in Hj as [Hj _].
  split.
  - apply no_nan_scores_Forall in Hnan.
    pose proof (sort_reverse_sorted (similarity q) index Hnan) as Hs.
    exact (sorted_lookup (similarity q) _ i j c1 c2 Hs Hij Hi Hj).
  - intros Heq.
    eapply (ties_keep_rank_order (similarity q) id index); try eassumption.
    + now apply ids_positions_sorted.
    + intros v. apply sort_reverse_stable.
Qed.

Lemma ties_in_index_order_witness :
  build_or_load_index false demo_world = (Ok demo_index, demo_world) /\
  _embed_text "cita" demo_world = (Ok [one; Float.zero], next_request demo_world) /\
  ids_are_positions demo_index /\
  no_nan_scores [one; Float.zero] demo_index = true /\
  exists top,
    _retrieve_relevant_chunks "cita" 3 demo_world = (Ok top, next_request demo_world) /\
    top = slice_to 3 (sort_reverse (similarity [one; Float.zero]) demo_index) /\
    forall (i j : nat) c1 c2,
      (i < j)%nat -> top !! i = Some c1 -> top !! j = Some c2 ->
      Float.leb (similarity [one; Float.zero] c2) (similarity [one; Float.zero] c1) = true /\
      (Float.eqb (similarity [one; Float.zero] c1) (similarity [one; Float.zero] c2) = true ->
       id c1 < id c2).
Proof.
  split; [reflexivity|]. split; [reflexivity|]. split; [reflexivity|].
  split; [vm_compute; reflexivity|].
  apply (ties_in_index_order demo_world "cita" 3 demo_index demo_world
           [one; Float.zero] (next_request demo_world)).
  - reflexivity.
  - reflexivity.
  - reflexivity.
  - vm_compute; reflexivity.
Defined.

(** With a NaN among the similarities, equal similarities do not keep the
    order of the index.  The similarities of [tie_index] are -1, -1, NaN,
    -1, -1, -1 and 0, and the chunks come back with the ids 1, 2, 6, 0, 3,
    4 and 5: the chunk 1 before the chunk 0. *)
Example tie_ranking :
  rbind (fst (_retrieve_relevant_chunks "q" 7 tie_world))
        (fun top => Ok (id <$> top))
  = Ok [1; 2; 6; 0; 3; 4; 5].
Proof. vm_compute. reflexivity. Qed.

Lemma nan_score_breaks_ties : ~ ties_by_id tie_world "q" 7.
Proof.
  intros H.
  specialize (H tie_index tie_world [Float.pow2 500] (next_request tie_world)
                (slice_to 7 (list_sort_reverse (similarity [Float.pow2 500]) tie_index))
                eq_refl eq_refl).
  assert (Htop : _retrieve_relevant_chunks "q" 7 tie_world
                 = (Ok (slice_to 7 (list_sort_reverse (similarity [Float.pow2 500])
                                      tie_index)),
                    next_request tie_world)).
  { apply (retrieve_value tie_world "q" 7 tie_index tie_world); reflexivity. }
  specialize (H Htop 0%nat 3%nat
                {| id := 1; text := "b"; embedding := [Float.neg_pow2 0] |}
                {| id := 0; text := "a"; embedding := [Float.neg_pow2 0] |}
                ltac:(lia)).
  assert (Hlt : 1 < 0); [|lia].
  apply H; vm_compute; reflexivity.
Qed.

(** The two chunks of similarity 1 come first, in the order of the index,
    and the chunk of similarity 0 last. *)
Example demo_ranking :
  fst (_retrieve_relevant_chunks "cita" 3 demo_world)
  = Ok [ {| id := 0; text := "pasaporte"; embedding := [one; Float.zero] |};
         {| id := 2; text := "cita"; embedding := [one; Float.zero] |};
         {| id := 1; text := "horario"; embedding := [Float.zero; one] |} ].
Proof. vm_compute. reflexivity. Qed.

(** ** The answer composer *)

Section Strip.

Lemma lstrip_spec (s : string) :
  exists l, s = l +:+ lstrip s /\ all_space l = true /\
            starts_with_space (lstrip s) = false.
Proof.
  induction s as [|c s (l & Hl & Hsp & Hst)].
  - exists "". repeat split.
  - cbn [lstrip]. destruct (isspace c) eqn:E.
    + exists (String c l). rewrite str_app_cons, <- Hl. cbn [all_space].
      now rewrite E, Hsp, Hst.
    + exists "". cbn [starts_with_space]. now rewrite E.
Qed.

Lemma rstrip_spec (s : string) :
  exists r, s = rstrip s +:+ r /\ all_space r = true /\
            ends_with_space (rstrip s) = false.
Proof.
  induction s as [|c s (r & Hr & Hsp & Hend)].
  - exists "". repeat split.
  - cbn [rstrip]. destruct (is_empty (rstrip s)) eqn:Ee.
    + destruct (rstrip s); [|discriminate].
      change ("" +:+ r) with r in Hr. subst r.
      destruct (isspace c) eqn:E; cbn [andb].
      * exists (String c s). cbn [all_space]. now rewrite E, Hsp.
      * exists s. cbn [ends_with_space]. now rewrite E.
    + cbn [andb]. exists r. rewrite str_app_cons, <- Hr.
      split; [reflexivity|]. split; [assumption|].
      destruct (rstrip s); [discriminate|]. exact Hend.
Qed.

Lemma rstrip_keeps_start (s : string) :
  starts_with_space s = false -> starts_with_space (rstrip s) = false.
Proof.
  destruct s as [|c s]; [reflexivity|]. cbn [starts_with_space rstrip].
  intros E. rewrite E, andb_false_r. exact E.
Qed.

(** [strip] removes a run of whitespace at each end and nothing else. *)
Lemma str_strip_spec (s : string) :
  exists l r,
    s = l +:+ str_strip s +:+ r /\
    all_space l = true /\ all_space r = true /\
    starts_with_space (str_strip s) = false /\
    ends_with_space (str_strip s) = false.
Proof.
  destruct (lstrip_spec s) as (l & Hl & Hlsp & Hstart).
  destruct (rstrip_spec (lstrip s)) as (r & Hr & Hrsp & Hend).
  exists l, r. unfold str_strip. rewrite <- Hr, <- Hl.
  repeat split; auto using rstrip_keeps_start.
Qed.

End Strip.

(** C8.  When the completion has no choice, the answer is the empty string
    and nothing is raised.  When it has one, the answer is the text of the
    first choice without the whitespace at its two ends. *)
Theorem answer_of_completion
    (w : world) (question : string) (k : Z)
    (top : list Chunk) (w1 : world) (completion : Completion) (w2 : world) :
  _retrieve_relevant_chunks question k w = (Ok top, w1) ->
  chat (chat_request question top) w1 = (Ok completion, w2) ->
  (choices completion = [] ->
   exists r, answer_question question k w = (Ok r, w2) /\ answer r = "") /\
  (forall choice others s,
     choices completion = choice :: others ->
     content (message choice) = Some s ->
     exists r before after,
       answer_question question k w = (Ok r, w2) /\
       answer r = str_strip s /\
       s = before +:+ answer r +:+ after /\
       all_space before = true /\ all_space after = true /\
       starts_with_space (answer r) = false /\
       ends_with_space (answer r) = false).
Proof.
  intros Htop Hchat. split.
  - intros Hnone. eexists. split.
    + unfold answer_question, bind, lift, ret, answer_text_of.
      rewrite Htop, Hchat, Hnone. reflexivity.
    + reflexivity.
  - intros choice others s Hsome Hcontent.
    destruct (str_strip_spec s) as (before & after & Hs & Hb & Ha & Hst & Hend).
    eexists. exists before, after. split.
    + unfold answer_question, bind, lift, ret, answer_text_of.
      rewrite Htop, Hchat, Hsome, Hcontent. reflexivity.
    + cbn [answer]. split; [reflexivity|]. split; [exact Hs|].
      split; [exact Hb|]. split; [exact Ha|]. split; [exact Hst | exact Hend].
Qed.

Lemma answer_of_completion_witness :
  let top := [ {| id := 0; text := "pasaporte"; embedding := [one; Float.zero] |} ] in
  let w1 := next_request demo_world in
  let w2 := next_request w1 in
  _retrieve_relevant_chunks "horario" 1 demo_world = (Ok top, w1) /\
  chat (chat_request "horario" top) w1 = (Ok demo_completion, w2) /\
  (choices demo_completion = [] ->
   exists r, answer_question "horario" 1 demo_world = (Ok r, w2) /\ answer r = "") /\
  (forall choice others s,
     choices demo_completion = choice :: others ->
     content (message choice) = Some s ->
     exists r before after,
       answer_question "horario" 1 demo_world = (Ok r, w2) /\
       answer r = str_strip s /\
       s = before +:+ answer r +:+ after /\
       all_space before = true /\ all_space after = true /\
       starts_with_space (answer r) = false /\
       ends_with_space (answer r) = false).
Proof.
  intros top w1 w2.
  split; [vm_compute; reflexivity|]. split; [reflexivity|].
  apply (answer_of_completion demo_world "horario" 1 top w1 demo_completion w2).
  - vm_compute; reflexivity.
  - reflexivity.
Defined.

(** ** More on the chunker *)

Section ChunkerInvariant.

Variables max_chars overlap : Z.

Lemma closed_chunk (cur : list string) :
  Forall (fun w => is_word w = true) cur -> cur <> [] ->
  str_strip (str_join " " cur) = str_join " " cur /\
  str_split (str_join " " cur) = cur.
Proof.
  intros Hw Hne. destruct (join_words cur Hw Hne) as (_ & Hr & Hl).
  split; [unfold str_strip; now rewrite Hl, Hr | now apply split_join].
Qed.

Lemma chunk_of_words_snoc (ws : list string) (w c : string) :
  chunk_of_words ws c -> chunk_of_words (ws ++ [w]) c.
Proof.
  intros (Hne & Hj & pre & post & ->). split; [exact Hne|]. split; [exact Hj|].
  exists pre, (post ++ [w]). now rewrite <- !app_assoc.
Qed.

Lemma overlap_seed_suffix (cur : list string) :
  overlap_seed overlap cur `suffix_of` cur.
Proof.
  destruct (overlap_seed_spec overlap cur) as (dropped & H & _).
  now exists dropped.
Qed.

(** What holds after any number of words: the buffer is made of the last
    words read, every closed chunk is cut out of the words read, and the
    words read are found, in order, in the closed chunks followed by the
    buffer. *)
Lemma chunker_run_invariant (ws : list string) :
  Forall (fun w => is_word w = true) ws ->
  current (chunker_run max_chars overlap ws) `suffix_of` ws /\
  (ws <> [] -> current (chunker_run max_chars overlap ws) <> []) /\
  Forall (chunk_of_words ws) (chunks (chunker_run max_chars overlap ws)) /\
  ws `sublist_of`
    concat (str_split <$> chunks (chunker_run max_chars overlap ws))
    ++ current (chunker_run max_chars overlap ws).
Proof.
  induction ws as [|w ws IH] using rev_ind; intros Hws.
  - cbn. repeat split; [apply suffix_nil | congruence | constructor | constructor].
  - apply Forall_app in Hws as [Hws Hw]. specialize (IH Hws).
    rewrite chunker_run_snoc. set (st := chunker_run max_chars overlap ws) in *.
    destruct IH as (Hsuf & Hne & Hch & Hsub).
    assert (Hcw : Forall (fun w => is_word w = true) (current st)).
    { destruct Hsuf as [k Hk]. rewrite Hk in Hws.
      now apply Forall_app in Hws as [_ ?]. }
    assert (Hch' : Forall (chunk_of_words (ws ++ [w])) (chunks st)).
    { eapply Forall_impl; [exact Hch|]. intros c. apply chunk_of_words_snoc. }
    unfold chunker_step. destruct (closes max_chars st w) eqn:Hclose.
    + assert (Hcur : current st <> []).
      { unfold closes in Hclose. apply andb_prop in Hclose as [_ Hn].
        destruct (current st); discriminate. }
      destruct (closed_chunk (current st) Hcw Hcur) as [Hstrip Hsplit].
      assert (Hseed : current (close_chunk overlap st) `suffix_of` current st).
      { unfold close_chunk. destruct (overlap >? 0); cbn.
        - apply overlap_seed_suffix.
        - apply suffix_nil. }
      assert (Hchunks : chunks (close_chunk overlap st)
                        = chunks st ++ [str_join " " (current st)]).
      { unfold close_chunk. rewrite Hstrip. now destruct (overlap >? 0). }
      cbn [chunks current]. rewrite Hchunks. repeat split.
      * apply suffix_app. now transitivity (current st).
      * intros _ H. now apply app_eq_nil in H as [_ ?].
      * apply Forall_app. split; [exact Hch'|]. constructor; [|constructor].
        unfold chunk_of_words. rewrite Hsplit.
        split; [exact Hcur|]. split; [reflexivity|].
        destruct Hsuf as [k Hk]. exists k, [w]. now rewrite app_assoc, <- Hk.
      * rewrite fmap_app, concat_app. cbn [fmap list_fmap concat].
        rewrite Hsplit, app_nil_r, <- app_assoc, (app_assoc _ (current st)).
        apply sublist_app; [exact Hsub|].
        apply sublist_inserts_l. reflexivity.
    + cbn [chunks current]. repeat split.
      * now apply suffix_app.
      * intros _ H. now apply app_eq_nil in H as [_ ?].
      * exact Hch'.
      * rewrite app_assoc. apply sublist_app; [exact Hsub | reflexivity].
Qed.

End ChunkerInvariant.

(** X1.  Every chunk is cut out of the text: its words are words of the
    text that follow each other there, joined by single spaces.  A chunk
    is never empty and has no whitespace at its ends. *)
Theorem chunks_are_runs_of_words (text : string) (max_chars overlap : Z) (c : string) :
  c ∈ _split_text_into_chunks text max_chars overlap ->
  chunk_of_words (str_split text) c /\
  str_strip c = c /\ is_empty c = false.
Proof.
  intros Hc.
  destruct (chunker_run_invariant max_chars overlap (str_split text)
              (str_split_words text)) as (Hsuf & _ & Hch & _).
  set (st := chunker_run max_chars overlap (str_split text)) in *.
  assert (Hcw : chunk_of_words (str_split text) c).
  { unfold _split_text_into_chunks, chunker_finish in Hc. fold st in Hc.
    rewrite Forall_forall in Hch.
    destruct (current st) as [|w cur] eqn:Ec; cbn [nonempty] in Hc; [now apply Hch|].
    apply elem_of_app in Hc as [Hc|Hc]; [now apply Hch|].
    apply list_elem_of_singleton in Hc.
    assert (Hw : Forall (fun w => is_word w = true) (w :: cur)).
    { destruct Hsuf as [k Hk]. pose proof (str_split_words text) as H.
      rewrite Hk in H. now apply Forall_app in H as [_ ?]. }
    destruct (closed_chunk (w :: cur) Hw) as [Hstrip Hsplit]; [discriminate|].
    rewrite Hstrip in Hc. subst c. unfold chunk_of_words. rewrite Hsplit.
    split; [discriminate|]. split; [reflexivity|].
    destruct Hsuf as [k Hk]. exists k, []. now rewrite app_nil_r. }
  split; [exact Hcw|].
  destruct Hcw as (Hne & Hj & pre & post & Hws).
  assert (Hw : Forall (fun w => is_word w = true) (str_split c)).
  { pose proof (str_split_words text) as H. rewrite Hws in H.
    apply Forall_app in H as [_ H]. now apply Forall_app in H as [? _]. }
  destruct (join_words (str_split c) Hw Hne) as (He & Hr & Hl).
  rewrite <- Hj in *. split; [|exact He].
  unfold str_strip. now rewrite Hl, Hr.
Qed.

Lemma chunks_are_runs_of_words_witness :
  "que tal" ∈ _split_text_into_chunks "  hola  que tal   amigo mio " 8 4 /\
  chunk_of_words (str_split "  hola  que tal   amigo mio ") "que tal" /\
  str_strip "que tal" = "que tal" /\ is_empty "que tal" = false.
Proof.
  assert (Hc : "que tal" ∈ _split_text_into_chunks "  hola  que tal   amigo mio " 8 4).
  { vm_compute. apply list_elem_of_further, list_elem_of_here. }
  split; [exact Hc|].
  exact (chunks_are_runs_of_words "  hola  que tal   amigo mio " 8 4 "que tal" Hc).
Defined.

(** X2.  No word is lost, whatever [max_chars] and [overlap] are: the
    words of the text are found, in their order, in the words of the
    chunks one after the other.  The list of chunks is empty exactly when
    the text has no word. *)
Theorem chunks_keep_every_word (text : string) (max_chars overlap : Z) :
  str_split text `sublist_of`
    concat (str_split <$> _split_text_into_chunks text max_chars overlap) /\
  (_split_text_into_chunks text max_chars overlap = [] <-> str_split text = []).
Proof.
  destruct (chunker_run_invariant max_chars overlap (str_split text)
              (str_split_words text)) as (Hsuf & Hne & _ & Hsub).
  set (st := chunker_run max_chars overlap (str_split text)) in *.
  assert (Hcw : Forall (fun w => is_word w = true) (current st)).
  { destruct Hsuf as [k Hk]. pose proof (str_split_words text) as H.
    rewrite Hk in H. now apply Forall_app in H as [_ ?]. }
  unfold _split_text_into_chunks, chunker_finish. fold st.
  destruct (current st) as [|w cur] eqn:Ec; cbn [nonempty].
  - rewrite app_nil_r in Hsub. split; [exact Hsub|]. split.
    + intros _. destruct (str_split text); [reflexivity|].
      exfalso. now apply Hne.
    + intros H. unfold st, chunker_run. now rewrite H.
  - split.
    + rewrite fmap_app, concat_app. cbn [fmap list_fmap concat].
      destruct (closed_chunk (w :: cur) Hcw) as [-> ->]; [discriminate|].
      now rewrite app_nil_r.
    + split.
      * intros H. now apply app_eq_nil in H as [_ ?].
      * intros H. unfold st, chunker_run in Ec. rewrite H in Ec. discriminate.
Qed.

Section ChunkLengths.

Lemma len_append (a b : string) : len (a +:+ b) = len a + len b.
Proof.
  unfold len. induction a as [|c a IH]; [change ("" +:+ b) with b; cbn; lia|].
  rewrite str_app_cons. cbn [String.length]. lia.
Qed.

Lemma len_nonneg (s : string) : 0 <= len s.
Proof. unfold len. lia. Qed.

Lemma str_join_snoc (sep : string) (cur : list string) (w : string) :
  cur <> [] -> str_join sep (cur ++ [w]) = str_join sep cur +:+ sep +:+ w.
Proof.
  induction cur as [|x cur IH]; [congruence|]. intros _.
  destruct cur as [|y cur]; [reflexivity|].
  change (str_join sep ((x :: y :: cur) ++ [w]))
    with (x +:+ sep +:+ str_join sep ((y :: cur) ++ [w])).
  rewrite IH by discriminate.
  change (str_join sep (x :: y :: cur)) with (x +:+ sep +:+ str_join sep (y :: cur)).
  now rewrite !str_app_assoc.
Qed.

Lemma len_join_snoc (cur : list string) (w : string) :
  len (str_join " " (cur ++ [w]))
  = len (str_join " " cur) + len w + (if nonempty cur then 1 else 0).
Proof.
  destruct cur as [|x cur]; [cbn [app str_join nonempty]; change (len "") with 0; lia|].
  rewrite str_join_snoc by discriminate. rewrite !len_append.
  cbn [nonempty]. change (len " ") with 1. lia.
Qed.

Lemma overlap_len_join (ws : list string) :
  ws <> [] -> overlap_len ws = len (str_join " " ws) + 1.
Proof.
  induction ws as [|x ws IH]; [congruence|]. intros _.
  rewrite overlap_len_cons. destruct ws as [|y ws]; [cbn; lia|].
  rewrite IH by discriminate.
  change (str_join " " (x :: y :: ws)) with (x +:+ " " +:+ str_join " " (y :: ws)).
  rewrite !len_append. change (len " ") with 1. lia.
Qed.

Variables max_chars overlap : Z.

(** The counter of the chunker is never below the length of the joined
    buffer. *)
Lemma current_len_bound (ws : list string) :
  len (str_join " " (current (chunker_run max_chars overlap ws)))
  <= current_len (chunker_run max_chars overlap ws).
Proof.
  induction ws as [|w ws IH] using rev_ind; [reflexivity|].
  rewrite chunker_run_snoc. set (st := chunker_run max_chars overlap ws) in *.
  unfold chunker_step. cbn [current current_len].
  rewrite len_join_snoc. unfold add_len.
  destruct (closes max_chars st w) eqn:Hclose.
  - assert (Hcur : nonempty (current st) = true).
    { unfold closes in Hclose. now apply andb_prop in Hclose as [_ ?]. }
    rewrite Hcur. unfold close_chunk. destruct (overlap >? 0); cbn [current current_len].
    + destruct (overlap_seed overlap (current st)) as [|x seed] eqn:Es.
      * cbn. change (len "") with 0. pose proof (len_nonneg w). lia.
      * rewrite overlap_len_join by discriminate. cbn [nonempty]. lia.
    + cbn. change (len "") with 0. lia.
  - destruct (current st); cbn [nonempty] in *; lia.
Qed.

End ChunkLengths.

Section FittingText.

Variables max_chars overlap : Z.

(** As long as the words read fit, nothing is closed. *)
Lemma chunker_run_fits (ws : list string) :
  len (str_join " " ws) <= max_chars ->
  chunker_run max_chars overlap ws
  = {| chunks := []; current := ws; current_len := len (str_join " " ws) |}.
Proof.
  induction ws as [|w ws IH] using rev_ind; [reflexivity|]. intros Hfit.
  rewrite len_join_snoc in Hfit.
  assert (Hpre : len (str_join " " ws) <= max_chars).
  { pose proof (len_nonneg w). destruct (nonempty ws); lia. }
  rewrite chunker_run_snoc, IH by exact Hpre.
  unfold chunker_step, closes, add_len. cbn [current current_len chunks].
  assert (Hno : (len (str_join " " ws) + (len w + (if nonempty ws then 1 else 0))
                 >? max_chars) = false) by lia.
  rewrite Hno. cbn [andb chunks current current_len].
  rewrite len_join_snoc. f_equal. lia.
Qed.

End FittingText.

(** X3.  A text whose words, joined by single spaces, fit in [max_chars]
    makes one chunk, which is these words joined; so does a text of one
    word, however long the word is. *)
Theorem text_that_fits_is_one_chunk (text : string) (max_chars overlap : Z) :
  str_split text <> [] ->
  len (str_join " " (str_split text)) <= max_chars \/ length (str_split text) = 1%nat ->
  _split_text_into_chunks text max_chars overlap = [str_join " " (str_split text)].
Proof.
  intros Hne Hfit.
  assert (Hrun : current (chunker_run max_chars overlap (str_split text)) = str_split text
                 /\ chunks (chunker_run max_chars overlap (str_split text)) = []).
  { destruct Hfit as [Hfit|Hone].
    - now rewrite chunker_run_fits.
    - destruct (str_split text) as [|w [|? ?]]; try discriminate.
      unfold chunker_run. cbn [fold_left]. unfold chunker_step, closes.
      cbn [current chunker_init nonempty]. rewrite andb_false_r. split; reflexivity. }
  destruct Hrun as [Hcur Hch].
  unfold _split_text_into_chunks, chunker_finish. rewrite Hcur, Hch.
  destruct (str_split text) as [|w ws] eqn:E; [congruence|]. cbn [nonempty app].
  pose proof (str_split_words text) as Hw. rewrite E in Hw.
  destruct (join_words (w :: ws) Hw) as (_ & Hr & Hl); [discriminate|].
  unfold str_strip. now rewrite Hl, Hr.
Qed.

Lemma text_that_fits_is_one_chunk_witness :
  str_split "  hola   que tal " <> [] /\
  (len (str_join " " (str_split "  hola   que tal ")) <= 12
   \/ length (str_split "  hola   que tal ") = 1%nat) /\
  _split_text_into_chunks "  hola   que tal " 12 100
  = [str_join " " (str_split "  hola   que tal ")].
Proof.
  split; [discriminate|]. split; [left; vm_compute; discriminate|].
  apply (text_that_fits_is_one_chunk "  hola   que tal " 12 100).
  - discriminate.
  - left. vm_compute. discriminate.
Defined.

Section ChunkBound.

Variables max_chars overlap : Z.

Lemma len_strip_le (s : string) : len (str_strip s) <= len s.
Proof.
  destruct (str_strip_spec s) as (l & r & Hs & _).
  rewrite Hs at 2. rewrite !len_append.
  pose proof (len_nonneg l). pose proof (len_nonneg r). lia.
Qed.

(** The buffer holds words of the text only. *)
Lemma current_Forall (P : string -> Prop) (ws : list string) :
  Forall P ws -> Forall P (current (chunker_run max_chars overlap ws)).
Proof.
  induction ws as [|w ws IH] using rev_ind; intros Hws; [constructor|].
  apply Forall_app in Hws as [Hws Hw]. specialize (IH Hws).
  rewrite chunker_run_snoc. set (st := chunker_run max_chars overlap ws) in *.
  unfold chunker_step. cbn [current]. apply Forall_app. split; [|exact Hw].
  destruct (closes max_chars st w); [|exact IH].
  unfold close_chunk. destruct (overlap >? 0); cbn [current]; [|constructor].
  destruct (overlap_seed_spec overlap (current st)) as (dropped & Hd & _).
  rewrite Hd in IH. now apply Forall_app in IH as [_ ?].
Qed.

Variable L : Z.

Lemma chunker_run_bound (ws : list string) :
  Forall (fun w => len w <= L) ws ->
  (current (chunker_run max_chars overlap ws) <> [] ->
   len (str_join " " (current (chunker_run max_chars overlap ws)))
     <= Z.max max_chars (Z.max 0 overlap + 2 * L)) /\
  Forall (fun c => len c <= Z.max max_chars (Z.max 0 overlap + 2 * L))
         (chunks (chunker_run max_chars overlap ws)).
Proof.
  induction ws as [|w ws IH] using rev_ind; intros Hws.
  - split; [intros H; now elim H | constructor].
  - apply Forall_app in Hws as [Hws Hw]. destruct (IH Hws) as [Hcur Hch].
    apply Forall_inv in Hw. pose proof (len_nonneg w) as Hw0.
    pose proof (current_len_bound max_chars overlap ws) as Hlen.
    pose proof (current_Forall (fun w => len w <= L) ws Hws) as HcL.
    rewrite chunker_run_snoc. set (st := chunker_run max_chars overlap ws) in *.
    unfold chunker_step. cbn [current chunks]. rewrite len_join_snoc.
    destruct (closes max_chars st w) eqn:Hclose.
    + assert (Hne : current st <> []).
      { unfold closes in Hclose. apply andb_prop in Hclose as [_ Hn].
        destruct (current st); discriminate. }
      specialize (Hcur Hne).
      assert (Hchunk : len (str_strip (str_join " " (current st)))
                       <= Z.max max_chars (Z.max 0 overlap + 2 * L)).
      { pose proof (len_strip_le (str_join " " (current st))). lia. }
      unfold close_chunk. destruct (overlap >? 0) eqn:Eo; cbn [current chunks].
      * split; [|apply Forall_app; split; [exact Hch | now repeat constructor]].
        intros _.
        destruct (overlap_seed_spec overlap (current st)) as (dropped & Hd & _ & Hlast).
        pose proof (overlap_seed_nonempty overlap (current st) ltac:(lia) Hne) as Hs.
        destruct (overlap_seed overlap (current st)) as [|x rest] eqn:Es; [congruence|].
        specialize (Hlast x rest eq_refl).
        assert (Hx : len x <= L).
        { rewrite Hd in HcL. apply Forall_app in HcL as [_ HcL].
          now apply Forall_inv in HcL. }
        pose proof (overlap_len_join (x :: rest) ltac:(discriminate)) as Hj.
        rewrite overlap_len_cons in Hj. cbn [nonempty]. lia.
      * split; [|apply Forall_app; split; [exact Hch | now repeat constructor]].
        intros _. cbn [nonempty]. change (len (str_join " " [])) with 0. lia.
    + split; [|exact Hch]. intros _.
      unfold closes, add_len in Hclose.
      destruct (current st) as [|x cur] eqn:Ec; cbn [nonempty] in *.
      * change (len (str_join " " [])) with 0. lia.
      * rewrite andb_true_r in Hclose.
        specialize (Hcur ltac:(discriminate)). lia.
Qed.

End ChunkBound.

(** X4.  When no word of the text is longer than [L], no chunk is longer
    than [max_chars] or than the overlap and two words,
    [max 0 overlap + 2 * L], whichever is larger. *)
Theorem chunk_length_bound (text : string) (max_chars overlap L : Z) (c : string) :
  (forall w, w ∈ str_split text -> len w <= L) ->
  c ∈ _split_text_into_chunks text max_chars overlap ->
  len c <= Z.max max_chars (Z.max 0 overlap + 2 * L).
Proof.
  intros HL Hc. apply Forall_forall in HL.
  destruct (chunker_run_bound max_chars overlap L (str_split text) HL) as [Hcur Hch].
  unfold _split_text_into_chunks, chunker_finish in Hc.
  rewrite Forall_forall in Hch.
  set (st := chunker_run max_chars overlap (str_split text)) in *.
  destruct (current st) as [|x cur] eqn:Ec; cbn [nonempty] in Hc; [now apply Hch|].
  apply elem_of_app in Hc as [Hc|Hc]; [now apply Hch|].
  apply list_elem_of_singleton in Hc. subst c.
  pose proof (len_strip_le (str_join " " (x :: cur))).
  specialize (Hcur ltac:(discriminate)). lia.
Qed.

Lemma chunk_length_bound_witness :
  (forall w, w ∈ str_split "aaa bbb ccc" -> len w <= 3) /\
  "aaa bbb ccc" ∈ _split_text_into_chunks "aaa bbb ccc" 7 5 /\
  len "aaa bbb ccc" <= Z.max 7 (Z.max 0 5 + 2 * 3).
Proof.
  assert (H : forall w, w ∈ str_split "aaa bbb ccc" -> len w <= 3).
  { intros w Hw. vm_compute in Hw.
    repeat (apply elem_of_cons in Hw as [->|Hw]; [vm_compute; discriminate|]).
    now apply elem_of_nil in Hw. }
  assert (Hc : "aaa bbb ccc" ∈ _split_text_into_chunks "aaa bbb ccc" 7 5).
  { vm_compute. apply list_elem_of_further, list_elem_of_here. }
  split; [exact H|]. split; [exact Hc|].
  exact (chunk_length_bound "aaa bbb ccc" 7 5 3 "aaa bbb ccc" H Hc).
Defined.

Section NoOverlapBound.

Variables max_chars overlap : Z.
Hypothesis no_overlap : overlap <= 0.

Lemma chunker_run_no_overlap (ws : list string) :
  Forall (fun w => is_word w = true) ws ->
  (current_len (chunker_run max_chars overlap ws) <= max_chars
   \/ (length (current (chunker_run max_chars overlap ws)) <= 1)%nat) /\
  Forall (fun c => len c <= max_chars \/ length (str_split c) = 1%nat)
         (chunks (chunker_run max_chars overlap ws)).
Proof.
  induction ws as [|w ws IH] using rev_ind; intros Hws.
  - split; [right; cbn; lia | constructor].
  - apply Forall_app in Hws as [Hws Hw]. destruct (IH Hws) as [Hcur Hch].
    pose proof (current_len_bound max_chars overlap ws) as Hlen.
    pose proof (current_Forall max_chars overlap (fun w => is_word w = true) ws Hws) as Hcw.
    rewrite chunker_run_snoc. set (st := chunker_run max_chars overlap ws) in *.
    unfold chunker_step. cbn [current chunks current_len].
    destruct (closes max_chars st w) eqn:Hclose.
    + assert (Hne : current st <> []).
      { unfold closes in Hclose. apply andb_prop in Hclose as [_ Hn].
        destruct (current st); discriminate. }
      unfold close_chunk. destruct (overlap >? 0) eqn:Eo; [lia|]. cbn [current chunks].
      split; [right; cbn; lia|].
      apply Forall_app. split; [exact Hch|]. constructor; [|constructor].
      destruct (closed_chunk (current st) Hcw Hne) as [-> Hsplit]. rewrite Hsplit.
      destruct Hcur as [Hcur|Hcur]; [left; lia|].
      right. destruct (current st) as [|x [|y cur]]; cbn in *; try lia. congruence.
    + split; [|exact Hch].
      unfold closes, add_len in *.
      destruct (current st) as [|x cur] eqn:Ec; cbn [nonempty] in *.
      * right. cbn. lia.
      * left. rewrite andb_true_r in Hclose. lia.
Qed.

End NoOverlapBound.

(** X5.  Without overlap, a chunk is longer than [max_chars] only when it
    is one word. *)
Theorem chunk_within_max_chars (text : string) (max_chars overlap : Z) (c : string) :
  overlap <= 0 ->
  c ∈ _split_text_into_chunks text max_chars overlap ->
  len c <= max_chars \/ length (str_split c) = 1%nat.
Proof.
  intros Ho Hc.
  pose proof (str_split_words text) as Hws.
  destruct (chunker_run_no_overlap max_chars overlap Ho (str_split text) Hws)
    as [Hcur Hch].
  pose proof (current_len_bound max_chars overlap (str_split text)) as Hlen.
  pose proof (current_Forall max_chars overlap (fun w => is_word w = true) _ Hws) as Hcw.
  unfold _split_text_into_chunks, chunker_finish in Hc.
  rewrite Forall_forall in Hch.
  set (st := chunker_run max_chars overlap (str_split text)) in *.
  destruct (current st) as [|x cur] eqn:Ec; cbn [nonempty] in Hc; [now apply Hch|].
  apply elem_of_app in Hc as [Hc|Hc]; [now apply Hch|].
  apply list_elem_of_singleton in Hc. subst c.
  destruct (closed_chunk (x :: cur) Hcw) as [-> Hsplit]; [discriminate|].
  rewrite Hsplit. destruct Hcur as [Hcur|Hcur]; [left; lia|].
  right. destruct cur; cbn in *; [reflexivity | lia].
Qed.

Lemma chunk_within_max_chars_witness :
  0 <= 0 /\
  "hola que" ∈ _split_text_into_chunks "  hola  que tal   amigo mio " 8 0 /\
  (len "hola que" <= 8 \/ length (str_split "hola que") = 1%nat).
Proof.
  assert (Hc : "hola que" ∈ _split_text_into_chunks "  hola  que tal   amigo mio " 8 0).
  { vm_compute. apply list_elem_of_here. }
  split; [lia|]. split; [exact Hc|].
  exact (chunk_within_max_chars "  hola  que tal   amigo mio " 8 0 "hola que"
           ltac:(lia) Hc).
Defined.

Section ChunkOverlap.

Variables max_chars overlap : Z.
Hypothesis overlap_positive : 0 < overlap.

Lemma lookup_snoc_pair {A : Type} (l : list A) (x a b : A) (i : nat) :
  (l ++ [x]) !! i = Some a -> (l ++ [x]) !! S i = Some b ->
  (l !! i = Some a /\ l !! S i = Some b) \/ (last l = Some a /\ b = x).
Proof.
  intros Ha Hb.
  pose proof (lookup_lt_Some _ _ _ Hb) as Hlen. rewrite length_app in Hlen.
  cbn [length] in Hlen.
  rewrite lookup_app_l in Ha by lia.
  destruct (decide (S i < length l)%nat) as [Hin|Hout].
  - left. rewrite lookup_app_l in Hb by lia. now split.
  - right. assert (S i = length l) as Hi by lia.
    rewrite lookup_app_r, Hi, Nat.sub_diag in Hb by lia. injection Hb as <-.
    split; [|reflexivity]. rewrite last_lookup, <- Hi. exact Ha.
Qed.

(** What holds after any number of words: two chunks that follow each
    other overlap, and the buffer starts with the last words of the last
    chunk and has at least one word more. *)
Lemma chunker_run_overlap (ws : list string) :
  Forall (fun w => is_word w = true) ws ->
  (forall (i : nat) c1 c2,
     chunks (chunker_run max_chars overlap ws) !! i = Some c1 ->
     chunks (chunker_run max_chars overlap ws) !! S i = Some c2 ->
     overlaps overlap c1 c2) /\
  (forall c,
     last (chunks (chunker_run max_chars overlap ws)) = Some c ->
     exists seed rest,
       seed <> [] /\ rest <> [] /\
       seed `suffix_of` str_split c /\
       current (chunker_run max_chars overlap ws) = seed ++ rest /\
       (seed = str_split c \/ overlap <= overlap_len seed)).
Proof.
  induction ws as [|w ws IH] using rev_ind; intros Hws.
  - split; [intros i c1 c2 H; cbn in H; now rewrite lookup_nil in H | discriminate].
  - apply Forall_app in Hws as [Hws Hw]. destruct (IH Hws) as [Hpairs Hlast].
    pose proof (current_Forall max_chars overlap (fun w => is_word w = true) ws Hws)
      as Hcw.
    rewrite chunker_run_snoc. set (st := chunker_run max_chars overlap ws) in *.
    unfold chunker_step. cbn [chunks current].
    destruct (closes max_chars st w) eqn:Hclose.
    + assert (Hne : current st <> []).
      { unfold closes in Hclose. apply andb_prop in Hclose as [_ Hn].
        destruct (current st); discriminate. }
      destruct (closed_chunk (current st) Hcw Hne) as [Hstrip Hsplit].
      unfold close_chunk. destruct (Z.gtb_spec overlap 0) as [_|Hno]; [|lia].
      cbn [chunks current]. rewrite Hstrip. split.
      * intros i c1 c2 H1 H2.
        destruct (lookup_snoc_pair _ _ _ _ _ H1 H2) as [[Ha Hb]|[Ha ->]];
          [now apply (Hpairs i)|].
        destruct (Hlast c1 Ha) as (seed & rest & Hs & Hr & Hsuf & Hcur & Hreach).
        exists seed, rest. rewrite Hsplit. now repeat split.
      * intros c Hc. rewrite last_snoc in Hc. injection Hc as <-.
        destruct (overlap_seed_spec overlap (current st)) as (dropped & Hd & Hstop & _).
        exists (overlap_seed overlap (current st)), [w]. rewrite Hsplit.
        split; [now apply overlap_seed_nonempty|]. split; [discriminate|].
        split; [now exists dropped|]. split; [reflexivity|].
        destruct Hstop as [->|Hstop]; [left; symmetry; exact Hd | right; exact Hstop].
    + split; [exact Hpairs|]. intros c Hc.
      destruct (Hlast c Hc) as (seed & rest & Hs & Hr & Hsuf & Hcur & Hreach).
      exists seed, (rest ++ [w]). rewrite Hcur, <- app_assoc.
      repeat split; try assumption. intros H. now apply app_eq_nil in H as [_ ?].
Qed.

End ChunkOverlap.

(** X6.  With a positive [overlap], two chunks that follow each other
    overlap: the second one starts with the last words of the first one,
    at least one of them, and goes on with at least one more word; the
    words repeated are the whole first chunk, or reach [overlap] when
    each is counted with one space. *)
Theorem consecutive_chunks_overlap
    (text : string) (max_chars overlap : Z) (i : nat) (c1 c2 : string) :
  0 < overlap ->
  _split_text_into_chunks text max_chars overlap !! i = Some c1 ->
  _split_text_into_chunks text max_chars overlap !! S i = Some c2 ->
  overlaps overlap c1 c2.
Proof.
  intros Ho. pose proof (str_split_words text) as Hws.
  destruct (chunker_run_overlap max_chars overlap Ho (str_split text) Hws)
    as [Hpairs Hlast].
  pose proof (current_Forall max_chars overlap (fun w => is_word w = true) _ Hws) as Hcw.
  unfold _split_text_into_chunks, chunker_finish.
  set (st := chunker_run max_chars overlap (str_split text)) in *.
  destruct (current st) as [|x cur] eqn:Ec; cbn [nonempty]; [apply Hpairs|].
  intros H1 H2.
  destruct (lookup_snoc_pair _ _ _ _ _ H1 H2) as [[Ha Hb]|[Ha ->]];
    [now apply (Hpairs i)|].
  destruct (Hlast c1 Ha) as (seed & rest & Hs & Hr & Hsuf & Hcur & Hreach).
  destruct (closed_chunk (x :: cur) Hcw) as [-> Hsplit]; [discriminate|].
  exists seed, rest. rewrite Hsplit. now repeat split.
Qed.

Lemma consecutive_chunks_overlap_witness :
  0 < 4 /\
  _split_text_into_chunks "  hola  que tal   amigo mio " 8 4 !! 0%nat = Some "hola que" /\
  _split_text_into_chunks "  hola  que tal   amigo mio " 8 4 !! 1%nat = Some "que tal" /\
  overlaps 4 "hola que" "que tal".
Proof.
  split; [lia|]. split; [reflexivity|]. split; [reflexivity|].
  apply (consecutive_chunks_overlap "  hola  que tal   amigo mio " 8 4 0);
    [lia | reflexivity | reflexivity].
Defined.

(** ** More on the similarity *)

Lemma float_mul_comm (x y : float) : Float.mul x y = Float.mul y x.
Proof.
  destruct x as [sx|sx| |sx mx ex], y as [sy|sy| |sy my ey];
    unfold Float.mul; cbn [SFmul]; try reflexivity;
    rewrite ?(xorb_comm sx sy); try reflexivity.
  now rewrite (Pos.mul_comm mx my), (Z.add_comm ex ey).
Qed.

Lemma zip_mul_comm (a b : list float) : zip_mul a b = zip_mul b a.
Proof.
  revert b. induction a as [|x a IH]; intros [|y b]; cbn [zip_mul]; try reflexivity.
  now rewrite float_mul_comm, IH.
Qed.

(** X7.  The similarity does not depend on the order of its two
    arguments: the two calls return the same float. *)
Theorem cosine_similarity_symmetric (a b : list float) :
  _cosine_similarity a b = _cosine_similarity b a.
Proof.
  destruct (norm_returns a) as (na & Ha & _).
  destruct (norm_returns b) as (nb & Hb & _).
  unfold _cosine_similarity. rewrite Ha, Hb. cbn [rbind].
  now rewrite zip_mul_comm, (float_mul_comm na nb), orb_comm.
Qed.

(** ** More on the index store *)

Section StoreRuns.

(** The loop on replies that are all there: one chunk for each text, in
    order, each with the vector of its own request. *)
Lemma embed_chunks_run (ts : list string) (i : Z) (index : list Chunk) (w : world) :
  (forall (n : nat) t, ts !! n = Some t ->
     exists v, embed_reply w (requests w + n) t = Ok v) ->
  exists new w',
    embed_chunks i ts index w = (Ok (index ++ new), w') /\
    text <$> new = ts /\
    (forall (n : nat) c, new !! n = Some c ->
       embed_reply w (requests w + n) (text c) = Ok (embedding c)) /\
    same_store w w' /\
    requests w' = (requests w + length ts)%nat.
Proof.
  revert i index w. induction ts as [|t ts IH]; intros i index w Hok.
  - exists [], w. rewrite app_nil_r. cbn.
    repeat split; try reflexivity; [intros n c Hn; now rewrite lookup_nil in Hn | lia].
  - cbn [embed_chunks]. unfold bind. rewrite embed_text_run.
    destruct (Hok 0%nat t eq_refl) as [v Hv]. rewrite Nat.add_0_r in Hv. rewrite Hv.
    destruct (IH (i + 1) (index ++ [{| id := i; text := t; embedding := v |}])
                (next_request w)) as (new & w' & Hrun & Ht & Hemb & Hst & Hreq).
    { intros n t' Hn. rewrite embed_reply_next.
      change (requests (next_request w)) with (S (requests w)).
      replace (S (requests w) + n)%nat with (requests w + S n)%nat by lia.
      now apply Hok. }
    exists ({| id := i; text := t; embedding := v |} :: new), w'.
    split; [now rewrite <- app_assoc in Hrun|]. split; [cbn; now f_equal|]. split.
    + intros [|n] c Hn.
      * injection Hn as <-. cbn. now rewrite Nat.add_0_r.
      * specialize (Hemb n c Hn). rewrite embed_reply_next in Hemb.
        change (requests (next_request w)) with (S (requests w)) in Hemb.
        now replace (requests w + S n)%nat with (S (requests w) + n)%nat by lia.
    + split.
      * destruct Hst as (? & ? & ? & ? & ?). repeat split; assumption.
      * rewrite Hreq. change (requests (next_request w)) with (S (requests w)).
        cbn [length]. lia.
Qed.

End StoreRuns.

(** X8.  A build whose provider answers every request returns one chunk
    for each chunk of the knowledge text, in order, numbered from 0, each
    with the vector of its own request; it sends one request for each
    chunk, and leaves the index in the cache and in the index file. *)
Theorem build_embeds_every_chunk (w : world) (force : bool) (knowledge : string) :
  (_index_cache w = None \/ force = true) ->
  (index_file w = None \/ force = true) ->
  knowledge_file w = Some knowledge ->
  (forall (n : nat) t, _split_text_into_chunks knowledge 800 100 !! n = Some t ->
     exists v, embed_reply w (requests w + n) t = Ok v) ->
  exists index w',
    build_or_load_index force w = (Ok index, w') /\
    text <$> index = _split_text_into_chunks knowledge 800 100 /\
    ids_are_positions index /\
    (forall (n : nat) c, index !! n = Some c ->
       embed_reply w (requests w + n) (text c) = Ok (embedding c)) /\
    requests w' = (requests w + length index)%nat /\
    _index_cache w' = Some index /\
    index_file w' = Some (json_dumps (serializable index)) /\
    knowledge_file w' = Some knowledge.
Proof.
  intros Hc Hf Hk Hok.
  destruct (embed_chunks_run _ 0 [] w Hok)
    as (index & w1 & Hrun & Ht & Hemb & (_ & _ & Hk1 & _) & Hreq).
  cbn [app] in Hrun.
  assert (Hb : build_index w
               = (Ok index,
                  snd (set_index_cache index
                    (snd (write_index_file (json_dumps (serializable index)) w1))))).
  { unfold build_index, bind, _load_knowledge_text, raise, ret.
    rewrite Hk, Hrun. reflexivity. }
  eexists index, _. rewrite build_branch by assumption.
  split; [exact Hb|]. split; [exact Ht|]. split; [exact (built_index_ids _ _ _ Hb)|].
  split; [exact Hemb|]. cbn. rewrite Hreq, Hk1, <- Ht, length_fmap.
  repeat split; assumption.
Qed.

Lemma build_embeds_every_chunk_witness :
  exists index w',
    build_or_load_index false knowledge_world = (Ok index, w') /\
    text <$> index = _split_text_into_chunks "hola que tal" 800 100 /\
    ids_are_positions index /\
    (forall (n : nat) c, index !! n = Some c ->
       embed_reply knowledge_world (requests knowledge_world + n) (text c)
       = Ok (embedding c)) /\
    requests w' = (requests knowledge_world + length index)%nat /\
    _index_cache w' = Some index /\
    index_file w' = Some (json_dumps (serializable index)) /\
    knowledge_file w' = Some "hola que tal".
Proof.
  apply (build_embeds_every_chunk knowledge_world false "hola que tal").
  - left; reflexivity.
  - left; reflexivity.
  - reflexivity.
  - intros n t _. exists [one]. reflexivity.
Defined.

(** X9.  Once a call has returned an index, an unforced call returns the
    same index and changes nothing: no file is read and no request is
    sent.  A retrieval then sends the one request that embeds the
    question, and passes on its error if it fails; otherwise it returns
    chunks of that index, none more often than it is there, and, when no
    similarity is NaN, the first [k] of the index in descending order of
    similarity, equal similarities in the order of the index. *)
Theorem cached_index_is_reused (force : bool) (w w1 : world) (index : list Chunk) :
  build_or_load_index force w = (Ok index, w1) ->
  build_or_load_index false w1 = (Ok index, w1) /\
  forall question k,
    snd (_retrieve_relevant_chunks question k w1) = next_request w1 /\
    (forall e,
       embed_reply w1 (requests w1) question = Raise e ->
       fst (_retrieve_relevant_chunks question k w1) = Raise e) /\
    (forall q,
       embed_reply w1 (requests w1) question = Ok q ->
       exists top,
         fst (_retrieve_relevant_chunks question k w1) = Ok top /\
         top ⊆+ index /\
         (no_nan_scores q index = true ->
          top = slice_to k (sort_reverse (similarity q) index))).
Proof.
  intros H. apply returned_index_is_cached in H.
  assert (Hhit : build_or_load_index false w1 = (Ok index, w1)).
  { unfold build_or_load_index. now rewrite H. }
  split; [exact Hhit|]. intros question k.
  unfold _retrieve_relevant_chunks, bind, lift. rewrite Hhit, embed_text_run.
  destruct (embed_reply w1 (requests w1) question) as [q|e]; cbn [fst snd].
  - split; [reflexivity|]. split; [discriminate|].
    intros q' Hq'. injection Hq' as <-. rewrite rank_chunks_value.
    eexists. split; [reflexivity|]. split.
    + destruct (slice_to_prefix k (list_sort_reverse (similarity q) index))
        as (n & -> & _).
      rewrite <- (list_sort_reverse_perm (similarity q) index) at 2.
      apply sublist_submseteq, sublist_take.
    + intros Hnan. now rewrite (ranking_without_nan q index Hnan).
  - split; [reflexivity|]. split; [|discriminate].
    intros e' He'. now injection He' as <-.
Qed.

Lemma cached_index_is_reused_witness :
  build_or_load_index false demo_world = (Ok demo_index, demo_world) /\
  build_or_load_index false demo_world = (Ok demo_index, demo_world) /\
  forall question k,
    snd (_retrieve_relevant_chunks question k demo_world) = next_request demo_world /\
    (forall e,
       embed_reply demo_world (requests demo_world) question = Raise e ->
       fst (_retrieve_relevant_chunks question k demo_world) = Raise e) /\
    (forall q,
       embed_reply demo_world (requests demo_world) question = Ok q ->
       exists top,
         fst (_retrieve_relevant_chunks question k demo_world) = Ok top /\
         top ⊆+ demo_index /\
         (no_nan_scores q demo_index = true ->
          top = slice_to k (sort_reverse (similarity q) demo_index))).
Proof.
  split; [reflexivity|].
  apply (cached_index_is_reused false demo_world demo_world demo_index).
  reflexivity.
Defined.

(** X10.  When nothing is cached and the index file is there, an unforced
    call only reads that file: it sends no request, does not need the
    knowledge file and writes nothing.  If the file cannot be loaded, the
    call raises and the state is as before, so that the next unforced
    call raises the same error: the index is not rebuilt. *)
Theorem index_file_is_trusted (w w' : world) (t : json_text) (r : result (list Chunk)) :
  _index_cache w = None ->
  index_file w = Some t ->
  build_or_load_index false w = (r, w') ->
  requests w' = requests w /\
  index_file w' = Some t /\
  knowledge_file w' = knowledge_file w /\
  (forall index, r = Ok index -> _index_cache w' = Some index) /\
  (forall e, r = Raise e ->
     w' = w /\ build_or_load_index false w' = (Raise e, w')).
Proof.
  intros Hc Hf. unfold build_or_load_index. rewrite Hc, Hf.
  unfold load_index, bind, lift.
  destruct (json_loads t) as [raw|e1] eqn:E1; cbn [rbind].
  - destruct (load_chunks raw) as [index|e2] eqn:E2.
    + cbn. intros H. injection H as <- <-. cbn.
      refine (conj eq_refl (conj Hf (conj eq_refl (conj _ _)))).
      * intros index' H. now injection H as <-.
      * intros e He. discriminate.
    + intros H. injection H as <- <-.
      refine (conj eq_refl (conj Hf (conj eq_refl (conj _ _)))).
      * intros index' H. discriminate.
      * intros e He. injection He as <-. split; [reflexivity|].
        now rewrite Hc, Hf, E1, E2.
  - intros H. injection H as <- <-.
    refine (conj eq_refl (conj Hf (conj eq_refl (conj _ _)))).
    + intros index' H. discriminate.
    + intros e He. injection He as <-. split; [reflexivity|].
      now rewrite Hc, Hf, E1.
Qed.

Lemma index_file_is_trusted_witness :
  _index_cache corrupt_world = None /\
  index_file corrupt_world = Some Malformed /\
  build_or_load_index false corrupt_world = (Raise JSONDecodeError, corrupt_world) /\
  requests corrupt_world = requests corrupt_world /\
  index_file corrupt_world = Some Malformed /\
  knowledge_file corrupt_world = knowledge_file corrupt_world /\
  (forall index, @Raise (list Chunk) JSONDecodeError = Ok index ->
     _index_cache corrupt_world = Some index) /\
  (forall e, @Raise (list Chunk) JSONDecodeError = Raise e ->
     corrupt_world = corrupt_world /\
     build_or_load_index false corrupt_world = (Raise e, corrupt_world)).
Proof.
  split; [reflexivity|]. split; [reflexivity|]. split; [reflexivity|].
  apply (index_file_is_trusted corrupt_world corrupt_world Malformed
           (Raise JSONDecodeError)); reflexivity.
Defined.

(** ** More on the retriever *)

(** What a retrieval that returns has gone through. *)
Lemma retrieve_inv (w w2 : world) (question : string) (k : Z) (top : list Chunk) :
  _retrieve_relevant_chunks question k w = (Ok top, w2) ->
  exists index w1 q,
    build_or_load_index false w = (Ok index, w1) /\
    embed_reply w1 (requests w1) question = Ok q /\
    w2 = next_request w1 /\
    top = slice_to k (list_sort_reverse (similarity q) index).
Proof.
  unfold _retrieve_relevant_chunks, bind, lift.
  destruct (build_or_load_index false w) as [[index|e] w1]; [|discriminate].
  rewrite embed_text_run.
  destruct (embed_reply w1 (requests w1) question) as [q|e] eqn:Hq; [|discriminate].
  rewrite rank_chunks_value. intros H. injection H as <- <-.
  exists index, w1, q. repeat split. exact Hq.
Qed.

(** X11.  [k] is not checked.  With [k = 0] retrieval returns no chunk;
    with a negative [k] it leaves out [-k] chunks, or the whole index if
    it has no more than that.  What is returned and what is left out make
    up the index; when no similarity is NaN they are the index in
    descending order of similarity, so that the chunks left out are the
    last of the ranking.  In both cases the request that embeds the
    question is sent. *)
Theorem retrieval_without_positive_k
    (w : world) (question : string) (k : Z)
    (index : list Chunk) (w1 : world) (q : list float) (w2 : world) :
  k <= 0 ->
  build_or_load_index false w = (Ok index, w1) ->
  _embed_text question w1 = (Ok q, w2) ->
  exists top dropped,
    _retrieve_relevant_chunks question k w = (Ok top, w2) /\
    top ++ dropped ≡ₚ index /\
    (k < 0 -> length dropped = Nat.min (Z.to_nat (- k)) (length index)) /\
    (k = 0 -> top = []) /\
    (no_nan_scores q index = true ->
     top ++ dropped = sort_reverse (similarity q) index).
Proof.
  intros Hk Hindex Hq.
  rewrite (retrieve_value w question k index w1 q w2 Hindex Hq).
  set (sorted := list_sort_reverse (similarity q) index).
  assert (Hlen : length sorted = length index) by apply list_sort_reverse_length.
  assert (Hperm : sorted ≡ₚ index) by apply list_sort_reverse_perm.
  unfold slice_to. destruct (k <? 0) eqn:E.
  - apply Z.ltb_lt in E.
    exists (take (length sorted - Z.to_nat (- k)) sorted),
           (drop (length sorted - Z.to_nat (- k)) sorted).
    split; [reflexivity|]. rewrite take_drop. split; [exact Hperm|].
    split; [|split; [lia|]].
    + intros _. rewrite length_drop. lia.
    + intros Hnan. unfold sorted. apply ranking_without_nan, Hnan.
  - apply Z.ltb_ge in E. assert (k = 0) as -> by lia.
    exists [], sorted. split; [reflexivity|]. split; [exact Hperm|].
    split; [lia|]. split; [reflexivity|].
    intros Hnan. unfold sorted. apply ranking_without_nan, Hnan.
Qed.

Lemma retrieval_without_positive_k_witness :
  -1 <= 0 /\
  build_or_load_index false demo_world = (Ok demo_index, demo_world) /\
  _embed_text "horario" demo_world = (Ok [one; Float.zero], next_request demo_world) /\
  exists top dropped,
    _retrieve_relevant_chunks "horario" (-1) demo_world
    = (Ok top, next_request demo_world) /\
    top ++ dropped ≡ₚ demo_index /\
    (-1 < 0 -> length dropped = Nat.min (Z.to_nat (- -1)) (length demo_index)) /\
    (-1 = 0 -> top = []) /\
    (no_nan_scores [one; Float.zero] demo_index = true ->
     top ++ dropped = sort_reverse (similarity [one; Float.zero]) demo_index).
Proof.
  split; [lia|]. split; [reflexivity|]. split; [reflexivity|].
  apply (retrieval_without_positive_k demo_world "horario" (-1) demo_index demo_world
           [one; Float.zero] (next_request demo_world)).
  - lia.
  - reflexivity.
  - reflexivity.
Defined.

(** X12.  When the request that embeds the question fails, retrieval and
    the answer composer raise the error of the provider after that one
    request: no chat request follows, and the index that was loaded or
    built stays in the cache. *)
Theorem query_embedding_failure
    (w : world) (question : string) (k : Z)
    (index : list Chunk) (w1 : world) (e : exn) :
  build_or_load_index false w = (Ok index, w1) ->
  embed_reply w1 (requests w1) question = Raise e ->
  _retrieve_relevant_chunks question k w = (Raise e, next_request w1) /\
  answer_question question k w = (Raise e, next_request w1) /\
  _index_cache (next_request w1) = Some index.
Proof.
  intros Hindex Hq.
  assert (H : _retrieve_relevant_chunks question k w = (Raise e, next_request w1)).
  { unfold _retrieve_relevant_chunks, bind. now rewrite Hindex, embed_text_run, Hq. }
  split; [exact H|]. split.
  - unfold answer_question, bind. now rewrite H.
  - exact (returned_index_is_cached false w w1 index Hindex).
Qed.

Lemma query_embedding_failure_witness :
  build_or_load_index false offline_world = (Ok demo_index, offline_world) /\
  embed_reply offline_world (requests offline_world) "horario"
  = Raise (ProviderError 503) /\
  _retrieve_relevant_chunks "horario" 3 offline_world
  = (Raise (ProviderError 503), next_request offline_world) /\
  answer_question "horario" 3 offline_world
  = (Raise (ProviderError 503), next_request offline_world) /\
  _index_cache (next_request offline_world) = Some demo_index.
Proof.
  split; [reflexivity|]. split; [reflexivity|].
  apply (query_embedding_failure offline_world "horario" 3 demo_index offline_world
           (ProviderError 503)); reflexivity.
Defined.

(** ** More on the answer composer *)



(** X14.  For [k > 0], an answer reports the texts of [min k n] chunks of
    the cached index of [n] chunks, none more often than it is there, and
    as many times the source [knowledge.txt], with the name of the chat
    model and the temperature 0.2.  Once the index is there, the call
    sends two requests and leaves the cache and the files as they
    are. *)
Theorem answer_question_result
    (w : world) (question : string) (k : Z) (r : AnswerResult) (w2 : world) :
  0 < k ->
  answer_question question k w = (Ok r, w2) ->
  exists index w0 top,
    build_or_load_index false w = (Ok index, w0) /\
    _index_cache w2 = Some index /\
    requests w2 = (requests w0 + 2)%nat /\
    same_store w0 w2 /\
    retrieved_chunks r = text <$> top /\
    top ⊆+ index /\
    length top = Nat.min (Z.to_nat k) (length index) /\
    source_files r = replicate (length top) "knowledge.txt" /\
    model_name r = CHAT_MODEL /\
    temperature r = temperature_0_2.
Proof.
  intros Hk. unfold answer_question, bind.
  destruct (_retrieve_relevant_chunks question k w) as [[top|e] w1] eqn:Htop;
    [|discriminate].
  unfold chat.
  destruct (chat_completions_create w1 (requests w1) (chat_request question top))
    as [completion|e]; [|discriminate].
  unfold lift. destruct (answer_text_of completion) as [a|e]; [|discriminate].
  unfold ret. intros H. injection H as <- <-.
  apply retrieve_inv in Htop as (index & w0 & q & Hindex & _ & -> & ->).
  exists index, w0, (slice_to k (list_sort_reverse (similarity q) index)).
  split; [exact Hindex|]. split.
  { exact (returned_index_is_cached false w w0 index Hindex). }
  split; [cbn; lia|]. split; [repeat split|]. split; [reflexivity|].
  unfold slice_to. destruct (k <? 0) eqn:E; [lia|]. split.
  { rewrite <- (list_sort_reverse_perm (similarity q) index) at 2.
    apply sublist_submseteq, sublist_take. }
  split; [now rewrite length_take, list_sort_reverse_length|].
  split; [|split; reflexivity]. cbn [source_files].
  generalize (take (Z.to_nat k) (list_sort_reverse (similarity q) index)).
  intros l. induction l as [|c l IH]; [reflexivity|]. cbn. now f_equal.
Qed.

Lemma answer_question_result_witness :
  0 < 1 /\
  exists r w2,
    answer_question "horario" 1 demo_world = (Ok r, w2) /\
    exists index w0 top,
      build_or_load_index false demo_world = (Ok index, w0) /\
      _index_cache w2 = Some index /\
      requests w2 = (requests w0 + 2)%nat /\
      same_store w0 w2 /\
      retrieved_chunks r = text <$> top /\
      top ⊆+ index /\
      length top = Nat.min (Z.to_nat 1) (length index) /\
      source_files r = replicate (length top) "knowledge.txt" /\
      model_name r = CHAT_MODEL /\
      temperature r = temperature_0_2.
Proof.
  split; [lia|]. eexists _, _.
  refine ((fun H => conj H
    (answer_question_result demo_world "horario" 1 _ _ ltac:(lia) H)) _).
  vm_compute. reflexivity.
Defined.

Section Prompt.

Lemma occurs_in_refl (s : string) : occurs_in s s.
Proof. exists "", "". now rewrite str_app_nil_r. Qed.

Lemma occurs_in_append (part a s b : string) :
  occurs_in part s -> occurs_in part (a +:+ s +:+ b).
Proof.
  intros (before & after & ->). exists (a +:+ before), (after +:+ b).
  now rewrite !str_app_assoc.
Qed.

Lemma occurs_in_join (sep x : string) (l : list string) :
  x ∈ l -> occurs_in x (str_join sep l).
Proof.
  induction l as [|a l IH]; intros Hx; [now apply elem_of_nil in Hx|].
  destruct l as [|b l].
  - apply list_elem_of_singleton in Hx as ->. apply occurs_in_refl.
  - change (str_join sep (a :: b :: l)) with (a +:+ sep +:+ str_join sep (b :: l)).
    apply elem_of_cons in Hx as [->|Hx].
    + exists "", (sep +:+ str_join sep (b :: l)). reflexivity.
    + specialize (IH Hx). destruct IH as (before & after & ->).
      exists (a +:+ sep +:+ before), after. now rewrite !str_app_assoc.
Qed.

End Prompt.

(** X15.  The chat request has two messages, the fixed system prompt and
    the user prompt; the user prompt holds the question as it was asked
    and the text of every chunk retrieved. *)
Theorem prompt_holds_question_and_chunks (question : string) (top : list Chunk) :
  exists user,
    chat_messages (chat_request question top)
    = [("system", system_prompt); ("user", user)] /\
    occurs_in question user /\
    forall c, c ∈ top -> occurs_in (text c) user.
Proof.
  eexists. split; [reflexivity|]. unfold user_prompt. split.
  - exists ("CONTEXTO:" +:+ nl +:+ context_text top +:+ nl +:+ nl
            +:+ "PREGUNTA DEL CIUDADANO:" +:+ nl), 
           (nl +:+ nl +:+ "Responde de forma estructurada y f" +:+ chr 225
            +:+ "cil de entender.").
    now rewrite !str_app_assoc.
  - intros c Hc.
    assert (H : occurs_in (text c) (context_text top)).
    { apply occurs_in_join, list_elem_of_fmap. now exists c. }
    rewrite <- (str_app_assoc "CONTEXTO:" nl).
    apply occurs_in_append, H.
Qed.

(** ** Escaping for HTML *)

Section HtmlEscape.

Lemma str_app_inv_head (a x y : string) : a +:+ x = a +:+ y -> x = y.
Proof.
  induction a as [|c a IH]; [intros H; exact H|].
  rewrite !str_app_cons. intros H. injection H as H. auto.
Qed.

Lemma replace_char_append (old : ascii) (new a b : string) :
  main.replace_char old new (a +:+ b)
  = main.replace_char old new a +:+ main.replace_char old new b.
Proof.
  induction a as [|c a IH]; [reflexivity|].
  rewrite str_app_cons. cbn [main.replace_char]. now rewrite IH, str_app_assoc.
Qed.

(** The three replacements, one after the other, are one pass over the
    text. *)
Lemma html_escape_one_pass (text : string) :
  main._html_escape text = map_chars html_entity text.
Proof.
  unfold main._html_escape. induction text as [|c text IH]; [reflexivity|].
  cbn [main.replace_char map_chars]. rewrite !replace_char_append, IH.
  f_equal. unfold html_entity.
  assert (H1 : forall old new d,
            main.replace_char old new (String d "")
            = if Ascii.eqb d old then new else String d "").
  { intros old new d. cbn [main.replace_char]. apply str_app_nil_r. }
  destruct (Ascii.eqb c "&") eqn:E1; [reflexivity|].
  rewrite H1. destruct (Ascii.eqb c "<") eqn:E2; [reflexivity|].
  rewrite H1. reflexivity.
Qed.

Lemma map_chars_append (f : ascii -> string) (a b : string) :
  map_chars f (a +:+ b) = map_chars f a +:+ map_chars f b.
Proof.
  induction a as [|c a IH]; [reflexivity|].
  rewrite str_app_cons. cbn [map_chars]. now rewrite IH, str_app_assoc.
Qed.

Lemma html_entity_cases (c : ascii) :
  (is_markup c = false /\ html_entity c = String c "") \/
  (c = "&"%char /\ html_entity c = "&amp;") \/
  (c = "<"%char /\ html_entity c = "&lt;") \/
  (c = ">"%char /\ html_entity c = "&gt;").
Proof.
  unfold html_entity, is_markup.
  destruct (Ascii.eqb_spec c "&") as [->|_]; [right; left; now split|].
  destruct (Ascii.eqb_spec c "<") as [->|_]; [right; right; left; now split|].
  destruct (Ascii.eqb_spec c ">") as [->|_]; [right; right; right; now split|].
  left. now split.
Qed.

Lemma is_markup_false (c : ascii) :
  is_markup c = false -> c <> "&"%char /\ c <> "<"%char /\ c <> ">"%char.
Proof.
  unfold is_markup. intros H.
  apply orb_false_elim in H as [H H3]. apply orb_false_elim in H as [H1 H2].
  repeat split; intros ->; discriminate.
Qed.

(** An occurrence of [x] in a text that starts with another character is
    an occurrence in the rest. *)
Lemma occurrence_later (x c : ascii) (before after rest : string) :
  c <> x ->
  before +:+ String x after = String c rest ->
  exists before', before = String c before' /\ before' +:+ String x after = rest.
Proof.
  intros Hc. destruct before as [|d before].
  - intros H. injection H as -> _. contradiction.
  - rewrite str_app_cons. intros H. injection H as -> H. now exists before.
Qed.

Lemma escaped_ampersand (text before after : string) :
  map_chars html_entity text = before +:+ String "&" after ->
  exists rest,
    after = "amp;" +:+ rest \/ after = "lt;" +:+ rest \/ after = "gt;" +:+ rest.
Proof.
  revert before. induction text as [|c text IH]; intros before.
  - destruct before; discriminate.
  - cbn [map_chars].
    destruct (html_entity_cases c) as [[Hm ->]|[[-> ->]|[[-> ->]|[-> ->]]]];
      intros H; symmetry in H.
    + apply is_markup_false in Hm as (Hamp & _).
      rewrite str_app_cons in H.
      apply occurrence_later in H as (b & -> & H); [|exact Hamp].
      symmetry in H. eapply IH, H.
    + destruct before as [|d before].
      * injection H as H. eexists. left. exact H.
      * rewrite !str_app_cons in H. injection H as -> H.
        do 4 (apply occurrence_later in H as (? & -> & H); [|discriminate]).
        symmetry in H. eapply IH, H.
    + destruct before as [|d before].
      * injection H as H. eexists. right. left. exact H.
      * rewrite !str_app_cons in H. injection H as -> H.
        do 3 (apply occurrence_later in H as (? & -> & H); [|discriminate]).
        symmetry in H. eapply IH, H.
    + destruct before as [|d before].
      * injection H as H. eexists. right. right. exact H.
      * rewrite !str_app_cons in H. injection H as -> H.
        do 3 (apply occurrence_later in H as (? & -> & H); [|discriminate]).
        symmetry in H. eapply IH, H.
Qed.

Lemma escaped_has_no_bracket (text : string) (c : ascii) :
  c = "<"%char \/ c = ">"%char ->
  c ∉ list_ascii_of_string (map_chars html_entity text).
Proof.
  intros Hc. induction text as [|d text IH]; [apply not_elem_of_nil|].
  cbn [map_chars].
  assert (Happ : forall a b, list_ascii_of_string (a +:+ b)
                             = list_ascii_of_string a ++ list_ascii_of_string b).
  { induction a as [|x a IHa]; intros b; [reflexivity|].
    rewrite str_app_cons. cbn. now rewrite IHa. }
  rewrite Happ. apply not_elem_of_app. split; [|exact IH].
  destruct (html_entity_cases d) as [[Hm ->]|[[-> ->]|[[-> ->]|[-> ->]]]].
  - apply is_markup_false in Hm as (_ & H1 & H2). cbn.
    rewrite elem_of_cons, elem_of_nil. destruct Hc as [-> | ->]; intuition congruence.
  - cbn. rewrite !elem_of_cons, elem_of_nil.
    destruct Hc as [-> | ->]; intuition discriminate.
  - cbn. rewrite !elem_of_cons, elem_of_nil.
    destruct Hc as [-> | ->]; intuition discriminate.
  - cbn. rewrite !elem_of_cons, elem_of_nil.
    destruct Hc as [-> | ->]; intuition discriminate.
Qed.

Lemma map_entity_injective (a b : string) :
  map_chars html_entity a = map_chars html_entity b -> a = b.
Proof.
  revert b. induction a as [|c a IH]; intros [|d b]; cbn [map_chars].
  - reflexivity.
  - destruct (html_entity_cases d) as [[_ ->]|[[_ ->]|[[_ ->]|[_ ->]]]]; discriminate.
  - destruct (html_entity_cases c) as [[_ ->]|[[_ ->]|[[_ ->]|[_ ->]]]]; discriminate.
  - destruct (html_entity_cases c) as [[Hc ->]|[[-> ->]|[[-> ->]|[-> ->]]]];
    destruct (html_entity_cases d) as [[Hd ->]|[[-> ->]|[[-> ->]|[-> ->]]]];
      rewrite ?str_app_cons; intros H; try discriminate;
      try (injection H as H; f_equal; now apply IH);
      try (injection H as -> H; f_equal; now apply IH);
      try (injection H as <- _; discriminate);
      try (injection H as -> _; discriminate).
Qed.

Lemma string_length_append (a b : string) :
  String.length (a +:+ b) = (String.length a + String.length b)%nat.
Proof.
  induction a as [|x a IHa]; [reflexivity|].
  rewrite str_app_cons. cbn. now rewrite IHa.
Qed.

Lemma map_entity_length (s : string) :
  (String.length s <= String.length (map_chars html_entity s))%nat.
Proof.
  induction s as [|c s IH]; [reflexivity|]. cbn [map_chars].
  rewrite string_length_append.
  destruct (html_entity_cases c) as [[_ ->]|[[_ ->]|[[_ ->]|[_ ->]]]]; cbn; lia.
Qed.

Lemma map_entity_fixed (s : string) :
  map_chars html_entity s = s <-> has_markup s = false.
Proof.
  induction s as [|c s IH]; [now split|]. cbn [map_chars has_markup].
  pose proof (map_entity_length s) as Hlen.
  destruct (html_entity_cases c) as [[Hc ->]|[[-> ->]|[[-> ->]|[-> ->]]]].
  - rewrite Hc. cbn [orb]. rewrite <- IH, str_app_cons. split.
    + intros H. now injection H.
    + intros H. f_equal. exact H.
  - split; [|discriminate]. intros H.
    apply (f_equal String.length) in H.
    rewrite string_length_append in H. cbn in H. lia.
  - split; [|discriminate]. intros H.
    apply (f_equal String.length) in H.
    rewrite string_length_append in H. cbn in H. lia.
  - split; [|discriminate]. intros H.
    apply (f_equal String.length) in H.
    rewrite string_length_append in H. cbn in H. lia.
Qed.

End HtmlEscape.

(** X16.  An escaped text has no [<] and no [>], and each of its [&]
    starts one of the three entities [&amp;], [&lt;] and [&gt;]. *)
Theorem html_escape_leaves_no_markup (text : string) :
  ("<"%char ∉ list_ascii_of_string (main._html_escape text)) /\
  (">"%char ∉ list_ascii_of_string (main._html_escape text)) /\
  forall before after,
    main._html_escape text = before +:+ "&" +:+ after ->
    exists rest,
      after = "amp;" +:+ rest \/ after = "lt;" +:+ rest \/ after = "gt;" +:+ rest.
Proof.
  rewrite html_escape_one_pass.
  split; [apply escaped_has_no_bracket; now left|].
  split; [apply escaped_has_no_bracket; now right|].
  intros before after H. exact (escaped_ampersand text before after H).
Qed.

(** X17.  Escaping loses nothing: two texts with the same escaped form
    are the same text. *)
Theorem html_escape_injective (a b : string) :
  main._html_escape a = main._html_escape b -> a = b.
Proof. rewrite !html_escape_one_pass. apply map_entity_injective. Qed.

Lemma html_escape_injective_witness :
  main._html_escape "a<b" = main._html_escape ("a" +:+ "<b") /\ "a<b" = "a" +:+ "<b".
Proof.
  split; [reflexivity|].
  apply (html_escape_injective "a<b" ("a" +:+ "<b")). reflexivity.
Defined.

(** X18.  Escaping works character by character: the escaped form of two
    texts put together is their escaped forms put together, and a text
    is its own escaped form exactly when it has none of [&], [<] and
    [>]. *)
Theorem html_escape_by_character (a b : string) :
  main._html_escape (a +:+ b) = main._html_escape a +:+ main._html_escape b /\
  (main._html_escape a = a <-> has_markup a = false).
Proof.
  rewrite !html_escape_one_pass. split; [apply map_chars_append | apply map_entity_fixed].
Qed.

(** ** The JSON text of a list *)

Section JsonText.

Lemma unescape_escape (c : ascii) (x : string) :
  unescape_head (escape_char c +:+ x) = Some (c, x).
Proof. destruct c as [[] [] [] [] [] [] [] []]; reflexivity. Qed.

Lemma escape_char_not_quote (c : ascii) (x y : string) :
  escape_char c +:+ x <> chr 34 +:+ y.
Proof. destruct c as [[] [] [] [] [] [] [] []]; discriminate. Qed.

(** The quote that ends a string is the first one that is not escaped. *)
Lemma escape_string_end (s s' x y : string) :
  escape_string s +:+ chr 34 +:+ x = escape_string s' +:+ chr 34 +:+ y ->
  s = s' /\ x = y.
Proof.
  revert s'. induction s as [|c s IH]; intros [|d s']; cbn [escape_string].
  - intros H. injection H as H. now split.
  - rewrite str_app_assoc. intros H. symmetry in H.
    now apply escape_char_not_quote in H.
  - rewrite str_app_assoc. intros H. now apply escape_char_not_quote in H.
  - rewrite !str_app_assoc. intros H.
    apply (f_equal unescape_head) in H. rewrite !unescape_escape in H.
    injection H as -> H. apply IH in H as [-> ->]. now split.
Qed.

Lemma encode_string_end (s s' x y : string) :
  encode_string s +:+ x = encode_string s' +:+ y -> s = s' /\ x = y.
Proof.
  unfold encode_string. rewrite !str_app_assoc.
  intros H. apply str_app_inv_head in H.
  now apply escape_string_end in H.
Qed.

Lemma str_join_cons (sep a b : string) (l : list string) :
  str_join sep (a :: b :: l) = a +:+ sep +:+ str_join sep (b :: l).
Proof. reflexivity. Qed.

Lemma joined_strings_injective (l l' : list string) :
  str_join ", " (encode_string <$> l) +:+ "]"
  = str_join ", " (encode_string <$> l') +:+ "]" ->
  l = l'.
Proof.
  revert l'. induction l as [|a l IH]; intros [|b l'].
  - reflexivity.
  - destruct l'; discriminate.
  - destruct l; discriminate.
  - destruct l as [|a2 l], l' as [|b2 l'].
    + cbn [fmap list_fmap str_join]. intros H.
      apply encode_string_end in H as [-> _]. reflexivity.
    + rewrite !fmap_cons, str_join_cons. cbn [str_join fmap list_fmap].
      rewrite !str_app_assoc. intros H.
      apply encode_string_end in H as [_ H]. discriminate.
    + rewrite !fmap_cons, str_join_cons. cbn [str_join fmap list_fmap].
      rewrite !str_app_assoc. intros H.
      apply encode_string_end in H as [_ H]. discriminate.
    + rewrite (fmap_cons _ a), (fmap_cons _ b).
      rewrite (fmap_cons _ a2), (fmap_cons _ b2), !str_join_cons.
      rewrite <- !fmap_cons, !str_app_assoc. intros H.
      apply encode_string_end in H as [-> H].
      apply (str_app_inv_head ", ") in H. f_equal. now apply IH.
Qed.

End JsonText.

(** X19.  Two lists of strings with the same JSON text are the same
    list.  [None] and the empty list both give the text of the empty
    list, and a string is returned as it is. *)
Theorem to_json_keeps_lists_apart :
  (forall l l',
     db_logging._to_json (VList l) = db_logging._to_json (VList l') -> l = l') /\
  db_logging._to_json VNone = db_logging._to_json (VList []) /\
  (forall s, db_logging._to_json (VStr s) = s).
Proof.
  split; [|split; reflexivity].
  intros l l'. unfold db_logging._to_json, dumps_strings. intros H.
  apply (str_app_inv_head "[") in H. now apply joined_strings_injective.
Qed.

(** ** The interaction log *)

Section Log.

Lemma bind_int_returns (v v' : option Z) :
  db_logging.bind_int v = Returns v' -> v' = v.
Proof.
  unfold db_logging.bind_int. destruct v as [n|]; [|congruence].
  destruct (_ && _); congruence.
Qed.

(** What a call of [save_interaction] does to the database. *)
Lemma save_interaction_inv
    (timestamp : string) (session_id ip user_agent : option string)
    (question answer : string) (latency_ms : option Z)
    (retrieved_chunks source_files : Value) (model_name : option string)
    (temperature : option float)
    (input_tokens output_tokens total_tokens : option Z)
    (d d' : db_logging.Database) (r : outcome unit) :
  db_logging.save_interaction timestamp session_id ip user_agent question answer
    latency_ms retrieved_chunks source_files model_name temperature
    input_tokens output_tokens total_tokens d = (r, d') ->
  match r with
  | Raises _ => d' = d
  | Returns _ =>
      exists t,
        d = Some t /\
        db_logging.sqlite_sequence t < db_logging.INT64_MAX /\
        d' = Some
          {| db_logging.rows :=
               db_logging.rows t ++
               [ {| db_logging.id := db_logging.sqlite_sequence t + 1;
                    db_logging.timestamp := timestamp;
                    db_logging.session_id := session_id;
                    db_logging.ip := ip;
                    db_logging.user_agent := user_agent;
                    db_logging.question := question;
                    db_logging.answer := answer;
                    db_logging.latency_ms := latency_ms;
                    db_logging.retrieved_chunks :=
                      Some (db_logging._to_json retrieved_chunks);
                    db_logging.source_files :=
                      Some (db_logging._to_json source_files);
                    db_logging.model_name := model_name;
                    db_logging.temperature := db_logging.store_real temperature;
                    db_logging.input_tokens := input_tokens;
                    db_logging.output_tokens := output_tokens;
                    db_logging.total_tokens := total_tokens |} ];
             db_logging.sqlite_sequence := db_logging.sqlite_sequence t + 1 |}
  end.
Proof.
  unfold db_logging.save_interaction. destruct d as [t|].
  - destruct (db_logging.bind_int latency_ms) as [l|e1] eqn:E1;
      [apply bind_int_returns in E1; subst l|].
    2: { intros H. injection H as <- <-. reflexivity. }
    destruct (db_logging.bind_int input_tokens) as [i|e2] eqn:E2;
      [apply bind_int_returns in E2; subst i|].
    2: { intros H. injection H as <- <-. reflexivity. }
    destruct (db_logging.bind_int output_tokens) as [o|e3] eqn:E3;
      [apply bind_int_returns in E3; subst o|].
    2: { intros H. injection H as <- <-. reflexivity. }
    destruct (db_logging.bind_int total_tokens) as [tt|e4] eqn:E4;
      [apply bind_int_returns in E4; subst tt|].
    2: { intros H. injection H as <- <-. reflexivity. }
    destruct (db_logging.sqlite_sequence t <? db_logging.INT64_MAX) eqn:E5.
    + intros H. injection H as <- <-. exists t. apply Z.ltb_lt in E5. now repeat split.
    + intros H. injection H as <- <-. reflexivity.
  - intros H. injection H as <- <-. reflexivity.
Qed.

Lemma in_int64_spec (n : Z) :
  (db_logging.INT64_MIN <=? n) && (n <=? db_logging.INT64_MAX) = true <->
  db_logging.INT64_MIN <= n <= db_logging.INT64_MAX.
Proof. rewrite andb_true_iff, !Z.leb_le. reflexivity. Qed.

End Log.

(** X20.  A row that [save_interaction] has stored is the first one that
    [get_interactions] reads, with the values that were given, the two
    lists as their JSON texts; the rows behind it are the ones that were
    read before, one fewer for the same limit. *)
Theorem saved_interaction_is_read_first
    (timestamp : string) (session_id ip user_agent : option string)
    (question answer : string) (latency_ms : option Z)
    (retrieved_chunks source_files : Value) (model_name : option string)
    (temperature : option float)
    (input_tokens output_tokens total_tokens : option Z)
    (d d' : db_logging.Database) (n : Z) :
  db_logging.save_interaction timestamp session_id ip user_agent question answer
    latency_ms retrieved_chunks source_files model_name temperature
    input_tokens output_tokens total_tokens d = (Returns tt, d') ->
  1 <= n <= db_logging.INT64_MAX ->
  exists t older,
    d = Some t /\
    db_logging.get_interactions (Some (n - 1)) d = (Returns older, d) /\
    db_logging.get_interactions (Some n) d'
    = (Returns
         ({| db_logging.id := db_logging.sqlite_sequence t + 1;
             db_logging.timestamp := timestamp;
             db_logging.session_id := session_id;
             db_logging.ip := ip;
             db_logging.user_agent := user_agent;
             db_logging.question := question;
             db_logging.answer := answer;
             db_logging.latency_ms := latency_ms;
             db_logging.retrieved_chunks :=
               Some (db_logging._to_json retrieved_chunks);
             db_logging.source_files := Some (db_logging._to_json source_files);
             db_logging.model_name := model_name;
             db_logging.temperature := db_logging.store_real temperature;
             db_logging.input_tokens := input_tokens;
             db_logging.output_tokens := output_tokens;
             db_logging.total_tokens := total_tokens |} :: older), d').
Proof.
  intros Hsave Hn. apply save_interaction_inv in Hsave as (t & -> & _ & ->).
  assert (Hmin : db_logging.INT64_MIN <= 0) by (unfold db_logging.INT64_MIN; lia).
  exists t, (take (Z.to_nat (n - 1)) (rev (db_logging.rows t))).
  split; [reflexivity|]. unfold db_logging.get_interactions.
  rewrite (proj2 (in_int64_spec (n - 1))), (proj2 (in_int64_spec n)) by lia.
  destruct (n - 1 <? 0) eqn:E1; [lia|]. destruct (n <? 0) eqn:E2; [lia|].
  split; [reflexivity|]. cbn [db_logging.rows]. rewrite rev_app_distr. cbn [rev app].
  replace (Z.to_nat n) with (S (Z.to_nat (n - 1))) by lia. reflexivity.
Qed.

Lemma saved_interaction_is_read_first_witness :
  let d := Some {| db_logging.rows := []; db_logging.sqlite_sequence := 7 |} in
  exists d',
    db_logging.save_interaction "t" None None None "q" "a" (Some 12)
      (VList ["uno"; "dos"]) VNone (Some "gpt-4o-mini") (Some temperature_0_2)
      None None None d = (Returns tt, d') /\
    1 <= 5 <= db_logging.INT64_MAX /\
    exists t older,
      d = Some t /\
      db_logging.get_interactions (Some (5 - 1)) d = (Returns older, d) /\
      db_logging.get_interactions (Some 5) d'
      = (Returns
           ({| db_logging.id := db_logging.sqlite_sequence t + 1;
               db_logging.timestamp := "t";
               db_logging.session_id := None;
               db_logging.ip := None;
               db_logging.user_agent := None;
               db_logging.question := "q";
               db_logging.answer := "a";
               db_logging.latency_ms := Some 12;
               db_logging.retrieved_chunks :=
                 Some (db_logging._to_json (VList ["uno"; "dos"]));
               db_logging.source_files := Some (db_logging._to_json VNone);
               db_logging.model_name := Some "gpt-4o-mini";
               db_logging.temperature :=
                 db_logging.store_real (Some temperature_0_2);
               db_logging.input_tokens := None;
               db_logging.output_tokens := None;
               db_logging.total_tokens := None |} :: older), d').
Proof.
  intros d. eexists.
  refine ((fun H => conj H (conj _
    (saved_interaction_is_read_first "t" None None None "q" "a" (Some 12)
       (VList ["uno"; "dos"]) VNone (Some "gpt-4o-mini") (Some temperature_0_2)
       None None None d _ 5 H _))) _).
  - unfold db_logging.INT64_MAX; lia.
  - unfold db_logging.INT64_MAX; lia.
  - reflexivity.
Defined.

(** X21.  [get_interactions] changes nothing and returns the newest rows
    first, by strictly decreasing id: the first [limit] of them, and all
    of them when the limit is [None] or negative. *)
Theorem interactions_newest_first
    (limit : option Z) (d d' : db_logging.Database) (read : list db_logging.Row) :
  db_ok d ->
  db_logging.get_interactions limit d = (Returns read, d') ->
  d' = d /\
  StronglySorted (flip Z.lt) (db_logging.id <$> read) /\
  exists t older,
    d = Some t /\
    rev (db_logging.rows t) = read ++ older /\
    match limit with
    | Some n => 0 <= n -> length read = Nat.min (Z.to_nat n) (length (db_logging.rows t))
    | None => True
    end /\
    (match limit with Some n => n < 0 | None => True end -> older = []).
Proof.
  intros Hok. unfold db_logging.get_interactions.
  destruct d as [t|]; [|discriminate]. destruct Hok as [Hsorted _].
  apply strongly_sorted_rev in Hsorted. rewrite rev_fmap in Hsorted.
  destruct limit as [n|].
  - destruct (_ && _); [|discriminate]. intros H. injection H as <- <-.
    split; [reflexivity|]. destruct (n <? 0) eqn:E.
    + apply Z.ltb_lt in E. split; [exact Hsorted|].
      exists t, []. rewrite app_nil_r. repeat split. lia.
    + apply Z.ltb_ge in E. split.
      * rewrite <- (take_drop (Z.to_nat n) (rev (db_logging.rows t))), fmap_app
          in Hsorted.
        now apply StronglySorted_app_1_l in Hsorted.
      * exists t, (drop (Z.to_nat n) (rev (db_logging.rows t))).
        split; [reflexivity|]. split; [now rewrite take_drop|]. split; [|lia].
        intros _. now rewrite length_take, length_rev.
  - intros H. injection H as <- <-. split; [reflexivity|]. split; [exact Hsorted|].
    exists t, []. rewrite app_nil_r. repeat split.
Qed.

Lemma interactions_newest_first_witness :
  db_ok (Some demo_table) /\
  db_logging.get_interactions (Some 2) (Some demo_table)
  = (Returns [demo_row 4 "cuatro"; demo_row 2 "dos"], Some demo_table) /\
  Some demo_table = Some demo_table /\
  StronglySorted (flip Z.lt)
    (db_logging.id <$> [demo_row 4 "cuatro"; demo_row 2 "dos"]) /\
  exists t older,
    Some demo_table = Some t /\
    rev (db_logging.rows t) = [demo_row 4 "cuatro"; demo_row 2 "dos"] ++ older /\
    (0 <= 2 -> length [demo_row 4 "cuatro"; demo_row 2 "dos"]
               = Nat.min (Z.to_nat 2) (length (db_logging.rows t))) /\
    (2 < 0 -> older = []).
Proof.
  assert (Hok : db_ok (Some demo_table)).
  { split; cbn.
    - repeat constructor; lia.
    - repeat constructor; cbn; lia. }
  split; [exact Hok|]. split; [reflexivity|].
  exact (interactions_newest_first (Some 2) (Some demo_table) (Some demo_table)
           [demo_row 4 "cuatro"; demo_row 2 "dos"] Hok eq_refl).
Defined.

(** X22.  [save_interaction] either raises and leaves the table as it
    was, or adds one row behind the others, whose id is above every id of
    the table and above every id that the table has given before. *)
Theorem save_interaction_gives_a_new_id
    (timestamp : string) (session_id ip user_agent : option string)
    (question answer : string) (latency_ms : option Z)
    (retrieved_chunks source_files : Value) (model_name : option string)
    (temperature : option float)
    (input_tokens output_tokens total_tokens : option Z)
    (d d' : db_logging.Database) (r : outcome unit) :
  db_ok d ->
  db_logging.save_interaction timestamp session_id ip user_agent question answer
    latency_ms retrieved_chunks source_files model_name temperature
    input_tokens output_tokens total_tokens d = (r, d') ->
  db_ok d' /\
  match r with
  | Raises _ => d' = d
  | Returns _ =>
      exists t t' row,
        d = Some t /\ d' = Some t' /\
        db_logging.rows t' = db_logging.rows t ++ [row] /\
        db_logging.sqlite_sequence t' = db_logging.id row /\
        db_logging.sqlite_sequence t < db_logging.id row /\
        Forall (fun old => db_logging.id old < db_logging.id row) (db_logging.rows t)
  end.
Proof.
  intros Hok Hsave. apply save_interaction_inv in Hsave.
  destruct r as [u|e]; [|subst d'; now split].
  destruct Hsave as (t & -> & Hmax & ->). destruct Hok as [Hsorted Hseq].
  assert (Hbelow : Forall (fun old => db_logging.id old < db_logging.sqlite_sequence t + 1)
                          (db_logging.rows t)).
  { eapply Forall_impl; [exact Hseq|]. cbn. intros; lia. }
  split.
  - split; cbn [db_logging.rows db_logging.sqlite_sequence].
    + rewrite fmap_app. apply StronglySorted_app_2; [|exact Hsorted|repeat constructor].
      intros a b Ha Hb. apply list_elem_of_singleton in Hb as ->.
      apply list_elem_of_fmap in Ha as (old & -> & Hold).
      rewrite Forall_forall in Hbelow. now apply Hbelow.
    + apply Forall_app. split.
      * eapply Forall_impl; [exact Hseq|]. cbn. intros; lia.
      * repeat constructor. cbn. lia.
  - eexists t, _, _. split; [reflexivity|]. split; [reflexivity|]. cbn.
    split; [reflexivity|]. split; [reflexivity|]. cbn. split; [lia | exact Hbelow].
Qed.

Lemma save_interaction_gives_a_new_id_witness :
  let d := Some {| db_logging.rows := []; db_logging.sqlite_sequence := 7 |} in
  db_ok d /\
  exists r d',
    db_logging.save_interaction "t" None None None "q" "a" (Some 12)
      VNone VNone None None None None None d = (r, d') /\
    db_ok d' /\
    match r with
    | Raises _ => d' = d
    | Returns _ =>
        exists t t' row,
          d = Some t /\ d' = Some t' /\
          db_logging.rows t' = db_logging.rows t ++ [row] /\
          db_logging.sqlite_sequence t' = db_logging.id row /\
          db_logging.sqlite_sequence t < db_logging.id row /\
          Forall (fun old => db_logging.id old < db_logging.id row) (db_logging.rows t)
    end.
Proof.
  intros d.
  assert (Hok : db_ok d) by (split; constructor).
  split; [exact Hok|]. eexists _, _.
  refine ((fun H => conj H
    (save_interaction_gives_a_new_id "t" None None None "q" "a" (Some 12)
       VNone VNone None None None None None d _ _ Hok H)) _).
  reflexivity.
Defined.

(** ** The server *)

Section Server.

Lemma all_space_append (a b : string) :
  all_space (a +:+ b) = all_space a && all_space b.
Proof.
  induction a as [|c a IH]; [reflexivity|].
  rewrite str_app_cons. cbn [all_space]. now rewrite IH, andb_assoc.
Qed.

(** A text is blank for [ask] when all its characters are whitespace. *)
Lemma strip_is_empty (s : string) :
  is_empty (str_strip s) = all_space s.
Proof.
  destruct (str_strip_spec s) as (l & r & Hs & Hl & Hr & Hstart & _).
  rewrite Hs at 2. rewrite !all_space_append, Hl, Hr, andb_true_r. cbn [andb].
  destruct (str_strip s) as [|c t]; [reflexivity|].
  cbn [starts_with_space] in Hstart. cbn [is_empty all_space]. now rewrite Hstart.
Qed.

(** The requests of a process are only counted up. *)
Lemma embed_chunks_requests (ts : list string) (i : Z) (index : list Chunk)
    (w w' : world) r :
  embed_chunks i ts index w = (r, w') -> (requests w <= requests w')%nat.
Proof.
  revert i index w. induction ts as [|t ts IH]; intros i index w H.
  - injection H as _ <-. lia.
  - cbn [embed_chunks] in H. unfold bind in H. rewrite embed_text_run in H.
    destruct (embed_reply w (requests w) t).
    + apply IH in H. cbn in H. lia.
    + injection H as _ <-. cbn. lia.
Qed.

Lemma build_requests_grow (force : bool) (w w' : world) r :
  build_or_load_index force w = (r, w') -> (requests w <= requests w')%nat.
Proof.
  assert (Hbuild : build_index w = (r, w') -> (requests w <= requests w')%nat).
  { unfold build_index, bind, _load_knowledge_text, raise, ret.
    destruct (knowledge_file w) as [t|].
    - destruct (embed_chunks 0 _ [] w) as [[index|e'] w1] eqn:E;
        apply embed_chunks_requests in E; intros H; injection H as _ <-; cbn; lia.
    - intros H. injection H as _ <-. lia. }
  assert (Hload : forall t, load_index t w = (r, w') -> (requests w <= requests w')%nat).
  { intros t. unfold load_index, bind, lift.
    destruct (json_loads t) as [raw|e1].
    - destruct (load_chunks raw) as [index|e2]; intros H; injection H as _ <-; cbn; lia.
    - intros H. injection H as _ <-. lia. }
  unfold build_or_load_index.
  destruct (_index_cache w), force, (index_file w); cbv iota; eauto;
    intros H; injection H as _ <-; lia.
Qed.

(** What the body of the [try] has done when it ends. *)
Lemma ask_body_inv (clock : main.Clock) (req : main.QuestionRequest)
    (request : main.Request) (s s' : main.Server) (r : outcome string) :
  main.ask_body clock req request s = (r, s') ->
  main.rag s' = snd (answer_question (main.question req) 3 (main.rag s)) /\
  match r with
  | Raises _ => main.log s' = main.log s
  | Returns a =>
      exists result latency,
        answer_question (main.question req) 3 (main.rag s) = (Ok result, main.rag s') /\
        a = answer result /\
        main.latency_of clock = Returns latency /\
        db_logging.save_interaction
          (main.utc_now clock) (main.session_id req)
          (main.client_host request) (main.user_agent request)
          (main.question req) (answer result) (Some latency)
          (VList (retrieved_chunks result)) (VList (source_files result))
          (Some (model_name result)) (Some (temperature result))
          (mjoin (usage_tokens result !! "input_tokens"))
          (mjoin (usage_tokens result !! "output_tokens"))
          (mjoin (usage_tokens result !! "total_tokens"))
          (main.log s) = (Returns tt, main.log s')
  end.
Proof.
  unfold main.ask_body.
  destruct (answer_question (main.question req) 3 (main.rag s)) as [[result|e] w] eqn:Ea.
  - destruct (main.latency_of clock) as [latency|e] eqn:El.
    + destruct (db_logging.save_interaction _ _ _ _ _ _ _ _ _ _ _ _ _ _ (main.log s))
        as [[u|e] d] eqn:Es; intros H; injection H as <- <-; cbn.
      * split; [reflexivity|]. exists result, latency. destruct u. now repeat split.
      * split; [reflexivity|]. now apply save_interaction_inv in Es.
    + intros H. injection H as <- <-. now split.
  - intros H. injection H as <- <-. now split.
Qed.

Lemma const_fmap_replicate {A B : Type} (x : B) (l : list A) :
  (fun _ => x) <$> l = replicate (length l) x.
Proof. induction l as [|a l IH]; [reflexivity|]. cbn. now f_equal. Qed.

Lemma usage_of_lookup (completion : Completion) :
  mjoin (usage_of completion !! "input_tokens") = usage completion ≫= prompt_tokens /\
  mjoin (usage_of completion !! "output_tokens")
  = usage completion ≫= completion_tokens /\
  mjoin (usage_of completion !! "total_tokens") = usage completion ≫= total_tokens.
Proof.
  unfold usage_of. destruct (usage completion) as [u|]; cbn [mbind option_bind].
  - rewrite lookup_insert_ne, lookup_insert_ne, lookup_insert_eq by discriminate.
    rewrite lookup_insert_ne, lookup_insert_eq by discriminate.
    rewrite lookup_insert_eq. now repeat split.
  - rewrite !lookup_empty. now repeat split.
Qed.

End Server.

(** X23.  [ask] answers with the status 400 exactly when the question is
    blank, and then it has done nothing.  Any other question gets an
    answer or the status 500; with the status 500 no row is logged,
    whatever failed, while the requests of the pipeline have been
    sent. *)
Theorem ask_status (clock : main.Clock) (req : main.QuestionRequest)
    (request : main.Request) (s : main.Server) :
  match main.ask clock req request s with
  | (main.AnswerResponse _, _) => all_space (main.question req) = false
  | (main.HTTPException code detail, s') =>
      (code = 400 /\ detail = main.detail_400 /\
       all_space (main.question req) = true /\ s' = s) \/
      (code = 500 /\ detail = main.detail_500 /\
       all_space (main.question req) = false /\
       main.log s' = main.log s /\
       main.rag s' = snd (answer_question (main.question req) 3 (main.rag s)))
  end.
Proof.
  unfold main.ask. rewrite strip_is_empty.
  destruct (all_space (main.question req)) eqn:E; [left; now repeat split|].
  destruct (main.ask_body clock req request s) as [[a|e] s'] eqn:Eb; [reflexivity|].
  apply ask_body_inv in Eb as [Hrag Hlog]. right. now repeat split.
Qed.

(** X24.  When [ask] returns an answer, it has logged one row: the
    newest of the table, with the next id, the question as it was asked,
    the answer as it is returned, the time, session, address and agent of
    the request, the model and the temperature. *)
Theorem ask_logs_the_answer (clock : main.Clock) (req : main.QuestionRequest)
    (request : main.Request) (s s' : main.Server) (a : string) :
  main.ask clock req request s = (main.AnswerResponse a, s') ->
  exists result t row,
    answer_question (main.question req) 3 (main.rag s) = (Ok result, main.rag s') /\
    a = answer result /\
    main.log s = Some t /\
    main.log s'
    = Some {| db_logging.rows := db_logging.rows t ++ [row];
              db_logging.sqlite_sequence := db_logging.id row |} /\
    db_logging.get_interactions (Some 1) (main.log s') = (Returns [row], main.log s') /\
    db_logging.id row = db_logging.sqlite_sequence t + 1 /\
    db_logging.question row = main.question req /\
    db_logging.answer row = a /\
    db_logging.timestamp row = main.utc_now clock /\
    db_logging.session_id row = main.session_id req /\
    db_logging.ip row = main.client_host request /\
    db_logging.user_agent row = main.user_agent request /\
    db_logging.retrieved_chunks row = Some (dumps_strings (retrieved_chunks result)) /\
    db_logging.source_files row = Some (dumps_strings (source_files result)) /\
    db_logging.model_name row = Some CHAT_MODEL /\
    db_logging.temperature row = Some temperature_0_2.
Proof.
  unfold main.ask. destruct (is_empty _); [discriminate|].
  destruct (main.ask_body clock req request s) as [[a'|e] s1] eqn:Eb; [|discriminate].
  intros H. injection H as -> ->.
  apply ask_body_inv in Eb as (_ & result & latency & Ha & -> & _ & Hsave).
  pose proof Hsave as Hrow. apply save_interaction_inv in Hrow as (t & Ht & _ & Hlog).
  assert (Hr : model_name result = CHAT_MODEL /\ temperature result = temperature_0_2).
  { revert Ha. unfold answer_question, bind, chat, lift, ret.
    destruct (_retrieve_relevant_chunks _ _ _) as [[top|e] w1]; [|discriminate].
    destruct (chat_completions_create _ _ _) as [c|e]; [|discriminate].
    destruct (answer_text_of c) as [x|e]; [|discriminate].
    intros H. injection H as <- _. now split. }
  destruct Hr as [Hm Htemp].
  eexists result, t, _. split; [exact Ha|]. split; [reflexivity|].
  split; [exact Ht|]. split; [exact Hlog|]. rewrite Hlog. cbn. split.
  { rewrite rev_app_distr. reflexivity. }
  rewrite Hm, Htemp. now repeat split.
Qed.

Lemma ask_logs_the_answer_witness :
  exists a s',
    main.ask demo_clock demo_question demo_request demo_server
    = (main.AnswerResponse a, s') /\
    exists result t row,
      answer_question (main.question demo_question) 3 (main.rag demo_server)
      = (Ok result, main.rag s') /\
      a = answer result /\
      main.log demo_server = Some t /\
      main.log s'
      = Some {| db_logging.rows := db_logging.rows t ++ [row];
                db_logging.sqlite_sequence := db_logging.id row |} /\
      db_logging.get_interactions (Some 1) (main.log s')
      = (Returns [row], main.log s') /\
      db_logging.id row = db_logging.sqlite_sequence t + 1 /\
      db_logging.question row = main.question demo_question /\
      db_logging.answer row = a /\
      db_logging.timestamp row = main.utc_now demo_clock /\
      db_logging.session_id row = main.session_id demo_question /\
      db_logging.ip row = main.client_host demo_request /\
      db_logging.user_agent row = main.user_agent demo_request /\
      db_logging.retrieved_chunks row
      = Some (dumps_strings (retrieved_chunks result)) /\
      db_logging.source_files row = Some (dumps_strings (source_files result)) /\
      db_logging.model_name row = Some CHAT_MODEL /\
      db_logging.temperature row = Some temperature_0_2.
Proof.
  eexists _, _.
  refine ((fun H => conj H
    (ask_logs_the_answer demo_clock demo_question demo_request demo_server _ _ H)) _).
  vm_compute. reflexivity.
Defined.

(** X25.  Without the table of the log, every question that is not blank
    gets the status 500, also when the pipeline has produced an answer:
    the requests have been sent, at least two of them when the answer was
    there, and the answer is dropped. *)
Theorem ask_without_table (clock : main.Clock) (req : main.QuestionRequest)
    (request : main.Request) (s : main.Server) :
  main.log s = None ->
  all_space (main.question req) = false ->
  main.ask clock req request s
  = (main.HTTPException 500 main.detail_500,
     {| main.rag := snd (answer_question (main.question req) 3 (main.rag s));
        main.log := None |}) /\
  forall result w,
    answer_question (main.question req) 3 (main.rag s) = (Ok result, w) ->
    (requests (main.rag s) + 2 <= requests w)%nat.
Proof.
  intros Hlog Hq. split.
  - unfold main.ask. rewrite strip_is_empty, Hq. unfold main.ask_body. rewrite Hlog.
    destruct (answer_question (main.question req) 3 (main.rag s)) as [[result|e] w];
      [|reflexivity].
    destruct (main.latency_of clock); reflexivity.
  - intros result w Ha. unfold answer_question, bind in Ha.
    destruct (_retrieve_relevant_chunks _ _ _) as [[top|e] w1] eqn:Htop; [|discriminate].
    apply retrieve_inv in Htop as (index & w0 & q & Hindex & _ & -> & _).
    apply build_requests_grow in Hindex.
    unfold chat in Ha. destruct (chat_completions_create _ _ _); [|discriminate].
    unfold lift in Ha. destruct (answer_text_of _); [|discriminate].
    injection Ha as _ <-. cbn. lia.
Qed.

Lemma ask_without_table_witness :
  let s := {| main.rag := demo_world; main.log := None |} in
  main.log s = None /\
  all_space (main.question demo_question) = false /\
  main.ask demo_clock demo_question demo_request s
  = (main.HTTPException 500 main.detail_500,
     {| main.rag := snd (answer_question (main.question demo_question) 3 (main.rag s));
        main.log := None |}) /\
  forall result w,
    answer_question (main.question demo_question) 3 (main.rag s) = (Ok result, w) ->
    (requests (main.rag s) + 2 <= requests w)%nat.
Proof.
  intros s. split; [reflexivity|]. split; [reflexivity|].
  apply (ask_without_table demo_clock demo_question demo_request s); reflexivity.
Defined.

(** X26.  The row of an answer holds the token counts that the provider
    reported, or [NULL] where it reported none, and the JSON texts of the
    chunks retrieved and of their sources. *)
Theorem ask_logs_reported_usage (clock : main.Clock) (req : main.QuestionRequest)
    (request : main.Request) (s s' : main.Server) (a : string)
    (top : list Chunk) (w1 : world) (completion : Completion) (w2 : world) :
  main.ask clock req request s = (main.AnswerResponse a, s') ->
  _retrieve_relevant_chunks (main.question req) 3 (main.rag s) = (Ok top, w1) ->
  chat (chat_request (main.question req) top) w1 = (Ok completion, w2) ->
  exists row,
    db_logging.get_interactions (Some 1) (main.log s') = (Returns [row], main.log s') /\
    db_logging.input_tokens row = usage completion ≫= prompt_tokens /\
    db_logging.output_tokens row = usage completion ≫= completion_tokens /\
    db_logging.total_tokens row = usage completion ≫= total_tokens /\
    db_logging.retrieved_chunks row = Some (dumps_strings (text <$> top)) /\
    db_logging.source_files row
    = Some (dumps_strings (replicate (length top) "knowledge.txt")).
Proof.
  unfold main.ask. destruct (is_empty _); [discriminate|].
  destruct (main.ask_body clock req request s) as [[a'|e] s1] eqn:Eb; [|discriminate].
  intros H Htop Hchat. injection H as -> ->.
  apply ask_body_inv in Eb as (_ & result & latency & Ha & -> & _ & Hsave).
  apply save_interaction_inv in Hsave as (t & Ht & _ & Hlog).
  revert Ha. unfold answer_question, bind. rewrite Htop, Hchat. unfold lift, ret.
  destruct (answer_text_of completion) as [x|e]; [|discriminate].
  intros H. injection H as <- _.
  cbn [retrieved_chunks source_files usage_tokens answer model_name temperature]
    in Hlog.
  destruct (usage_of_lookup completion) as (Hi & Ho & Htot).
  rewrite Hi, Ho, Htot, const_fmap_replicate in Hlog.
  eexists. rewrite Hlog. unfold db_logging.get_interactions.
  cbn [db_logging.rows andb Z.leb Z.compare db_logging.INT64_MIN db_logging.INT64_MAX
       Z.ltb Z.to_nat Pos.to_nat Pos.iter_op Nat.add].
  rewrite rev_app_distr. cbn [rev app take].
  split; [reflexivity|]. repeat split.
Qed.

Lemma ask_logs_reported_usage_witness :
  let top := slice_to 3 (sort_reverse (similarity [one; Float.zero]) demo_index) in
  let w1 := next_request demo_world in
  let w2 := next_request w1 in
  exists a s',
    main.ask demo_clock demo_question demo_request demo_server
    = (main.AnswerResponse a, s') /\
    _retrieve_relevant_chunks (main.question demo_question) 3 (main.rag demo_server)
    = (Ok top, w1) /\
    chat (chat_request (main.question demo_question) top) w1
    = (Ok demo_completion, w2) /\
    exists row,
      db_logging.get_interactions (Some 1) (main.log s')
      = (Returns [row], main.log s') /\
      db_logging.input_tokens row = usage demo_completion ≫= prompt_tokens /\
      db_logging.output_tokens row = usage demo_completion ≫= completion_tokens /\
      db_logging.total_tokens row = usage demo_completion ≫= total_tokens /\
      db_logging.retrieved_chunks row = Some (dumps_strings (text <$> top)) /\
      db_logging.source_files row
      = Some (dumps_strings (replicate (length top) "knowledge.txt")).
Proof.
  intros top w1 w2. eexists _, _.
  refine ((fun H H1 H2 => conj H (conj H1 (conj H2
    (ask_logs_reported_usage demo_clock demo_question demo_request demo_server _ _
       top w1 demo_completion w2 H H1 H2)))) _ _ _).
  - vm_compute. reflexivity.
  - vm_compute. reflexivity.
  - reflexivity.
Defined.

(** X27.  A server without knowledge file and without index starts all
    the same: the start-up drops the error, creates the table of the log
    if it is missing and keeps it otherwise.  Every question that is not
    blank then gets the status 500, with no request sent and no row
    logged. *)
Theorem startup_without_knowledge (s : main.Server) :
  _index_cache (main.rag s) = None ->
  index_file (main.rag s) = None ->
  knowledge_file (main.rag s) = None ->
  main.rag (main.startup_event s) = main.rag s /\
  (exists t, main.log (main.startup_event s) = Some t /\
             forall t0, main.log s = Some t0 -> t = t0) /\
  forall clock req request,
    all_space (main.question req) = false ->
    main.ask clock req request (main.startup_event s)
    = (main.HTTPException 500 main.detail_500, main.startup_event s).
Proof.
  intros Hc Hf Hk.
  assert (Hbuild : build_or_load_index false (main.rag s)
                   = (Raise FileNotFoundError, main.rag s)).
  { rewrite build_branch by (now left).
    unfold build_index, bind, _load_knowledge_text, raise. now rewrite Hk. }
  assert (Hrag : main.rag (main.startup_event s) = main.rag s).
  { unfold main.startup_event. cbn. now rewrite Hbuild. }
  split; [exact Hrag|]. split.
  - unfold main.startup_event. cbn. destruct (main.log s) as [t|]; cbn.
    + exists t. split; [reflexivity|]. intros t0 H. now injection H.
    + eexists. split; [reflexivity|]. discriminate.
  - intros clock req request Hq. unfold main.ask. rewrite strip_is_empty, Hq.
    unfold main.ask_body. rewrite Hrag.
    unfold answer_question, _retrieve_relevant_chunks, bind. rewrite Hbuild.
    f_equal. destruct (main.startup_event s) as [w d] eqn:Es. cbn in *. now subst.
Qed.

Lemma startup_without_knowledge_witness :
  let s := {| main.rag := empty_world; main.log := None |} in
  _index_cache (main.rag s) = None /\
  index_file (main.rag s) = None /\
  knowledge_file (main.rag s) = None /\
  main.rag (main.startup_event s) = main.rag s /\
  (exists t, main.log (main.startup_event s) = Some t /\
             forall t0, main.log s = Some t0 -> t = t0) /\
  forall clock req request,
    all_space (main.question req) = false ->
    main.ask clock req request (main.startup_event s)
    = (main.HTTPException 500 main.detail_500, main.startup_event s).
Proof.
  intros s. split; [reflexivity|]. split; [reflexivity|]. split; [reflexivity|].
  apply (startup_without_knowledge s); reflexivity.
Defined.
